(** * bolt: the device manager and the sysfs reader of the Thunderbolt daemon

    A shallow embedding of [boltd/bolt-sysfs.c] and [boltd/bolt-manager.c].

    - [Glib]    : the GLib string and array routines the two files call.
    - [Sysfs]   : the sysfs reader; [errno] is threaded as explicit state.
    - [Manager] : the device table, the topology queries, the uevent
                  handlers and the startup sequence; the heap of device
                  objects is explicit because the C code compares and
                  shares device pointers. *)

From stdpp Require Import gmap strings list.
From Stdlib Require Import ZArith Ascii String.

Set Warnings "-register-all".

Local Open Scope string_scope.
Local Open Scope Z_scope.

(* ===================================================================== *)
(** ** GLib routines *)
(* ===================================================================== *)

Module Glib.

(** [g_strjoinv (sep, strv)]: the elements of [strv] with [sep] between
    consecutive elements; the empty vector gives the empty string. *)
Fixpoint g_strjoinv (sep : string) (strv : list string) : string :=
  match strv with
  | [] => ""
  | [s] => s
  | s :: rest => s ++ sep ++ g_strjoinv sep rest
  end.

(** The body of [g_strsplit] for a one-character delimiter: [splits] is the
    number of cuts still allowed ([max_tokens - 1] at the start); once it is
    used up the remainder becomes the last token, delimiters included. *)
Fixpoint split_tokens (delim : ascii) (splits : Z) (s : string) : list string :=
  match s with
  | "" => [""]
  | String a s' =>
      if Ascii.eqb a delim then
        if splits <=? 0 then [s]
        else "" :: split_tokens delim (splits - 1) s'
      else
        match split_tokens delim splits s' with
        | tok :: toks => String a tok :: toks
        | [] => [String a ""]
        end
  end.

(** [g_strsplit (string, delimiter, max_tokens)] with a one-character
    delimiter.  [max_tokens < 1] means no limit ([G_MAXINT]); splitting the
    empty string gives the empty vector, not a vector with one empty string. *)
Definition g_strsplit (s : string) (delim : ascii) (max_tokens : Z) : list string :=
  let max := if max_tokens <? 1 then 2147483647 else max_tokens in
  match s with
  | "" => []
  | _ => split_tokens delim (max - 1) s
  end.

(** Whether [c] occurs in [s] ([strchr (s, c) != NULL]). *)
Fixpoint contains_char (c : ascii) (s : string) : bool :=
  match s with
  | "" => false
  | String a rest => Ascii.eqb a c || contains_char c rest
  end.

(** [g_build_filename (dir, name, NULL)] for a [dir] without a trailing
    separator and a [name] without a leading one. *)
Definition g_build_filename (dir name : string) : string :=
  dir ++ "/" ++ name.

(** [g_str_has_prefix (str, prefix)]. *)
Definition g_str_has_prefix (str pre : string) : bool := String.prefix pre str.

(** [g_ptr_array_remove_fast (array, data)]: the first slot holding [data]
    is overwritten with the last element and the array shrinks by one; the
    order of the others is kept.  Nothing happens when [data] is absent. *)
Fixpoint g_ptr_array_remove_fast (data : nat) (array : list nat) : list nat :=
  match array with
  | [] => []
  | p :: rest =>
      if Nat.eqb p data then
        match last rest with
        | Some z => z :: removelast rest
        | None => []
        end
      else p :: g_ptr_array_remove_fast data rest
  end.

End Glib.

(* ===================================================================== *)
(** ** Errors *)
(* ===================================================================== *)

(** The codes of the [BOLT_ERROR] domain that the two files raise. *)
Inductive BoltError := BOLT_ERROR_FAILED | BOLT_ERROR_UDEV.

(** A [GError]: its domain and code.  For the [G_IO_ERROR] domain the code
    is [g_io_error_from_errno (errno)]; the model keeps the [errno] it is
    computed from. *)
Inductive GError :=
| InBoltError (code : BoltError)
| InGIOError (from_errno : Z).

(** The spec's error kind UdevError is [BOLT_ERROR_UDEV] of [BOLT_ERROR]. *)
Definition UdevError : GError := InBoltError BOLT_ERROR_UDEV.

(** What a [gboolean f (..., GError **error)] reports. *)
Inductive gresult :=
| TRUE
| FALSE (error : GError).

Definition ENOENT : positive := 2%positive.
Definition EINVAL : positive := 22%positive.
Definition ERANGE : positive := 34%positive.

(* ===================================================================== *)
(** ** The sysfs reader, [boltd/bolt-sysfs.c] *)
(* ===================================================================== *)

Module Sysfs.

(** *** [errno] as state

    A computation reads and writes the thread's [errno]. *)
Definition Errno (A : Type) : Type := Z -> A * Z.

Definition ret {A} (a : A) : Errno A := fun e => (a, e).
Definition bind {A B} (m : Errno A) (k : A -> Errno B) : Errno B :=
  fun e => let '(a, e') := m e in k a e'.
Definition get_errno : Errno Z := fun e => (e, e).
Definition set_errno (code : positive) : Errno unit := fun _ => (tt, Z.pos code).

Notation "'do' x <- m ; k" := (bind m (fun x => k))
  (at level 10, x binder, m at level 100, k at level 200, only parsing).

(** *** The udev device handle *)

Record stat := { st_ctim : Z; st_atim : Z; st_mtim : Z }.

(** What libudev answers for one device handle.  A missing or unreadable
    attribute is [inr code]: [udev_device_get_sysattr_value] returns NULL
    and leaves [code] in [errno]. *)
Inductive udev_device := Udev {
  udev_action : option string;
  udev_syspath : option string;
  udev_sysname : option string;
  udev_subsystem : option string;
  udev_devtype : option string;
  udev_sysattrs : string -> string + positive;
  udev_lstat : stat + positive;
  udev_parent : option udev_device
}.

Definition udev_device_get_sysattr_value (dev : udev_device) (attr : string)
  : Errno (option string) :=
  match udev_sysattrs dev attr with
  | inl v => ret (Some v)
  | inr code => do _ <- set_errno code ; ret None
  end.

(** [lstat (path, &sb)]: [-1] with [errno] set on failure. *)
Definition lstat (dev : udev_device) : Errno (option stat) :=
  match udev_lstat dev with
  | inl sb => ret (Some sb)
  | inr code => do _ <- set_errno code ; ret None
  end.

Inductive BoltStatTime := BOLT_ST_CTIME | BOLT_ST_ATIME | BOLT_ST_MTIME.

Definition bolt_sysfs_device_get_time (udev : udev_device) (st : BoltStatTime)
  : Errno Z :=
  match udev_syspath udev with
  | None => ret 0
  | Some _ =>
      do r <- lstat udev ;
      match r with
      | None => ret 0
      | Some sb =>
          let ms := match st with
                    | BOLT_ST_CTIME => st_ctim sb
                    | BOLT_ST_ATIME => st_atim sb
                    | BOLT_ST_MTIME => st_mtim sb
                    end in
          ret (if ms <? 0 then 0 else ms)
      end
  end.

Record BoltLinkSpeed := {
  rx_lanes : Z; rx_speed : Z; tx_lanes : Z; tx_speed : Z
}.

Record BoltDevInfo := {
  authorized : Z;
  keysize : Z;
  boot : Z;
  full : bool;
  ctim : Z;
  parent : option string;
  generation : Z;
  syspath : option string;
  linkspeed : BoltLinkSpeed
}.

Section Reader.

(** [bolt_str_parse_as_int] lives in [common/bolt-str.c]: the value on
    success, [None] on failure, and whatever it leaves in [errno]. *)
Variable bolt_str_parse_as_int : string -> Errno (option Z).

Definition sysfs_get_sysattr_value_as_int (udev : udev_device) (attr : string)
  : Errno Z :=
  do str <- udev_device_get_sysattr_value udev attr ;
  match str with
  | None => do e <- get_errno ; ret (- e)
  | Some s =>
      do ok <- bolt_str_parse_as_int s ;
      match ok with
      | None => do e <- get_errno ; ret (- e)
      | Some val => ret val
      end
  end.

Definition sysfs_get_sysattr_size (udev : udev_device) (attr : string)
  : Errno Z :=
  do str <- udev_device_get_sysattr_value udev attr ;
  match str with
  | None => do e <- get_errno ; ret (- e)
  | Some s => ret (Z.of_nat (String.length s))
  end.

Definition link_speed_item (udev : udev_device) (name : string) : Errno Z :=
  do res <- sysfs_get_sysattr_value_as_int udev name ;
  ret (if 0 <? res then res else 0).

Definition bolt_sysfs_read_link_speed (udev : udev_device) : Errno BoltLinkSpeed :=
  do rl <- link_speed_item udev "rx_lanes" ;
  do rs <- link_speed_item udev "rx_speed" ;
  do tl <- link_speed_item udev "tx_lanes" ;
  do ts <- link_speed_item udev "tx_speed" ;
  ret {| rx_lanes := rl; rx_speed := rs; tx_lanes := tl; tx_speed := ts |}.

(** [bolt_sysfs_info_for_device (udev, full, info, error)]: [info] is the
    struct of the caller as it is on entry, and the result is the outcome
    with the struct as it is on return.  The function resets [keysize],
    [ctim], [full], [parent], [generation] and [syspath] and stores
    [authorized] before anything can fail; [boot] is written only once
    [authorized] has been read, and [linkspeed] only in a full snapshot, so
    until then they hold what the caller left there. *)
Definition bolt_sysfs_info_for_device (udev : udev_device) (want_full : bool)
  (info : BoltDevInfo) : Errno (gresult * BoltDevInfo) :=
  do auth <- sysfs_get_sysattr_value_as_int udev "authorized" ;
  if auth <? 0 then
    do e <- get_errno ;
    ret (FALSE (InGIOError e),
         {| authorized := auth; keysize := -1; boot := boot info; full := false;
            ctim := -1; parent := None; generation := 0;
            syspath := None; linkspeed := linkspeed info |})
  else
    do ks <- sysfs_get_sysattr_size udev "key" ;
    do bt <- sysfs_get_sysattr_value_as_int udev "boot" ;
    if negb want_full then
      ret (TRUE, {| authorized := auth; keysize := ks; boot := bt; full := false;
                    ctim := -1; parent := None; generation := 0;
                    syspath := None; linkspeed := linkspeed info |})
    else
      do ct <- bolt_sysfs_device_get_time udev BOLT_ST_CTIME ;
      do par <- match udev_parent udev with
                | Some p => udev_device_get_sysattr_value p "unique_id"
                | None => ret None
                end ;
      do gen <- sysfs_get_sysattr_value_as_int udev "generation" ;
      do ls <- bolt_sysfs_read_link_speed udev ;
      ret (TRUE, {| authorized := auth; keysize := ks; boot := bt; full := true;
                    ctim := ct; parent := par;
                    generation := (if 0 <? gen then gen else 0);
                    syspath := udev_syspath udev; linkspeed := ls |}).

End Reader.

(** [bolt_strv_isempty] of [common/bolt-str.h] is outside the files
    embedded here, and the spec does not describe it.  It is modelled from
    its call site in [bolt_sysfs_read_boot_acl], which the source comments
    with: if the attribute exists but is empty, return NULL.  A vector is
    empty when it is NULL or has no element, which is what [g_strsplit]
    returns for the empty string and for no other value. *)
Definition bolt_strv_isempty (strv : option (list string)) : bool :=
  match strv with
  | None => true
  | Some [] => true
  | Some (_ :: _) => false
  end.

(** Modelled from the spec: [bolt_error_for_errno] of [common/bolt-error.c],
    outside the files embedded here: it reports failure with an error made
    from the [errno] it is given. *)
Definition bolt_error_for_errno (code : Z) : gresult := FALSE (InGIOError code).

(** [bolt_sysfs_read_boot_acl (udev, out, error)]: the outcome and [*out]
    ([None] is the NULL list; [*out] is not written on failure).  The
    source comments the last test with: if the attribute exists but is
    empty, return NULL. *)
Definition bolt_sysfs_read_boot_acl (udev : udev_device)
  : Errno (gresult * option (list string)) :=
  do val <- udev_device_get_sysattr_value udev "boot_acl" ;
  do e <- get_errno ;
  match val with
  | None =>
      if negb (e =? Z.pos ENOENT) then ret (bolt_error_for_errno e, None)
      else
        (* acl is still NULL *)
        if negb (bolt_strv_isempty None) then ret (TRUE, None) else ret (TRUE, None)
  | Some v =>
      let acl := Glib.g_strsplit v "," 1024 in
      if negb (bolt_strv_isempty (Some acl)) then ret (TRUE, Some acl)
      else ret (TRUE, None)
  end.

(** *** Writing the boot ACL *)

(** Modelled from the spec: [bolt_file_write_all] of [common/bolt-io.c],
    outside the files embedded here.  The attribute files of sysfs are a map
    from path to content; the write is one write of the whole value to an
    existing attribute file, and fails without effect when there is no such
    file. *)
Definition bolt_file_write_all (fs : gmap string string) (path data : string)
  : gresult * gmap string string :=
  match fs !! path with
  | Some _ => (TRUE, <[path := data]> fs)
  | None => (FALSE (InGIOError (Z.pos ENOENT)), fs)
  end.

Definition bolt_sysfs_write_boot_acl (fs : gmap string string)
  (device : string) (acl : list string) : gresult * gmap string string :=
  let val := Glib.g_strjoinv "," acl in
  let path := Glib.g_build_filename device "boot_acl" in
  bolt_file_write_all fs path val.

(** [udev_device_new_from_syspath]: a handle on the node at [path] whose
    attributes are the files below it. *)
Definition udev_device_new_from_syspath (fs : gmap string string) (path : string)
  : udev_device :=
  {| udev_action := None; udev_syspath := Some path; udev_sysname := None;
     udev_subsystem := None; udev_devtype := None;
     udev_sysattrs := fun attr =>
       match fs !! Glib.g_build_filename path attr with
       | Some v => inl v
       | None => inr ENOENT
       end;
     udev_lstat := inr ENOENT; udev_parent := None |}.

(** The spec's reading of a boot-ACL law "modulo trailing empty slots". *)
Fixpoint strip_trailing_empty (l : list string) : list string :=
  match l with
  | [] => []
  | s :: rest =>
      match strip_trailing_empty rest with
      | [] => if String.eqb s "" then [] else [s]
      | rest' => s :: rest'
      end
  end.

Definition comma_free (s : string) : Prop := Glib.contains_char "," s = false.

(** [attr] cannot be read as an integer: it is missing, or its value does
    not parse. *)
Definition unreadable_as_int (parse : string -> Errno (option Z))
  (udev : udev_device) (attr : string) : Prop :=
  match udev_sysattrs udev attr with
  | inr _ => True
  | inl s => forall e, fst (parse s e) = None
  end.

(** What the callers of the parser rely on when they return [-errno]: a
    failed parse leaves a positive error number. *)
Definition fails_with_errno (parse : string -> Errno (option Z)) : Prop :=
  forall s e, fst (parse s e) = None -> 0 < snd (parse s e).

(** *** A reader of decimal numbers, to run the definitions on examples *)

Fixpoint digits_value (acc : Z) (s : string) : option Z :=
  match s with
  | "" => Some acc
  | String c rest =>
      let d := Z.of_N (N_of_ascii c) - 48 in
      if (0 <=? d) && (d <=? 9) then digits_value (10 * acc + d) rest else None
  end.

Definition sample_parse_as_int (s : string) : Errno (option Z) :=
  fun _ =>
    match s with
    | "" => (None, Z.pos EINVAL)
    | _ => match digits_value 0 s with
           | Some v => if v <=? 2147483647 then (Some v, 0) else (None, Z.pos ERANGE)
           | None => (None, Z.pos EINVAL)
           end
    end.

Definition sysattrs_of (l : list (string * string)) (attr : string) : string + positive :=
  match List.find (fun kv => String.eqb (fst kv) attr) l with
  | Some kv => inl (snd kv)
  | None => inr ENOENT
  end.

(** A device node with the given attribute values and nothing else. *)
(** A struct as a caller may hand it in: the leftovers of an earlier
    snapshot. *)
Definition stale_info : BoltDevInfo :=
  {| authorized := 1; keysize := 32; boot := 1; full := true;
     ctim := 1540000000; parent := Some "stale"; generation := 3;
     syspath := Some "/sys/stale";
     linkspeed := {| rx_lanes := 2; rx_speed := 20;
                     tx_lanes := 2; tx_speed := 20 |} |}.

Definition node_with (attrs : list (string * string)) : udev_device :=
  {| udev_action := None; udev_syspath := None; udev_sysname := None;
     udev_subsystem := None; udev_devtype := None;
     udev_sysattrs := sysattrs_of attrs;
     udev_lstat := inr ENOENT; udev_parent := None |}.

Definition domain0 : string := "/sys/bus/thunderbolt/devices/domain0".

(** The attribute files of a domain whose boot ACL is empty. *)
Definition domain0_files : gmap string string :=
  {[ Glib.g_build_filename domain0 "boot_acl" := "" ]}.

End Sysfs.

(* ===================================================================== *)
(** ** The device manager, [boltd/bolt-manager.c] *)
(* ===================================================================== *)

Module Manager.

(** *** Device records *)

(** Modelled from the spec: [BoltStatus] of the device layer, which is outside
    the files embedded here: Disconnected, Connected, AuthError,
    AuthConnected, AuthConnectedSecure. *)
Inductive BoltStatus :=
| BOLT_STATUS_DISCONNECTED
| BOLT_STATUS_CONNECTED
| BOLT_STATUS_AUTH_ERROR
| BOLT_STATUS_AUTHORIZED
| BOLT_STATUS_AUTHORIZED_SECURE.

(** Modelled from the spec: [BoltPolicy]: Default, Manual, Auto. *)
Inductive BoltPolicy :=
| BOLT_POLICY_DEFAULT
| BOLT_POLICY_MANUAL
| BOLT_POLICY_AUTO.

#[global] Instance BoltStatus_eq_dec : EqDecision BoltStatus.
Proof. solve_decision. Defined.

#[global] Instance BoltPolicy_eq_dec : EqDecision BoltPolicy.
Proof. solve_decision. Defined.

(** Modelled from the spec: the predicate "authorized" covers the last two
    status values. *)
Definition bolt_status_is_authorized (status : BoltStatus) : bool :=
  match status with
  | BOLT_STATUS_AUTHORIZED | BOLT_STATUS_AUTHORIZED_SECURE => true
  | _ => false
  end.

(** The fields of a [BoltDevice] object that the manager reads through the
    [bolt_device_get_*] accessors.  [dev_store] is the [guint] of
    [bolt_device_get_store], positive when a store record exists. *)
Record BoltDevice := {
  dev_uid : string;
  dev_syspath : option string;
  dev_status : BoltStatus;
  dev_policy : BoltPolicy;
  dev_store : nat;
  dev_object_path : option string
}.

(** Modelled from the spec: a device is connected unless its status is
    Disconnected. *)
Definition bolt_device_is_connected (d : BoltDevice) : bool :=
  negb (bool_decide (dev_status d = BOLT_STATUS_DISCONNECTED)).

(** *** The manager and what it acts on *)

Inductive Signal :=
| DeviceAdded (opath : option string)
| DeviceRemoved (opath : string).

(** A [g_warning]: its text and the uid it is about.  [g_debug], [g_info]
    and the message of a failed [g_return_if_fail] are not recorded. *)
Inductive LogMessage :=
| Warning (text : string) (uid : option string).

(** [objects] is the heap of [BoltDevice] objects, addressed by pointer;
    [devices] is the [GPtrArray] [mgr->devices]; [idle] holds the devices
    handed to [g_idle_add (authorize_device_idle, dev)], oldest first;
    [signals] are the D-Bus signals emitted so far. *)
Record BoltManager := {
  objects : gmap nat BoltDevice;
  next_object : nat;
  devices : list nat;
  bus : bool;
  idle : list nat;
  signals : list Signal;
  log : list LogMessage
}.

Definition set_devices (l : list nat) (mgr : BoltManager) : BoltManager :=
  {| objects := objects mgr; next_object := next_object mgr; devices := l;
     bus := bus mgr; idle := idle mgr; signals := signals mgr; log := log mgr |}.

Definition set_object (p : nat) (d : BoltDevice) (mgr : BoltManager) : BoltManager :=
  {| objects := <[p := d]> (objects mgr); next_object := next_object mgr;
     devices := devices mgr; bus := bus mgr; idle := idle mgr;
     signals := signals mgr; log := log mgr |}.

Definition g_idle_add (p : nat) (mgr : BoltManager) : BoltManager :=
  {| objects := objects mgr; next_object := next_object mgr;
     devices := devices mgr; bus := bus mgr; idle := idle mgr ++ [p];
     signals := signals mgr; log := log mgr |}.

Definition emit (s : Signal) (mgr : BoltManager) : BoltManager :=
  {| objects := objects mgr; next_object := next_object mgr;
     devices := devices mgr; bus := bus mgr; idle := idle mgr;
     signals := signals mgr ++ [s]; log := log mgr |}.

Definition g_warning (text : string) (uid : option string) (mgr : BoltManager)
  : BoltManager :=
  {| objects := objects mgr; next_object := next_object mgr;
     devices := devices mgr; bus := bus mgr; idle := idle mgr;
     signals := signals mgr; log := log mgr ++ [Warning text uid] |}.

(** [g_object_new]: a fresh object on the heap. *)
Definition new_object (d : BoltDevice) (mgr : BoltManager) : nat * BoltManager :=
  (next_object mgr,
   {| objects := <[next_object mgr := d]> (objects mgr);
      next_object := S (next_object mgr);
      devices := devices mgr; bus := bus mgr; idle := idle mgr;
      signals := signals mgr; log := log mgr |}).

(** *** Runs

    A call either returns or has no defined continuation: it reads outside
    a string, follows a pointer to no object, or trips a [g_assert]. *)
Inductive run (A : Type) :=
| Returns (a : A)
| Undefined.
Arguments Returns {A} a.
Arguments Undefined {A}.

Definition bind {A B} (m : run A) (k : A -> run B) : run B :=
  match m with
  | Returns a => k a
  | Undefined => Undefined
  end.

Notation "'do' x <- m ; k" := (bind m (fun x => k))
  (at level 10, x binder, m at level 100, k at level 200, only parsing).

Definition deref (mgr : BoltManager) (p : nat) : run BoltDevice :=
  match objects mgr !! p with
  | Some d => Returns d
  | None => Undefined
  end.

(** *** Lookups and topology *)

Fixpoint device_by_syspath_from (mgr : BoltManager) (sysfs : string)
  (array : list nat) : run (option nat) :=
  match array with
  | [] => Returns None
  | p :: rest =>
      do dev <- deref mgr p ;
      match dev_syspath dev with
      | Some have =>
          if String.eqb have sysfs then Returns (Some p)
          else device_by_syspath_from mgr sysfs rest
      | None => device_by_syspath_from mgr sysfs rest
      end
  end.

Definition bolt_manager_get_device_by_syspath (mgr : BoltManager) (sysfs : string)
  : run (option nat) :=
  device_by_syspath_from mgr sysfs (devices mgr).

Fixpoint device_by_uid_from (mgr : BoltManager) (uid : string)
  (array : list nat) : run (option nat) :=
  match array with
  | [] => Returns None
  | p :: rest =>
      do dev <- deref mgr p ;
      if String.eqb (dev_uid dev) uid then Returns (Some p)
      else device_by_uid_from mgr uid rest
  end.

Definition bolt_manager_get_device_by_uid (mgr : BoltManager) (uid : string)
  : run (option nat) :=
  device_by_uid_from mgr uid (devices mgr).

(** [strrchr (s, c)] as the offset of the last [c] in [s]. *)
Fixpoint strrchr (s : string) (c : ascii) : option nat :=
  match s with
  | "" => None
  | String a rest =>
      match strrchr rest c with
      | Some i => Some (S i)
      | None => if Ascii.eqb a c then Some O else None
      end
  end.

(** [s + n] for [n] within the string. *)
Fixpoint skip (n : nat) (s : string) : string :=
  match n, s with
  | O, _ => s
  | S k, String _ rest => skip k rest
  | S _, "" => ""
  end.

(** [bolt_manager_get_parent].  [start = path + strlen ("/sys")] is inside
    the string only when the syspath has at least four characters; the
    search from a shorter one reads past its end. *)
Definition bolt_manager_get_parent (mgr : BoltManager) (dev : nat)
  : run (option nat) :=
  do d <- deref mgr dev ;
  match dev_syspath d with
  | None => Returns None
  | Some path =>
      if Nat.ltb (String.length path) 4 then Undefined
      else
        let start := skip 4 path in
        match strrchr start "/" with
        | None => Returns None
        | Some pos =>
            if Nat.ltb pos 2 then Returns None
            else bolt_manager_get_device_by_syspath mgr
                   (String.substring 0 (4 + pos) path)
        end
  end.

Fixpoint children_from (mgr : BoltManager) (target : nat) (array : list nat)
  : run (list nat) :=
  match array with
  | [] => Returns []
  | dev :: rest =>
      do parent <- bolt_manager_get_parent mgr dev ;
      do res <- children_from mgr target rest ;
      Returns (if bool_decide (parent = Some target) then dev :: res else res)
  end.

Definition bolt_manager_get_children (mgr : BoltManager) (target : nat)
  : run (list nat) :=
  children_from mgr target (devices mgr).

(** *** Authorization *)

Definition maybe_authorize_device (mgr : BoltManager) (dev : nat)
  : run BoltManager :=
  do d <- deref mgr dev ;
  let status := dev_status d in
  let policy := dev_policy d in
  if bolt_status_is_authorized status
     || negb (bool_decide (policy = BOLT_POLICY_AUTO))
  then Returns mgr
  else
    let store := dev_store d in
    if negb (Nat.ltb 0 store) then Returns mgr
    else Returns (g_idle_add dev mgr).

(** The three conditions under which [maybe_authorize_device] goes on to
    queue an authorization. *)
Definition auto_authorizable (d : BoltDevice) : Prop :=
  bolt_status_is_authorized (dev_status d) = false /\
  dev_policy d = BOLT_POLICY_AUTO /\
  (0 < dev_store d)%nat.

(** *** Well-formed tables *)

(** Every pointer in the table points to an object. *)
Definition live_table (mgr : BoltManager) : Prop :=
  Forall (fun p => is_Some (objects mgr !! p)) (devices mgr).

(** Every syspath in the table is long enough to hold the ["/sys"] prefix,
    as the paths libudev reports are. *)
Definition syspaths_in_bounds (mgr : BoltManager) : Prop :=
  Forall (fun p => forall d path,
            objects mgr !! p = Some d -> dev_syspath d = Some path ->
            (4 <= String.length path)%nat) (devices mgr).

(** The invariant of the table: no pointer twice, every pointer live and
    allocated, every syspath in bounds. *)
Definition table_inv (mgr : BoltManager) : Prop :=
  NoDup (devices mgr) /\ live_table mgr /\ syspaths_in_bounds mgr /\
  Forall (fun p => (p < next_object mgr)%nat) (devices mgr).

(** A node whose syspath, if any, holds the ["/sys"] prefix. *)
Definition event_in_bounds (device : Sysfs.udev_device) : Prop :=
  forall path, Sysfs.udev_syspath device = Some path ->
               (4 <= String.length path)%nat.

Definition has_syspath (mgr : BoltManager) (path : string) (p : nat) : Prop :=
  exists d, objects mgr !! p = Some d /\ dev_syspath d = Some path.

(** [r] is the first device of the table at [path], or [None] when the
    table has no device there. *)
Definition first_with_syspath (mgr : BoltManager) (path : string)
  (r : option nat) : Prop :=
  match r with
  | Some p =>
      exists before after,
        devices mgr = (before ++ p :: after)%list /\
        has_syspath mgr path p /\
        Forall (fun q => ~ has_syspath mgr path q) before
  | None => Forall (fun q => ~ has_syspath mgr path q) (devices mgr)
  end.

(** [parent_of] as the spec words it: strip the sysfs mount prefix, strip
    the trailing [/segment], and look up the remainder in the table; none
    when no ['/'] remains or the remainder is too short. *)
Definition spec_parent_of (mgr : BoltManager) (dev : nat) : run (option nat) :=
  do d <- deref mgr dev ;
  match dev_syspath d with
  | None => Returns None
  | Some path =>
      let stripped := skip 4 path in
      match strrchr stripped "/" with
      | None => Returns None
      | Some pos =>
          if Nat.ltb pos 2 then Returns None
          else bolt_manager_get_device_by_syspath mgr
                 (String.substring 0 pos stripped)
      end
  end.

(** The sysname of a domain controller. *)
Definition is_domain_name (name : option string) : bool :=
  match name with
  | Some n => Glib.g_str_has_prefix n "domain"
  | None => false
  end.

(** *** The device layer and the IPC sink *)

Section Handlers.

(** The status [bolt-device.c] (outside the files embedded here) derives
    from the [authorized] attribute of a node. *)
Variable bolt_status_from_udev : Sysfs.udev_device -> BoltStatus.

(** Modelled from the spec: [bolt_device_export], the IPC sink's
    [export(device) -> path]: the object path it assigns to the device, or
    none when exporting fails. *)
Variable export_path : BoltDevice -> option string.

Definition with_status_syspath (status : BoltStatus) (path : option string)
  (d : BoltDevice) : BoltDevice :=
  {| dev_uid := dev_uid d; dev_syspath := path; dev_status := status;
     dev_policy := dev_policy d; dev_store := dev_store d;
     dev_object_path := dev_object_path d |}.

Definition with_object_path (opath : option string) (d : BoltDevice) : BoltDevice :=
  {| dev_uid := dev_uid d; dev_syspath := dev_syspath d;
     dev_status := dev_status d; dev_policy := dev_policy d;
     dev_store := dev_store d; dev_object_path := opath |}.

(** Modelled from the spec: [bolt_device_new_for_udev] constructs a fresh
    record from the node: uid from [unique_id], the node's syspath, the
    status read from sysfs, policy Default, not stored, not exported.  It
    fails with UdevError when [unique_id] cannot be read. *)
Definition bolt_device_new_for_udev (udev : Sysfs.udev_device)
  : BoltDevice + GError :=
  match Sysfs.udev_sysattrs udev "unique_id" with
  | inl uid =>
      inl {| dev_uid := uid; dev_syspath := Sysfs.udev_syspath udev;
             dev_status := bolt_status_from_udev udev;
             dev_policy := BOLT_POLICY_DEFAULT; dev_store := O;
             dev_object_path := None |}
  | inr _ => inr UdevError
  end.

(** Modelled from the spec: [bolt_device_connected] refreshes syspath and
    status from the node. *)
Definition bolt_device_connected (d : BoltDevice) (udev : Sysfs.udev_device)
  : BoltDevice :=
  with_status_syspath (bolt_status_from_udev udev) (Sysfs.udev_syspath udev) d.

(** Modelled from the spec: [bolt_device_update_from_udev] updates status
    and syspath from the node (the link speed is not part of the record
    here). *)
Definition bolt_device_update_from_udev (d : BoltDevice) (udev : Sysfs.udev_device)
  : BoltDevice :=
  with_status_syspath (bolt_status_from_udev udev) (Sysfs.udev_syspath udev) d.

(** Modelled from the spec: [bolt_device_disconnected] moves the record to
    Disconnected; uid, policy and stored are preserved, and the syspath,
    present only while connected, is dropped. *)
Definition bolt_device_disconnected (d : BoltDevice) : BoltDevice :=
  with_status_syspath BOLT_STATUS_DISCONNECTED None d.

(** Modelled from the spec: [bolt_device_unexport] clears the object path. *)
Definition bolt_device_unexport (d : BoltDevice) : BoltDevice :=
  with_object_path None d.

(** *** udev callbacks *)

Definition handle_udev_device_added (mgr : BoltManager) (udev : Sysfs.udev_device)
  : run BoltManager :=
  match bolt_device_new_for_udev udev with
  | inr _ =>
      Returns (g_warning "Could not create device for udev" None mgr)
  | inl d =>
      let '(dev, mgr1) := new_object d mgr in
      let mgr2 := set_devices (devices mgr1 ++ [dev]) mgr1 in
      let uid := dev_uid d in
      if negb (bus mgr2) then Returns mgr2
      else
        let opath := export_path d in
        let mgr3 := set_object dev (with_object_path opath d) mgr2 in
        let mgr4 := match opath with
                    | None => g_warning "error exporting" (Some uid) mgr3
                    | Some _ => mgr3
                    end in
        Returns (emit (DeviceAdded opath) mgr4)
  end.

Fixpoint authorize_children (mgr : BoltManager) (children : list nat)
  : run BoltManager :=
  match children with
  | [] => Returns mgr
  | child :: rest =>
      do mgr1 <- maybe_authorize_device mgr child ;
      authorize_children mgr1 rest
  end.

Definition handle_udev_device_changed (mgr : BoltManager) (dev : nat)
  (udev : Sysfs.udev_device) : run BoltManager :=
  do d <- deref mgr dev ;
  let d1 := bolt_device_update_from_udev d udev in
  let mgr1 := set_object dev d1 mgr in
  let after := dev_status d1 in
  if negb (bolt_status_is_authorized after) then Returns mgr1
  else
    do children <- bolt_manager_get_children mgr1 dev ;
    authorize_children mgr1 children.

(** The object is dropped from the table, not from the heap: the caller
    and the idle queue may still hold references to it. *)
Definition hanlde_udev_device_removed (mgr : BoltManager) (dev : nat)
  : run BoltManager :=
  do d <- deref mgr dev ;
  let mgr1 := set_devices (Glib.g_ptr_array_remove_fast dev (devices mgr)) mgr in
  match dev_object_path d with
  | None => Returns mgr1
  | Some opath =>
      let mgr2 := emit (DeviceRemoved opath) mgr1 in
      Returns (set_object dev (bolt_device_unexport d) mgr2)
  end.

Definition handle_udev_device_attached (mgr : BoltManager) (dev : nat)
  (udev : Sysfs.udev_device) : run BoltManager :=
  do d <- deref mgr dev ;
  let d1 := bolt_device_connected d udev in
  let mgr1 := set_object dev d1 mgr in
  let status := dev_status d1 in
  let uid := dev_uid d1 in
  if negb (bool_decide (status = BOLT_STATUS_CONNECTED)) then Returns mgr1
  else
    do parent <- bolt_manager_get_parent mgr1 dev ;
    match parent with
    | Some p =>
        do pd <- deref mgr1 p ;
        if negb (bolt_status_is_authorized (dev_status pd)) then Returns mgr1
        else maybe_authorize_device mgr1 dev
    | None =>
        maybe_authorize_device
          (g_warning "could not find parent" (Some uid) mgr1) dev
    end.

Definition handle_udev_device_detached (mgr : BoltManager) (dev : nat)
  : run BoltManager :=
  do d <- deref mgr dev ;
  Returns (set_object dev (bolt_device_disconnected d) mgr).

(** [handle_uevent_udev]: [device] is what [udev_monitor_receive_device]
    delivered, [None] for NULL. *)
Definition handle_uevent_udev (mgr : BoltManager)
  (device : option Sysfs.udev_device) : run BoltManager :=
  match device with
  | None => Returns mgr
  | Some device =>
      match Sysfs.udev_action device with
      | None => Returns mgr
      | Some action =>
          if String.eqb action "add" || String.eqb action "change" then
            match Sysfs.udev_sysattrs device "unique_id" with
            | inr _ => Returns mgr
            | inl uid =>
                do dev <- bolt_manager_get_device_by_uid mgr uid ;
                match dev with
                | None => handle_udev_device_added mgr device
                | Some dev =>
                    do d <- deref mgr dev ;
                    if negb (bolt_device_is_connected d)
                    then handle_udev_device_attached mgr dev device
                    else handle_udev_device_changed mgr dev device
                end
            end
          else if String.eqb action "remove" then
            match Sysfs.udev_syspath device with
            | None =>
                Returns (g_warning "udev device without syspath" None mgr)
            | Some syspath =>
                let name := Sysfs.udev_sysname device in
                if is_domain_name name then Returns mgr
                else
                  do dev <- bolt_manager_get_device_by_syspath mgr syspath ;
                  match dev with
                  | None => Returns mgr
                  | Some dev =>
                      do d <- deref mgr dev ;
                      if Nat.ltb 0 (dev_store d)
                      then handle_udev_device_detached mgr dev
                      else hanlde_udev_device_removed mgr dev
                  end
            end
          else Returns mgr
      end
  end.

(** *** Startup *)

(** What libudev answers while one monitor is set up. *)
Record monitor_env := {
  monitor_created : bool;      (* udev_monitor_new_from_netlink is not NULL *)
  filter_add_match : Z;        (* udev_monitor_filter_add_match_subsystem_devtype *)
  enable_receiving : Z;        (* udev_monitor_enable_receiving *)
  monitor_fd : Z               (* udev_monitor_get_fd *)
}.

(** What the daemon finds at startup.  [enumerated] has one entry per list
    entry of the udev enumeration: the handle that
    [udev_device_new_from_syspath] gives for it, [None] for NULL. *)
Record udev_env := {
  udev_created : bool;         (* udev_new is not NULL *)
  kernel_monitor : monitor_env;
  udev_monitor : monitor_env;
  enumerated : list (option Sysfs.udev_device)
}.

(** Modelled from the spec: the store interface of [bolt-store.c], which is
    outside the files embedded here: [list_uids] enumerates the persisted
    records and [get] rebuilds a record for a uid; both can fail. *)
Record BoltStore := {
  bolt_store_list_uids : list string + GError;
  bolt_store_get_device : string -> BoltDevice + GError
}.

Definition setup_monitor (env : monitor_env) : gresult :=
  if negb (monitor_created env) then FALSE (InBoltError BOLT_ERROR_UDEV)
  else if filter_add_match env <? 0 then FALSE (InBoltError BOLT_ERROR_UDEV)
  else if enable_receiving env <? 0 then FALSE (InBoltError BOLT_ERROR_UDEV)
  else if monitor_fd env <? 0 then FALSE (InBoltError BOLT_ERROR_UDEV)
  else TRUE.

(** The first loop of [bolt_manager_initialize]: one pass over the uids of
    the store. *)
Fixpoint load_devices (store : BoltStore) (ids : list string) (mgr : BoltManager)
  : BoltManager :=
  match ids with
  | [] => mgr
  | uid :: rest =>
      match bolt_store_get_device store uid with
      | inr _ =>
          load_devices store rest
            (g_warning "failed to load from store" (Some uid) mgr)
      | inl d =>
          let '(dev, mgr1) := new_object d mgr in
          load_devices store rest (set_devices (devices mgr1 ++ [dev]) mgr1)
      end
  end.

(** The second loop: one pass over the enumerated nodes.  The [g_assert]
    on the uid ends the run when the node has no [unique_id]. *)
Fixpoint enumerate_devices (l : list (option Sysfs.udev_device))
  (mgr : BoltManager) : run BoltManager :=
  match l with
  | [] => Returns mgr
  | None :: rest => enumerate_devices rest mgr
  | Some udevice :: rest =>
      match Sysfs.udev_sysattrs udevice "unique_id" with
      | inr _ => Undefined
      | inl uid =>
          do dev <- bolt_manager_get_device_by_uid mgr uid ;
          do mgr1 <- match dev with
                     | Some dev => handle_udev_device_attached mgr dev udevice
                     | None => handle_udev_device_added mgr udevice
                     end ;
          enumerate_devices rest mgr1
      end
  end.

Definition bolt_manager_initialize (env : udev_env) (store : BoltStore)
  (mgr : BoltManager) : run (gresult * BoltManager) :=
  if negb (udev_created env) then
    Returns (FALSE (InBoltError BOLT_ERROR_UDEV), mgr)
  else
    match setup_monitor (kernel_monitor env) with
    | FALSE e => Returns (FALSE e, mgr)
    | TRUE =>
        match setup_monitor (udev_monitor env) with
        | FALSE e => Returns (FALSE e, mgr)
        | TRUE =>
            match bolt_store_list_uids store with
            | inr e => Returns (FALSE e, mgr)
            | inl ids =>
                let mgr1 := load_devices store ids mgr in
                do mgr2 <- enumerate_devices (enumerated env) mgr1 ;
                Returns (TRUE, mgr2)
            end
        end
    end.

End Handlers.

(** The records of the store that load, and the uids that do not, in the
    order of the listing. *)
Fixpoint loaded_records (store : BoltStore) (ids : list string) : list BoltDevice :=
  match ids with
  | [] => []
  | uid :: rest =>
      match bolt_store_get_device store uid with
      | inl d => d :: loaded_records store rest
      | inr _ => loaded_records store rest
      end
  end.

Fixpoint failed_uids (store : BoltStore) (ids : list string) : list string :=
  match ids with
  | [] => []
  | uid :: rest =>
      match bolt_store_get_device store uid with
      | inl _ => failed_uids store rest
      | inr _ => uid :: failed_uids store rest
      end
  end.

(** [bolt_manager_init]: an empty table over an empty heap. *)
Definition bolt_manager_init : BoltManager :=
  {| objects := ∅; next_object := O; devices := []; bus := false;
     idle := []; signals := []; log := [] |}.

(** A status reading to run the definitions on examples: Connected when
    [authorized] reads 0, AuthConnectedSecure when it reads 2, AuthConnected
    for any other value. *)
Definition sample_status_from_udev (udev : Sysfs.udev_device) : BoltStatus :=
  match Sysfs.udev_sysattrs udev "authorized" with
  | inl "0" => BOLT_STATUS_CONNECTED
  | inl "2" => BOLT_STATUS_AUTHORIZED_SECURE
  | inl _ => BOLT_STATUS_AUTHORIZED
  | inr _ => BOLT_STATUS_CONNECTED
  end.

(** An export that names the object after the uid. *)
Definition sample_export_path (d : BoltDevice) : option string :=
  Some ("/org/freedesktop/Bolt/devices/" ++ dev_uid d).

(** A uevent for the node at [path]. *)
Definition uevent (action path name : string) (attrs : list (string * string))
  : Sysfs.udev_device :=
  {| Sysfs.udev_action := Some action; Sysfs.udev_syspath := Some path;
     Sysfs.udev_sysname := Some name; Sysfs.udev_subsystem := Some "thunderbolt";
     Sysfs.udev_devtype := Some "thunderbolt_device";
     Sysfs.udev_sysattrs := Sysfs.sysattrs_of attrs;
     Sysfs.udev_lstat := inr ENOENT; Sysfs.udev_parent := None |}.

(** *** A dock and a disk behind it, both stored with policy Auto *)

Definition dock_path : string := "/sys/devices/domain0/0-0/0-1".
Definition disk_path : string := "/sys/devices/domain0/0-0/0-1/0-301".

Definition stored_record (uid : string) (policy : BoltPolicy) : BoltDevice :=
  {| dev_uid := uid; dev_syspath := None;
     dev_status := BOLT_STATUS_DISCONNECTED; dev_policy := policy;
     dev_store := 1%nat; dev_object_path := None |}.

(** A store that lists three uids, the second of which does not load. *)
Definition sample_store : BoltStore :=
  {| bolt_store_list_uids := inl ["dock"; "broken"; "disk"];
     bolt_store_get_device := fun uid =>
       if String.eqb uid "dock" then inl (stored_record "dock" BOLT_POLICY_AUTO)
       else if String.eqb uid "disk" then inl (stored_record "disk" BOLT_POLICY_AUTO)
       else inr (InBoltError BOLT_ERROR_FAILED) |}.

Definition dock_event (action authorized : string) : Sysfs.udev_device :=
  uevent action dock_path "0-1" [("unique_id", "dock"); ("authorized", authorized)].

Definition disk_event (action authorized : string) : Sysfs.udev_device :=
  uevent action disk_path "0-301" [("unique_id", "disk"); ("authorized", authorized)].

Definition after (r : run BoltManager) : BoltManager :=
  match r with
  | Returns mgr => mgr
  | Undefined => bolt_manager_init
  end.

Definition sample_uevent (mgr : BoltManager) (device : Sysfs.udev_device)
  : run BoltManager :=
  handle_uevent_udev sample_status_from_udev sample_export_path mgr (Some device).

(** The table after the store is loaded: the dock is object 0, the disk
    object 1, both Disconnected. *)
Definition loaded : BoltManager :=
  load_devices sample_store ["dock"; "broken"; "disk"] bolt_manager_init.

(** ... after the dock is plugged in, not yet authorized ... *)
Definition dock_attached : BoltManager :=
  after (sample_uevent loaded (dock_event "add" "0")).

(** ... and after the disk behind it shows up. *)
Definition disk_attached : BoltManager :=
  after (sample_uevent dock_attached (disk_event "add" "0")).

(** A camera that is not in the store, plugged in before the manager is on
    the bus. *)
Definition camera_event (action : string) : Sysfs.udev_device :=
  uevent action "/sys/devices/domain0/0-0/0-3" "0-3"
    [("unique_id", "camera"); ("authorized", "0")].

Definition camera_added : BoltManager :=
  after (sample_uevent bolt_manager_init (camera_event "add")).

Definition working_monitor : monitor_env :=
  {| monitor_created := true; filter_add_match := 0;
     enable_receiving := 0; monitor_fd := 3 |}.

Definition sample_env : udev_env :=
  {| udev_created := true; kernel_monitor := working_monitor;
     udev_monitor := working_monitor;
     enumerated := [Some (dock_event "add" "0")] |}.

End Manager.

(* ===================================================================== *)
(** ** More of the sysfs reader: classification, identity, NHI *)
(* ===================================================================== *)

Module SysfsNodes.
Import Sysfs.

(** [sysfs_get_sysattr_value]: the value, or NULL with a [BOLT_ERROR_UDEV]
    error set. *)
Definition sysfs_get_sysattr_value (dev : udev_device) (attr : string)
  : string + GError :=
  match udev_sysattrs dev attr with
  | inl val => inl val
  | inr _ => inr (InBoltError BOLT_ERROR_UDEV)
  end.

Definition bolt_sysfs_device_get_unique_id (dev : udev_device) : string + GError :=
  sysfs_get_sysattr_value dev "unique_id".

(** Modelled from the spec: [bolt_streq] of [common/bolt-str.h], outside
    the files embedded here: equality of two strings, of which the first
    may be NULL. *)
Definition bolt_streq (a : option string) (b : string) : bool :=
  match a with
  | Some s => String.eqb s b
  | None => false
  end.

Definition is_domain (udev : udev_device) : bool :=
  bolt_streq (udev_subsystem udev) "thunderbolt"
  && bolt_streq (udev_devtype udev) "thunderbolt_domain".

(** [bolt_sysfs_device_is_domain (udev, error)]. *)
Definition bolt_sysfs_device_is_domain (udev : udev_device) : gresult :=
  if is_domain udev then TRUE else FALSE (InBoltError BOLT_ERROR_UDEV).

(** The loop of [bolt_sysfs_domain_for_device], entered with [host]: the
    domain found and the last node below it, or [None] for NULL. *)
Fixpoint domain_for_device_from (host : udev_device)
  : option (udev_device * udev_device) :=
  match udev_parent host with
  | None => None
  | Some parent =>
      if is_domain parent then Some (parent, host)
      else domain_for_device_from parent
  end.

(** [bolt_sysfs_domain_for_device (udev, &host)]. *)
Definition bolt_sysfs_domain_for_device (udev : udev_device)
  : option (udev_device * udev_device) :=
  domain_for_device_from udev.

(** The chain of [udev_device_get_parent] above a node, nearest first. *)
Fixpoint ancestors (udev : udev_device) : list udev_device :=
  match udev_parent udev with
  | None => []
  | Some parent => parent :: ancestors parent
  end.

(** Modelled from the spec: [BoltSecurity]: None, User, Secure, DpOnly,
    UsbOnly, Unknown. *)
Inductive BoltSecurity :=
| BOLT_SECURITY_NONE
| BOLT_SECURITY_USER
| BOLT_SECURITY_SECURE
| BOLT_SECURITY_DPONLY
| BOLT_SECURITY_USBONLY
| BOLT_SECURITY_UNKNOWN.

Section Security.

(** [bolt_enum_from_string (BOLT_TYPE_SECURITY, v, error)] is defined in
    [common/bolt-enums.c]: the level for the string ([None] for NULL), and
    the error it sets, if any. *)
Variable bolt_security_from_string : option string -> BoltSecurity * option GError.

Definition bolt_sysfs_security_for_device (udev : udev_device)
  : BoltSecurity * option GError :=
  let parent := if is_domain udev then Some udev
                else match bolt_sysfs_domain_for_device udev with
                     | Some (domain, _) => Some domain
                     | None => None
                     end in
  match parent with
  | None => (BOLT_SECURITY_UNKNOWN, Some (InBoltError BOLT_ERROR_UDEV))
  | Some parent =>
      let v := match udev_sysattrs parent "security" with
               | inl v => Some v
               | inr _ => None
               end in
      bolt_security_from_string v
  end.

End Security.

(** *** Identity *)

Record BoltIdent := {
  id_udev : udev_device;
  id_name : string;
  id_vendor : string
}.

Definition read_sysattr_name (udev : udev_device) (attr : string)
  : string + GError :=
  match udev_sysattrs udev (attr ++ "_name") with
  | inl v => inl v
  | inr _ => sysfs_get_sysattr_value udev attr
  end.

(** [bolt_sysfs_device_ident (udev, id, error)]: [*id] on success. *)
Definition bolt_sysfs_device_ident (udev : udev_device) : BoltIdent + GError :=
  match read_sysattr_name udev "vendor" with
  | inr e => inr e
  | inl vendor =>
      match read_sysattr_name udev "device" with
      | inr e => inr e
      | inl name =>
          inl {| id_udev := udev; id_name := name; id_vendor := vendor |}
      end
  end.

(** [g_ascii_tolower]. *)
Definition g_ascii_tolower (c : ascii) : ascii :=
  let n := nat_of_ascii c in
  if Nat.leb 65 n && Nat.leb n 90 then ascii_of_nat (n + 32) else c.

(** [g_ascii_strcasecmp (s1, s2)]: the difference of the first pair of
    characters that differ after lowering, the end of a string counting as
    the character 0. *)
Fixpoint g_ascii_strcasecmp (s1 s2 : string) : Z :=
  match s1, s2 with
  | String a r1, String b r2 =>
      let c1 := g_ascii_tolower a in
      let c2 := g_ascii_tolower b in
      if Ascii.eqb c1 c2 then g_ascii_strcasecmp r1 r2
      else Z.of_nat (nat_of_ascii c1) - Z.of_nat (nat_of_ascii c2)
  | String a _, "" => Z.of_nat (nat_of_ascii a)
  | "", String b _ => - Z.of_nat (nat_of_ascii b)
  | "", "" => 0
  end.

(** Modelled from the spec: the DMI attribute names of [bolt-names.h],
    outside the files embedded here: the DMI fallback reads [sys_vendor],
    [product_name] and [product_version]. *)
Definition BOLT_SYSFS_DMI_SYS_VENDOR : string := "sys_vendor".
Definition BOLT_SYSFS_DMI_PRODUCT_NAME : string := "product_name".
Definition BOLT_SYSFS_DMI_PRODUCT_VERSION : string := "product_version".

(** [bolt_sysfs_host_ident (dev, id, error)].  [dmi] is what
    [udev_device_new_from_syspath (udev, BOLT_SYSFS_DMI_ID)] gives: the
    handle of the dmi/id node, or NULL with an error number. *)
Definition bolt_sysfs_host_ident (dmi : udev_device + positive) (dev : udev_device)
  : BoltIdent + GError :=
  match bolt_sysfs_device_ident dev with
  | inl id => inl id
  | inr _ =>
      match dmi with
      | inr _ => inr (InBoltError BOLT_ERROR_UDEV)
      | inl dmi =>
          match sysfs_get_sysattr_value dmi BOLT_SYSFS_DMI_SYS_VENDOR with
          | inr e => inr e
          | inl vendor =>
              let lenovo := g_ascii_strcasecmp vendor "lenovo" =? 0 in
              let attr := if lenovo then BOLT_SYSFS_DMI_PRODUCT_VERSION
                          else BOLT_SYSFS_DMI_PRODUCT_NAME in
              let vendor := if lenovo then "Lenovo" else vendor in
              match sysfs_get_sysattr_value dmi attr with
              | inr e => inr e
              | inl name =>
                  inl {| id_udev := dmi; id_name := name; id_vendor := vendor |}
              end
          end
      end
  end.

(** The string with its upper-case ASCII letters lowered. *)
Fixpoint ascii_lower (s : string) : string :=
  match s with
  | "" => ""
  | String a rest => String (g_ascii_tolower a) (ascii_lower rest)
  end.

(** *** The IOMMU flag *)

Section Iommu.

Variable bolt_str_parse_as_int : string -> Errno (option Z).

(** The attribute name [BOLT_SYSFS_IOMMU] of [bolt-names.h]. *)
Variable BOLT_SYSFS_IOMMU : string.

(** [bolt_sysfs_read_iommu (udev, out, error)]: the outcome and [*out],
    which is written only when the function goes on to the end. *)
Definition bolt_sysfs_read_iommu (udev : udev_device)
  : Errno (gresult * option bool) :=
  do val <- sysfs_get_sysattr_value_as_int bolt_str_parse_as_int udev
              BOLT_SYSFS_IOMMU ;
  if (val <? 0) && negb (val =? - Z.pos ENOENT) then
    do e <- get_errno ;
    ret (bolt_error_for_errno e, None)
  else ret (TRUE, Some (0 <? val)).

End Iommu.

(** *** NHI PCI ids *)

(** [G_IO_ERROR_NOT_FOUND] is the code [g_io_error_from_errno] gives for
    ENOENT. *)
Definition G_IO_ERROR_NOT_FOUND : GError := InGIOError (Z.pos ENOENT).

(** [nhi_table]: the PCI id and whether the UUID survives a reboot. *)
Definition nhi_table : list (Z * bool) :=
  [ (0x157d, true);   (* WIN_RIDGE_2C_NHI *)
    (0x15bf, true);   (* ALPINE_RIDGE_LP_NHI *)
    (0x15d2, true);   (* ALPINE_RIDGE_C_4C_NHI *)
    (0x15d9, true);   (* ALPINE_RIDGE_C_2C_NHI *)
    (0x15dc, true);   (* ALPINE_RIDGE_LP_USBONLY_NHI *)
    (0x15dd, true);   (* ALPINE_RIDGE_USBONLY_NH *)
    (0x15de, true);   (* ALPINE_RIDGE_C_USBONLY_NHI *)
    (0x15e8, true);   (* TITAN_RIDGE_2C_NHI *)
    (0x15eb, true);   (* TITAN_RIDGE_4C_NHI *)
    (0x8a0d, false);  (* ICL_NHI1 *)
    (0x8a17, false);  (* ICL_NHI0 *)
    (0x9a1b, false);  (* TGL_NHI0 *)
    (0x9a1d, false)   (* TGL_NHI1 *) ].

Fixpoint nhi_scan (pci_id : Z) (table : list (Z * bool)) : option bool :=
  match table with
  | [] => None
  | (id, stable) :: rest =>
      if pci_id =? id then Some stable else nhi_scan pci_id rest
  end.

(** [bolt_nhi_uuid_is_stable (pci_id, stability, error)]: the outcome and
    [*stability]. *)
Definition bolt_nhi_uuid_is_stable (pci_id : Z) : gresult * option bool :=
  match nhi_scan pci_id nhi_table with
  | Some stable => (TRUE, Some stable)
  | None => (FALSE G_IO_ERROR_NOT_FOUND, None)
  end.

(** *** Nodes to run the definitions on *)

Definition tb_node (devtype : string) (attrs : list (string * string))
  (parent : option udev_device) : udev_device :=
  {| udev_action := None; udev_syspath := None; udev_sysname := None;
     udev_subsystem := Some "thunderbolt"; udev_devtype := Some devtype;
     udev_sysattrs := sysattrs_of attrs;
     udev_lstat := inr ENOENT; udev_parent := parent |}.

(** A PCI function, a domain on it, the host below the domain and a dock
    below the host. *)
Definition sample_nhi : udev_device :=
  {| udev_action := None; udev_syspath := None; udev_sysname := None;
     udev_subsystem := Some "pci"; udev_devtype := None;
     udev_sysattrs := sysattrs_of [("device", "0x15d2")];
     udev_lstat := inr ENOENT; udev_parent := None |}.

Definition sample_domain : udev_device :=
  tb_node "thunderbolt_domain" [("security", "secure")] (Some sample_nhi).

Definition sample_host : udev_device :=
  tb_node "thunderbolt_device" [("unique_id", "host")] (Some sample_domain).

Definition sample_dock : udev_device :=
  tb_node "thunderbolt_device"
    [("unique_id", "dock"); ("vendor_name", "ACME"); ("vendor", "0x1");
     ("device", "0x2")]
    (Some sample_host).

Definition sample_security (v : option string) : BoltSecurity * option GError :=
  match v with
  | Some "none" => (BOLT_SECURITY_NONE, None)
  | Some "user" => (BOLT_SECURITY_USER, None)
  | Some "secure" => (BOLT_SECURITY_SECURE, None)
  | Some "dponly" => (BOLT_SECURITY_DPONLY, None)
  | Some "usbonly" => (BOLT_SECURITY_USBONLY, None)
  | _ => (BOLT_SECURITY_UNKNOWN, Some (InBoltError BOLT_ERROR_FAILED))
  end.

(** The dmi/id node of a ThinkPad. *)
Definition sample_dmi : udev_device :=
  node_with [("sys_vendor", "LENOVO"); ("product_name", "20KH006KGE");
             ("product_version", "ThinkPad X1 Carbon 6th")].

End SysfsNodes.

(* ===================================================================== *)
(** ** More of the manager: the export on the bus, uids *)
(* ===================================================================== *)

Module ManagerBus.
Import Manager.

Definition set_bus (b : bool) (mgr : BoltManager) : BoltManager :=
  {| objects := objects mgr; next_object := next_object mgr;
     devices := devices mgr; bus := b; idle := idle mgr;
     signals := signals mgr; log := log mgr |}.

Section BusExport.

Variable export_path : BoltDevice -> option string.

(** The loop of [bolt_manager_export].  The export is given the caller's
    [error], so the local [err] is still NULL when an export fails and the
    warning reads [err->message]: the run has no defined continuation. *)
Fixpoint export_devices (mgr : BoltManager) (array : list nat) : run BoltManager :=
  match array with
  | [] => Returns mgr
  | dev :: rest =>
      do d <- deref mgr dev ;
      match export_path d with
      | None => Undefined
      | Some opath =>
          export_devices (set_object dev (with_object_path (Some opath) d) mgr) rest
      end
  end.

(** [bolt_manager_export (mgr, connection, error)].  [skeleton] is the
    outcome of [g_dbus_interface_skeleton_export]; once it succeeds the
    manager has a connection. *)
Definition bolt_manager_export (skeleton : gresult) (mgr : BoltManager)
  : run (gresult * BoltManager) :=
  match skeleton with
  | FALSE e => Returns (FALSE e, mgr)
  | TRUE =>
      do mgr' <- export_devices (set_bus true mgr) (devices mgr) ;
      Returns (TRUE, mgr')
  end.

End BusExport.

(** The uid of the object a pointer leads to. *)
Definition uid_at (mgr : BoltManager) (p : nat) : option string :=
  match objects mgr !! p with
  | Some d => Some (dev_uid d)
  | None => None
  end.

(** No two records of the table share a uid. *)
Definition uids_unique (mgr : BoltManager) : Prop :=
  NoDup (map (uid_at mgr) (devices mgr)).

(** [mgr'] differs from [mgr] in the idle queue and the log at most. *)
Definition same_table (mgr mgr' : BoltManager) : Prop :=
  objects mgr' = objects mgr /\ devices mgr' = devices mgr /\
  next_object mgr' = next_object mgr /\ signals mgr' = signals mgr /\
  bus mgr' = bus mgr.

(** The idle queue of [mgr'] is the one of [mgr] with devices added at the
    end, each of which meets the three conditions of
    [maybe_authorize_device] in [mgr']. *)
Definition queued_ok (mgr mgr' : BoltManager) : Prop :=
  exists new,
    idle mgr' = (idle mgr ++ new)%list /\
    forall c, c ∈ new ->
      exists d, objects mgr' !! c = Some d /\ auto_authorizable d.

(** udev and both monitors could be set up. *)
Definition setup_ok (env : udev_env) : bool :=
  udev_created env
  && match setup_monitor (kernel_monitor env) with TRUE => true | _ => false end
  && match setup_monitor (udev_monitor env) with TRUE => true | _ => false end.

(** The manager once it is on the bus, and the camera plugged in then. *)
Definition on_bus : BoltManager := set_bus true bolt_manager_init.

Definition camera_on_bus : BoltManager :=
  after (sample_uevent on_bus (camera_event "add")).

End ManagerBus.

(* ===================================================================== *)
(** ** Facts about the GLib routines *)
(* ===================================================================== *)

Module GlibFacts.
Import Glib.

Example g_strsplit_limit : g_strsplit "a,b,,c" "," 3 = ["a"; "b"; ",c"].
Proof. reflexivity. Qed.

Example g_strsplit_empty_slots : g_strsplit "," "," 1024 = [""; ""].
Proof. reflexivity. Qed.

Example g_strsplit_empty_string : g_strsplit "" "," 1024 = [].
Proof. reflexivity. Qed.

Example g_strjoinv_slots : g_strjoinv "," ["a"; ""; "b"] = "a,,b".
Proof. reflexivity. Qed.

Example g_ptr_array_remove_fast_middle :
  g_ptr_array_remove_fast 2 [1; 2; 3; 4; 5]%nat = [1; 5; 3; 4]%nat.
Proof. reflexivity. Qed.

Lemma append_cons a (s r : string) : String a s ++ r = String a (s ++ r).
Proof. reflexivity. Qed.

Lemma append_empty_l (r : string) : "" ++ r = r.
Proof. reflexivity. Qed.

Lemma append_empty_r (s : string) : s ++ "" = s.
Proof.
  induction s as [|a s IH]; [reflexivity|]. now rewrite append_cons, IH.
Qed.

Lemma split_tokens_not_nil delim n s : split_tokens delim n s <> [].
Proof.
  revert n. induction s as [|a s IH]; intros n; simpl; [discriminate|].
  destruct (Ascii.eqb a delim).
  - destruct (n <=? 0); discriminate.
  - destruct (split_tokens delim n s); discriminate.
Qed.

(** A string without the delimiter is one token. *)
Lemma split_tokens_one delim n s :
  contains_char delim s = false -> split_tokens delim n s = [s].
Proof.
  induction s as [|a s IH]; simpl; [reflexivity|].
  intros H. apply orb_false_iff in H as [Ha Hs].
  rewrite Ha, (IH Hs). reflexivity.
Qed.

(** A delimiter-free prefix stays in front of the first token. *)
Lemma split_tokens_prefix delim n s r t ts :
  contains_char delim s = false ->
  split_tokens delim n r = t :: ts ->
  split_tokens delim n (s ++ r) = (s ++ t) :: ts.
Proof.
  intros Hs Hr. induction s as [|a s IH]; [exact Hr|].
  simpl in Hs. apply orb_false_iff in Hs as [Ha Hs].
  rewrite append_cons. simpl. rewrite Ha, (IH Hs). reflexivity.
Qed.

(** Splitting a joined vector of delimiter-free strings gives the vector
    back, as long as the cuts allowed suffice. *)
Lemma split_tokens_join delim (strv : list string) :
  Forall (fun s => contains_char delim s = false) strv ->
  forall n, strv <> [] -> Z.of_nat (List.length strv) <= n + 1 ->
  split_tokens delim n (g_strjoinv (String delim "") strv) = strv.
Proof.
  induction 1 as [|s rest Hs Hrest IH]; intros n Hne Hlen; [congruence|].
  destruct rest as [|s2 rest].
  - simpl. now apply split_tokens_one.
  - change (g_strjoinv (String delim "") (s :: s2 :: rest))
      with (s ++ String delim (g_strjoinv (String delim "") (s2 :: rest))).
    rewrite (split_tokens_prefix delim n s _ "" (s2 :: rest) Hs).
    + now rewrite append_empty_r.
    + simpl split_tokens at 1. rewrite Ascii.eqb_refl.
      destruct (n <=? 0) eqn:E; [apply Z.leb_le in E; simpl in Hlen; lia|].
      rewrite IH; [reflexivity | discriminate | simpl in *; lia].
Qed.

Lemma g_strjoinv_not_empty sep (strv : list string) :
  sep <> "" -> Exists (fun s => s <> "") strv -> g_strjoinv sep strv <> "".
Proof.
  intros Hsep Hex. destruct strv as [|s [|s2 rest]].
  - inversion Hex.
  - simpl. inversion Hex as [? ? H|? ? H]; subst; [exact H | inversion H].
  - change (g_strjoinv sep (s :: s2 :: rest))
      with (s ++ sep ++ g_strjoinv sep (s2 :: rest)).
    destruct s; [|rewrite append_cons; discriminate].
    destruct sep; [congruence | rewrite append_empty_l, append_cons; discriminate].
Qed.

(** [g_strsplit] undoes [g_strjoinv] on at most [max_tokens] comma-free
    strings that are not all empty. *)
Lemma g_strsplit_join (strv : list string) (max_tokens : Z) :
  Forall (fun s => contains_char "," s = false) strv ->
  Exists (fun s => s <> "") strv ->
  1 <= max_tokens -> Z.of_nat (List.length strv) <= max_tokens ->
  g_strsplit (g_strjoinv "," strv) "," max_tokens = strv.
Proof.
  intros Hfree Hex Hmax Hlen. unfold g_strsplit.
  assert (Hne : g_strjoinv "," strv <> "")
    by (apply g_strjoinv_not_empty; [discriminate | exact Hex]).
  destruct (max_tokens <? 1) eqn:E; [apply Z.ltb_lt in E; lia|].
  destruct (g_strjoinv "," strv) eqn:J; [congruence|]. rewrite <- J.
  apply split_tokens_join; [exact Hfree | | lia].
  intros ->. inversion Hex.
Qed.

End GlibFacts.

(* ===================================================================== *)
(** ** Properties of the sysfs reader *)
(* ===================================================================== *)

Module SysfsProps.
Import Sysfs.

Section Info.

Variable parse : string -> Errno (option Z).

Lemma get_sysattr_missing udev attr code e :
  udev_sysattrs udev attr = inr code ->
  udev_device_get_sysattr_value udev attr e = (None, Z.pos code).
Proof. intros H. unfold udev_device_get_sysattr_value. now rewrite H. Qed.

Lemma get_sysattr_present udev attr v e :
  udev_sysattrs udev attr = inl v ->
  udev_device_get_sysattr_value udev attr e = (Some v, e).
Proof. intros H. unfold udev_device_get_sysattr_value. now rewrite H. Qed.

Lemma as_int_missing udev attr code e :
  udev_sysattrs udev attr = inr code ->
  sysfs_get_sysattr_value_as_int parse udev attr e = (Z.neg code, Z.pos code).
Proof.
  intros H. unfold sysfs_get_sysattr_value_as_int, bind.
  now rewrite (get_sysattr_missing _ _ _ _ H).
Qed.

Lemma as_int_parse_failure udev attr s e :
  udev_sysattrs udev attr = inl s ->
  fst (parse s e) = None ->
  sysfs_get_sysattr_value_as_int parse udev attr e
  = (- snd (parse s e), snd (parse s e)).
Proof.
  intros H Hp. unfold sysfs_get_sysattr_value_as_int, bind.
  rewrite (get_sysattr_present _ _ _ _ H).
  destruct (parse s e) as [[v|] e1]; simpl in *; [discriminate | reflexivity].
Qed.

Lemma as_int_parsed udev attr s e v :
  udev_sysattrs udev attr = inl s ->
  fst (parse s e) = Some v ->
  sysfs_get_sysattr_value_as_int parse udev attr e = (v, snd (parse s e)).
Proof.
  intros H Hp. unfold sysfs_get_sysattr_value_as_int, bind.
  rewrite (get_sysattr_present _ _ _ _ H).
  destruct (parse s e) as [[w|] e1]; simpl in *; [|discriminate].
  now injection Hp as ->.
Qed.

(** An unreadable attribute comes back as minus the error number left in
    [errno]. *)
Lemma as_int_unreadable udev attr e :
  fails_with_errno parse ->
  unreadable_as_int parse udev attr ->
  exists code, 0 < code /\
    sysfs_get_sysattr_value_as_int parse udev attr e = (- code, code).
Proof.
  intros Hparse Hun. unfold unreadable_as_int in Hun.
  destruct (udev_sysattrs udev attr) as [s|code] eqn:E.
  - exists (snd (parse s e)). split; [apply Hparse, Hun|].
    apply as_int_parse_failure; [exact E | apply Hun].
  - exists (Z.pos code). split; [lia|]. now apply as_int_missing.
Qed.

Lemma size_missing udev attr code e :
  udev_sysattrs udev attr = inr code ->
  sysfs_get_sysattr_size udev attr e = (Z.neg code, Z.pos code).
Proof.
  intros H. unfold sysfs_get_sysattr_size, bind.
  now rewrite (get_sysattr_missing _ _ _ _ H).
Qed.

Lemma get_time_unavailable udev st e :
  udev_syspath udev = None \/ (exists code, udev_lstat udev = inr code) ->
  fst (bolt_sysfs_device_get_time udev st e) = 0.
Proof.
  intros H. unfold bolt_sysfs_device_get_time.
  destruct (udev_syspath udev); [|reflexivity].
  destruct H as [H|[code H]]; [discriminate|].
  unfold bind, lstat. now rewrite H.
Qed.

(** C7, as amended.  When [authorized] cannot be read as an integer, the
    info snapshot fails, and the error it sets is in the [G_IO_ERROR]
    domain with the code made from the error number the failed read left
    in [errno]; it is not a UdevError. *)
Theorem info_for_device_unreadable_authorized udev want_full info0 e0 :
  fails_with_errno parse ->
  unreadable_as_int parse udev "authorized" ->
  exists code info,
    0 < code /\
    bolt_sysfs_info_for_device parse udev want_full info0 e0
    = (FALSE (InGIOError code), info, code) /\
    InGIOError code <> UdevError.
Proof.
  intros Hparse Hun.
  destruct (as_int_unreadable udev "authorized" e0 Hparse Hun) as (code & Hpos & Hread).
  exists code. eexists. split; [exact Hpos|]. split; [|discriminate].
  unfold bolt_sysfs_info_for_device, bind. rewrite Hread.
  assert (Hneg : (- code <? 0) = true) by (apply Z.ltb_lt; lia).
  rewrite Hneg. reflexivity.
Qed.

(** C8, as amended.  In a successful info snapshot the unknown fields are
    marked as follows: [keysize] is minus the error number when [key] is
    absent, [boot] is negative (minus the error number) when [boot] is
    unreadable, [ctim] is -1 when the snapshot is not full, and 0 when it
    is full and the time is unavailable. *)
Theorem info_for_device_unknown_fields udev want_full info0 e0 info e1 :
  fails_with_errno parse ->
  bolt_sysfs_info_for_device parse udev want_full info0 e0 = (TRUE, info, e1) ->
  (forall code, udev_sysattrs udev "key" = inr code ->
     keysize info = Z.neg code) /\
  (forall code, udev_sysattrs udev "boot" = inr code ->
     boot info = Z.neg code) /\
  (unreadable_as_int parse udev "boot" -> boot info < 0) /\
  (want_full = false -> ctim info = -1) /\
  (want_full = true ->
     udev_syspath udev = None \/ (exists code, udev_lstat udev = inr code) ->
     ctim info = 0).
Proof.
  intros Hparse H. unfold bolt_sysfs_info_for_device, bind in H.
  destruct (sysfs_get_sysattr_value_as_int parse udev "authorized" e0)
    as [auth ea] eqn:Ea.
  destruct (auth <? 0); [simpl in H; discriminate|].
  destruct (sysfs_get_sysattr_size udev "key" ea) as [ks ek] eqn:Ek.
  destruct (sysfs_get_sysattr_value_as_int parse udev "boot" ek)
    as [bt eb] eqn:Eb.
  assert (Hfields : keysize info = ks /\ boot info = bt /\
            ctim info = if want_full
                        then fst (bolt_sysfs_device_get_time udev BOLT_ST_CTIME eb)
                        else -1).
  { destruct want_full; simpl in H.
    - destruct (bolt_sysfs_device_get_time udev BOLT_ST_CTIME eb) as [ct ec].
      destruct (match udev_parent udev with
                | Some p => udev_device_get_sysattr_value p "unique_id"
                | None => ret None
                end ec) as [par ep].
      destruct (sysfs_get_sysattr_value_as_int parse udev "generation" ep)
        as [gen eg].
      destruct (bolt_sysfs_read_link_speed parse udev eg) as [ls el].
      unfold ret in H. injection H as <- <-. simpl. auto.
    - unfold ret in H. injection H as <- <-. simpl. auto. }
  destruct Hfields as (Hks & Hbt & Hct).
  repeat split.
  - intros code Hkey. rewrite (size_missing _ _ _ _ Hkey) in Ek.
    injection Ek as <- <-. exact Hks.
  - intros code Hboot. rewrite (as_int_missing _ _ _ _ Hboot) in Eb.
    injection Eb as <- <-. exact Hbt.
  - intros Hun.
    destruct (as_int_unreadable udev "boot" ek Hparse Hun) as (code & Hpos & Hread).
    rewrite Hread in Eb. injection Eb as <- <-. lia.
  - intros ->. exact Hct.
  - intros -> Hun. rewrite Hct. now apply get_time_unavailable.
Qed.

End Info.

Lemma read_boot_acl_value udev v e :
  udev_sysattrs udev "boot_acl" = inl v ->
  fst (bolt_sysfs_read_boot_acl udev e)
  = (TRUE, if bolt_strv_isempty (Some (Glib.g_strsplit v "," 1024)) then None
           else Some (Glib.g_strsplit v "," 1024)).
Proof.
  intros H. unfold bolt_sysfs_read_boot_acl, bind.
  rewrite (get_sysattr_present _ _ _ _ H). cbv beta iota zeta.
  now destruct (bolt_strv_isempty _).
Qed.

Lemma read_boot_acl_error udev code e :
  udev_sysattrs udev "boot_acl" = inr code ->
  fst (bolt_sysfs_read_boot_acl udev e)
  = if Pos.eqb code ENOENT then (TRUE, None)
    else (FALSE (InGIOError (Z.pos code)), None).
Proof.
  intros H. unfold bolt_sysfs_read_boot_acl, bind.
  rewrite (get_sysattr_missing _ _ _ _ H). unfold get_errno. cbv beta iota.
  change (Z.pos code =? Z.pos ENOENT) with (Pos.eqb code ENOENT).
  now destruct (Pos.eqb code ENOENT).
Qed.

(** A vector with a non-empty string is not empty. *)
Lemma bolt_strv_isempty_false (strv : list string) :
  Exists (fun s => s <> "") strv -> bolt_strv_isempty (Some strv) = false.
Proof. intros Hex. destruct strv; [inversion Hex | reflexivity]. Qed.

(** [g_strsplit] returns the vector without elements for the empty string
    and for no other value. *)
Lemma g_strsplit_nil_iff (v : string) :
  Glib.g_strsplit v "," 1024 = [] <-> v = "".
Proof.
  split; [|intros ->; reflexivity].
  destruct v as [|a v]; [reflexivity|]. intros H. exfalso.
  unfold Glib.g_strsplit in H. cbv beta iota zeta in H.
  revert H. apply GlibFacts.split_tokens_not_nil.
Qed.

Lemma read_boot_acl_of_value udev v e :
  udev_sysattrs udev "boot_acl" = inl v ->
  fst (bolt_sysfs_read_boot_acl udev e)
  = (TRUE, if String.eqb v "" then None else Some (Glib.g_strsplit v "," 1024)).
Proof.
  intros H. rewrite (read_boot_acl_value _ _ _ H).
  destruct (String.eqb v "") eqn:E.
  - apply String.eqb_eq in E. subst v. reflexivity.
  - apply String.eqb_neq in E.
    destruct (Glib.g_strsplit v "," 1024) eqn:Es; [|reflexivity].
    now apply g_strsplit_nil_iff in Es.
Qed.

(** C9, as amended.  For a list of comma-free strings with a non-empty
    element and at most 1024 elements, a successful boot-ACL write followed
    by a boot-ACL read of the same node yields exactly that list. *)
Theorem boot_acl_write_read fs device (acl : list string) fs' e0 :
  Forall comma_free acl ->
  Exists (fun s => s <> "") acl ->
  (List.length acl <= 1024)%nat ->
  bolt_sysfs_write_boot_acl fs device acl = (TRUE, fs') ->
  fst (bolt_sysfs_read_boot_acl (udev_device_new_from_syspath fs' device) e0)
  = (TRUE, Some acl).
Proof.
  intros Hfree Hex Hlen Hwrite.
  unfold bolt_sysfs_write_boot_acl, bolt_file_write_all in Hwrite.
  destruct (fs !! Glib.g_build_filename device "boot_acl"); [|discriminate].
  injection Hwrite as <-.
  rewrite (read_boot_acl_value _ (Glib.g_strjoinv "," acl)).
  - rewrite GlibFacts.g_strsplit_join; [|exact Hfree|exact Hex|lia|lia].
    now rewrite (bolt_strv_isempty_false acl Hex).
  - simpl. now rewrite lookup_insert_eq.
Qed.

(** C10, as amended.  The boot-ACL read succeeds with the NULL list in
    exactly two cases: when [boot_acl] does not exist (the read fails with
    ENOENT) and when the attribute exists and its value is empty.  Any
    other value is reported as the list of its comma-separated slots, also
    when every slot is empty.  The read fails exactly when the attribute
    cannot be read with an error number other than ENOENT, and the error
    is made from that number. *)
Theorem read_boot_acl_edge_cases udev e0 :
  (fst (bolt_sysfs_read_boot_acl udev e0) = (TRUE, None) <->
     udev_sysattrs udev "boot_acl" = inr ENOENT \/
     udev_sysattrs udev "boot_acl" = inl "") /\
  (forall acl, fst (bolt_sysfs_read_boot_acl udev e0) = (TRUE, Some acl) <->
     exists v, udev_sysattrs udev "boot_acl" = inl v /\ v <> "" /\
               acl = Glib.g_strsplit v "," 1024) /\
  (forall err, fst (fst (bolt_sysfs_read_boot_acl udev e0)) = FALSE err <->
     exists code, udev_sysattrs udev "boot_acl" = inr code /\
                  code <> ENOENT /\ err = InGIOError (Z.pos code)).
Proof.
  split; [|split].
  - destruct (udev_sysattrs udev "boot_acl") as [v|code] eqn:E.
    + rewrite (read_boot_acl_of_value _ _ _ E).
      destruct (String.eqb v "") eqn:Ev.
      * apply String.eqb_eq in Ev. subst v. split; [now right | reflexivity].
      * apply String.eqb_neq in Ev. split; [discriminate|].
        intros [H|H]; [discriminate | congruence].
    + rewrite (read_boot_acl_error _ _ _ E).
      destruct (Pos.eqb code ENOENT) eqn:Ec.
      * apply Pos.eqb_eq in Ec. subst code. split; [now left | reflexivity].
      * apply Pos.eqb_neq in Ec. split; [discriminate|].
        intros [H|H]; [congruence | discriminate].
  - intros acl. destruct (udev_sysattrs udev "boot_acl") as [v|code] eqn:E.
    + rewrite (read_boot_acl_of_value _ _ _ E).
      destruct (String.eqb v "") eqn:Ev.
      * apply String.eqb_eq in Ev. subst v. split; [discriminate|].
        intros (v & [= <-] & Hne & _). congruence.
      * apply String.eqb_neq in Ev. split.
        -- intros [= <-]. exists v. auto.
        -- intros (w & [= <-] & _ & ->). reflexivity.
    + rewrite (read_boot_acl_error _ _ _ E). split.
      * destruct (Pos.eqb code ENOENT); discriminate.
      * intros (v & Hv & _). discriminate.
  - intros err. destruct (udev_sysattrs udev "boot_acl") as [v|code] eqn:E.
    + rewrite (read_boot_acl_value _ _ _ E). simpl. split; [discriminate|].
      intros (code & Hc & _). discriminate.
    + rewrite (read_boot_acl_error _ _ _ E).
      destruct (Pos.eqb code ENOENT) eqn:Ec; simpl.
      * apply Pos.eqb_eq in Ec. split; [discriminate|].
        intros (c & Hc & Hne & _). congruence.
      * apply Pos.eqb_neq in Ec. split.
        -- intros [= <-]. exists code. auto.
        -- intros (c & Hc & _ & ->). congruence.
Qed.

(** *** The statements at concrete nodes *)

Lemma sample_parse_fails_with_errno : fails_with_errno sample_parse_as_int.
Proof.
  intros s e H. unfold sample_parse_as_int in *.
  destruct s as [|a s]; [reflexivity|].
  destruct (digits_value 0 (String a s)) as [v|]; [|reflexivity].
  destruct (v <=? 2147483647); [discriminate | reflexivity].
Qed.

(** A node whose [authorized] does not parse. *)
Lemma info_for_device_unreadable_authorized_witness :
  exists code info,
    0 < code /\
    bolt_sysfs_info_for_device sample_parse_as_int
      (node_with [("authorized", "yes")]) true stale_info 0
    = (FALSE (InGIOError code), info, code) /\
    InGIOError code <> UdevError.
Proof.
  apply (info_for_device_unreadable_authorized sample_parse_as_int
           (node_with [("authorized", "yes")]) true stale_info 0).
  - exact sample_parse_fails_with_errno.
  - intros e. vm_compute. reflexivity.
Defined.

(** C7 as stated fails: on a node without [authorized] the error is the
    [G_IO_ERROR] made from ENOENT, not a UdevError. *)
Lemma info_for_device_missing_authorized_is_io_error :
  unreadable_as_int sample_parse_as_int (node_with []) "authorized" /\
  (bolt_sysfs_info_for_device sample_parse_as_int (node_with []) false
     stale_info 0).1.1
  = FALSE (InGIOError 2) /\
  (bolt_sysfs_info_for_device sample_parse_as_int (node_with []) false
     stale_info 0).1.1
  <> FALSE UdevError.
Proof. repeat split. discriminate. Qed.

(** A node with [authorized] and nothing else, read in full. *)
Lemma info_for_device_unknown_fields_witness :
  let udev := node_with [("authorized", "1")] in
  exists info,
    keysize info = -2 /\ boot info = -2 /\ boot info < 0 /\ ctim info = 0.
Proof.
  intros udev.
  destruct (bolt_sysfs_info_for_device sample_parse_as_int udev true stale_info 0)
    as [[res info] e1] eqn:E.
  assert (Hres : res = TRUE) by (vm_compute in E; congruence). subst res.
  exists info.
  destruct (info_for_device_unknown_fields sample_parse_as_int udev true
              stale_info 0 info e1
              sample_parse_fails_with_errno E) as (Hk & Hb & Hb' & _ & Hc).
  split; [exact (Hk ENOENT eq_refl)|].
  split; [exact (Hb ENOENT eq_refl)|].
  split; [apply Hb'; exact I|].
  apply Hc; [reflexivity | left; reflexivity].
Defined.

(** C8 as stated fails: with [key] and [boot] absent the successful
    snapshot holds -2 (minus ENOENT) in both fields, and a full snapshot
    without a readable time holds 0, where the claim has -1. *)
Lemma info_for_device_unknown_not_minus_one :
  let udev := node_with [("authorized", "1")] in
  exists info e1,
    bolt_sysfs_info_for_device sample_parse_as_int udev true stale_info 0
    = (TRUE, info, e1) /\
    udev_sysattrs udev "key" = inr ENOENT /\ keysize info <> -1 /\
    udev_sysattrs udev "boot" = inr ENOENT /\ boot info <> -1 /\
    udev_lstat udev = inr ENOENT /\ ctim info <> -1.
Proof.
  intros udev. eexists. eexists. split; [vm_compute; reflexivity|].
  simpl. repeat split; discriminate.
Qed.

(** A domain with an empty [boot_acl] attribute, written with two UUIDs
    and an empty slot in between. *)
Lemma boot_acl_write_read_witness :
  let fs := domain0_files in
  let acl := ["884c6edd-7118-4b21-b186-b02d396ecca0"; "";
              "7ddb4977-e3a1-4aa6-b1f8-d5b3b1d75b2a"] in
  fst (bolt_sysfs_read_boot_acl
         (udev_device_new_from_syspath
            (bolt_sysfs_write_boot_acl fs domain0 acl).2 domain0) 0)
  = (TRUE, Some acl).
Proof.
  intros fs acl.
  apply (boot_acl_write_read fs domain0 acl).
  - repeat constructor.
  - constructor. discriminate.
  - simpl. lia.
  - reflexivity.
Defined.

(** C9 as stated fails: a string with a comma in it comes back as two. *)
Lemma boot_acl_comma_not_restored :
  let fs := domain0_files in
  let acl := ["a,b"] in
  exists fs',
    bolt_sysfs_write_boot_acl fs domain0 acl = (TRUE, fs') /\
    fst (bolt_sysfs_read_boot_acl (udev_device_new_from_syspath fs' domain0) 0)
    = (TRUE, Some ["a"; "b"]) /\
    strip_trailing_empty ["a"; "b"] <> strip_trailing_empty acl.
Proof.
  intros fs acl. eexists. split; [reflexivity|]. split; [reflexivity|].
  discriminate.
Qed.

(** The edge cases of the boot-ACL read at concrete nodes: no [boot_acl]
    at all, an empty one, and one with a single UUID. *)
Lemma read_boot_acl_edge_cases_witness :
  fst (bolt_sysfs_read_boot_acl (node_with []) 0) = (TRUE, None) /\
  fst (bolt_sysfs_read_boot_acl (node_with [("boot_acl", "")]) 0)
  = (TRUE, None) /\
  fst (bolt_sysfs_read_boot_acl
         (node_with [("boot_acl", "884c6edd-7118-4b21-b186-b02d396ecca0")]) 0)
  = (TRUE, Some ["884c6edd-7118-4b21-b186-b02d396ecca0"]).
Proof.
  split; [|split].
  - apply (proj1 (read_boot_acl_edge_cases (node_with []) 0)).
    left. reflexivity.
  - apply (proj1 (read_boot_acl_edge_cases (node_with [("boot_acl", "")]) 0)).
    right. reflexivity.
  - apply (proj1 (proj2 (read_boot_acl_edge_cases
                           (node_with [("boot_acl",
                                        "884c6edd-7118-4b21-b186-b02d396ecca0")])
                           0))).
    eexists. split; [reflexivity|]. split; [discriminate | reflexivity].
Defined.

(** C10 as stated fails: the sixteen empty slots of an unused ACL split
    into nothing but empty strings, and the read reports them as a list
    of sixteen empty strings, not as the NULL list. *)
Lemma read_boot_acl_empty_slots_are_a_list :
  let udev := node_with [("boot_acl", ",,,,,,,,,,,,,,,")] in
  Forall (fun s => s = "") (Glib.g_strsplit ",,,,,,,,,,,,,,," "," 1024) /\
  fst (bolt_sysfs_read_boot_acl udev 0) = (TRUE, Some (repeat "" 16)) /\
  fst (bolt_sysfs_read_boot_acl udev 0) <> (TRUE, None).
Proof.
  intros udev. split; [vm_compute; repeat constructor|].
  split; [reflexivity | discriminate].
Qed.

End SysfsProps.

(* ===================================================================== *)
(** ** Properties of the device manager *)
(* ===================================================================== *)

Module ManagerProps.
Import Glib Manager.

(** *** Strings *)

Lemma strrchr_none s c : strrchr s c = None <-> contains_char c s = false.
Proof.
  induction s as [|a s IH]; simpl; [tauto|].
  destruct (strrchr s c) as [i|] eqn:E.
  - split; [discriminate|]. intros H. apply orb_false_iff in H as [_ H].
    apply IH in H. discriminate.
  - destruct (Ascii.eqb a c); simpl; [split; discriminate|].
    split; intros _; [now apply IH | reflexivity].
Qed.

(** The last [c] of [p ++ c :: seg] is the one in the middle when [seg]
    has none. *)
Lemma strrchr_app p c seg :
  contains_char c seg = false ->
  strrchr (p ++ String c seg) c = Some (String.length p).
Proof.
  intros Hseg. induction p as [|a p IH].
  - rewrite GlibFacts.append_empty_l. simpl.
    apply strrchr_none in Hseg. rewrite Hseg, Ascii.eqb_refl. reflexivity.
  - rewrite GlibFacts.append_cons. simpl. now rewrite IH.
Qed.

Lemma skip_app n p r :
  (n <= String.length p)%nat -> skip n (p ++ r) = skip n p ++ r.
Proof.
  revert p. induction n as [|n IH]; intros p Hn; [reflexivity|].
  destruct p as [|a p]; simpl in Hn; [lia|].
  rewrite GlibFacts.append_cons. simpl. apply IH. lia.
Qed.

Lemma skip_length n p : String.length (skip n p) = (String.length p - n)%nat.
Proof.
  revert p. induction n as [|n IH]; intros p; simpl; [lia|].
  destruct p as [|a p]; simpl; [reflexivity | apply IH].
Qed.

Lemma contains_char_skip c n s :
  contains_char c s = false -> contains_char c (skip n s) = false.
Proof.
  revert s. induction n as [|n IH]; intros s H; [exact H|].
  destruct s as [|a s]; [reflexivity|]. simpl in *.
  apply orb_false_iff in H as [_ H]. now apply IH.
Qed.

(** Skipping beyond [p] and the separator lands inside [seg]. *)
Lemma skip_past n p c seg :
  (String.length p < n)%nat ->
  skip n (p ++ String c seg) = skip (n - String.length p - 1) seg.
Proof.
  revert n. induction p as [|a p IH]; intros n Hn.
  - rewrite GlibFacts.append_empty_l. destruct n; simpl in *; [lia|].
    now rewrite Nat.sub_0_r.
  - rewrite GlibFacts.append_cons. destruct n; simpl in *; [lia|].
    apply IH. lia.
Qed.

Lemma substring_prefix p r : String.substring 0 (String.length p) (p ++ r) = p.
Proof.
  induction p as [|a p IH].
  - rewrite GlibFacts.append_empty_l. destruct r; reflexivity.
  - rewrite GlibFacts.append_cons. simpl. now rewrite IH.
Qed.

(** *** Lookups *)

Lemma deref_live mgr p d : objects mgr !! p = Some d -> deref mgr p = Returns d.
Proof. intros H. unfold deref. now rewrite H. Qed.

(** The scan by syspath returns the first device at the path. *)
Lemma device_by_syspath_from_first mgr path (array : list nat) :
  Forall (fun p => is_Some (objects mgr !! p)) array ->
  exists r, device_by_syspath_from mgr path array = Returns r /\
    match r with
    | Some p =>
        exists before after,
          array = (before ++ p :: after)%list /\
          has_syspath mgr path p /\
          Forall (fun q => ~ has_syspath mgr path q) before
    | None => Forall (fun q => ~ has_syspath mgr path q) array
    end.
Proof.
  induction 1 as [|p rest [d Hd] Hrest IH]; simpl.
  - exists None. split; [reflexivity | constructor].
  - rewrite (deref_live _ _ _ Hd). simpl.
    assert (Hstep : dev_syspath d <> Some path ->
              ~ has_syspath mgr path p).
    { intros Hne (d' & Hd' & Hp). congruence. }
    destruct IH as (r & Hr & Hfirst).
    destruct (dev_syspath d) as [have|] eqn:Ehave.
    + destruct (String.eqb have path) eqn:Eeq.
      * apply String.eqb_eq in Eeq. subst have.
        exists (Some p). split; [reflexivity|].
        exists [], rest. repeat split; [|constructor].
        exists d. auto.
      * apply String.eqb_neq in Eeq.
        exists r. split; [exact Hr|].
        assert (Hp : ~ has_syspath mgr path p) by (apply Hstep; congruence).
        destruct r as [q|].
        -- destruct Hfirst as (before & after & -> & Hq & Hbefore).
           exists (p :: before), after. repeat split; auto.
        -- constructor; assumption.
    + exists r. split; [exact Hr|].
      assert (Hp : ~ has_syspath mgr path p) by (apply Hstep; discriminate).
      destruct r as [q|].
      * destruct Hfirst as (before & after & -> & Hq & Hbefore).
        exists (p :: before), after. repeat split; auto.
      * constructor; assumption.
Qed.

Lemma get_device_by_syspath_first mgr path :
  live_table mgr ->
  exists r, bolt_manager_get_device_by_syspath mgr path = Returns r /\
            first_with_syspath mgr path r.
Proof. intros H. exact (device_by_syspath_from_first mgr path _ H). Qed.

(** *** Topology *)

(** Where [bolt_manager_get_parent] cuts a syspath [parent/seg]. *)
Lemma get_parent_cut mgr dev d parent seg :
  objects mgr !! dev = Some d ->
  dev_syspath d = Some (parent ++ "/" ++ seg) ->
  contains_char "/" seg = false ->
  (4 <= String.length (parent ++ "/" ++ seg))%nat ->
  bolt_manager_get_parent mgr dev
  = if Nat.ltb (String.length parent) 6 then Returns None
    else bolt_manager_get_device_by_syspath mgr parent.
Proof.
  intros Hd Hpath Hseg Hlen. unfold bolt_manager_get_parent.
  rewrite (deref_live _ _ _ Hd). unfold bind. rewrite Hpath.
  destruct (Nat.ltb (String.length (parent ++ "/" ++ seg)) 4) eqn:E4;
    [apply Nat.ltb_lt in E4; lia|]. clear E4.
  change (parent ++ "/" ++ seg) with (parent ++ String "/" seg).
  destruct (Nat.ltb (String.length parent) 4) eqn:Eshort.
  - apply Nat.ltb_lt in Eshort.
    rewrite skip_past by exact Eshort.
    assert (Hnone : strrchr (skip (4 - String.length parent - 1) seg) "/" = None)
      by (apply strrchr_none, contains_char_skip, Hseg).
    rewrite Hnone.
    destruct (Nat.ltb (String.length parent) 6) eqn:E6; [reflexivity|].
    apply Nat.ltb_ge in E6. lia.
  - apply Nat.ltb_ge in Eshort.
    rewrite skip_app by exact Eshort.
    rewrite (strrchr_app _ _ _ Hseg), skip_length.
    destruct (Nat.ltb (String.length parent) 6) eqn:E6.
    + apply Nat.ltb_lt in E6.
      destruct (Nat.ltb (String.length parent - 4) 2) eqn:E2; [reflexivity|].
      apply Nat.ltb_ge in E2. lia.
    + apply Nat.ltb_ge in E6.
      destruct (Nat.ltb (String.length parent - 4) 2) eqn:E2;
        [apply Nat.ltb_lt in E2; lia|].
      replace (4 + (String.length parent - 4))%nat with (String.length parent)
        by lia.
      now rewrite substring_prefix.
Qed.

Lemma get_parent_no_slash mgr dev d path :
  objects mgr !! dev = Some d ->
  dev_syspath d = Some path ->
  (4 <= String.length path)%nat ->
  contains_char "/" (skip 4 path) = false ->
  bolt_manager_get_parent mgr dev = Returns None.
Proof.
  intros Hd Hpath Hlen Hfree. unfold bolt_manager_get_parent.
  rewrite (deref_live _ _ _ Hd). unfold bind. rewrite Hpath.
  destruct (Nat.ltb (String.length path) 4) eqn:E4;
    [apply Nat.ltb_lt in E4; lia|].
  apply strrchr_none in Hfree. now rewrite Hfree.
Qed.

(** C5, as amended.  For a device whose syspath has at least four
    characters, [bolt_manager_get_parent] looks for the last ['/'] past the
    first four characters (the sysfs mount prefix), cuts the syspath there,
    prefix kept, and returns the first device of the table whose syspath
    equals the cut path.  It returns none when there is no ['/'] past the
    prefix, and when the cut path has fewer than six characters. *)
Theorem bolt_manager_get_parent_spec mgr dev d path :
  live_table mgr ->
  objects mgr !! dev = Some d ->
  dev_syspath d = Some path ->
  (4 <= String.length path)%nat ->
  (contains_char "/" (skip 4 path) = false ->
     bolt_manager_get_parent mgr dev = Returns None) /\
  (forall parent seg,
     path = parent ++ "/" ++ seg -> contains_char "/" seg = false ->
     ((String.length parent < 6)%nat ->
        bolt_manager_get_parent mgr dev = Returns None) /\
     ((6 <= String.length parent)%nat ->
        exists r, bolt_manager_get_parent mgr dev = Returns r /\
                  first_with_syspath mgr parent r)).
Proof.
  intros Hlive Hd Hpath Hlen. split.
  - now apply (get_parent_no_slash mgr dev d path).
  - intros parent seg -> Hseg.
    rewrite (get_parent_cut mgr dev d parent seg Hd Hpath Hseg Hlen).
    split; intros H6.
    + apply Nat.ltb_lt in H6. now rewrite H6.
    + apply Nat.ltb_ge in H6. rewrite H6.
      now apply get_device_by_syspath_first.
Qed.

(** On a well-formed table the parent query returns. *)
Lemma get_parent_returns mgr dev d :
  live_table mgr ->
  objects mgr !! dev = Some d ->
  (forall path, dev_syspath d = Some path -> (4 <= String.length path)%nat) ->
  exists r, bolt_manager_get_parent mgr dev = Returns r.
Proof.
  intros Hlive Hd Hlen. unfold bolt_manager_get_parent.
  rewrite (deref_live _ _ _ Hd). unfold bind.
  destruct (dev_syspath d) as [path|]; [|eauto].
  specialize (Hlen path eq_refl).
  destruct (Nat.ltb (String.length path) 4) eqn:E4;
    [apply Nat.ltb_lt in E4; lia|].
  destruct (strrchr (skip 4 path) "/") as [pos|]; [|eauto].
  destruct (Nat.ltb pos 2); [eauto|].
  destruct (get_device_by_syspath_first mgr
              (String.substring 0 (4 + pos) path) Hlive) as (r & Hr & _).
  eauto.
Qed.

Lemma table_parent_returns mgr q :
  live_table mgr -> syspaths_in_bounds mgr -> q ∈ devices mgr ->
  exists r, bolt_manager_get_parent mgr q = Returns r.
Proof.
  intros Hlive Hbounds Hq.
  unfold live_table in Hlive. unfold syspaths_in_bounds in Hbounds.
  rewrite Forall_forall in Hbounds.
  destruct (proj1 (Forall_forall _ _) Hlive q Hq) as [d Hd].
  apply (get_parent_returns mgr q d); [exact Hlive | exact Hd |].
  intros path Hpath. exact (Hbounds q Hq d path Hd Hpath).
Qed.

(** The scan for children keeps exactly the devices whose parent is the
    target. *)
Lemma children_from_spec mgr target (array : list nat) :
  (forall q, q ∈ array -> exists r, bolt_manager_get_parent mgr q = Returns r) ->
  exists res, children_from mgr target array = Returns res /\
    forall c, c ∈ res <->
              c ∈ array /\ bolt_manager_get_parent mgr c = Returns (Some target).
Proof.
  induction array as [|q rest IH]; intros Hret; simpl.
  - exists []. split; [reflexivity|]. intros c. split.
    + intros Hc. inversion Hc.
    + intros [Hc _]. inversion Hc.
  - destruct (Hret q) as [r Hr]; [left|].
    destruct IH as (res & Hres & Hspec).
    { intros q' Hq'. apply Hret. now right. }
    rewrite Hr, Hres. simpl. eexists. split; [reflexivity|].
    intros c. destruct (bool_decide (r = Some target)) eqn:E.
    + apply bool_decide_eq_true in E. subst r.
      rewrite !elem_of_cons, Hspec. split.
      * intros [->|[Hc Hp]]; auto.
      * intros [[->|Hc] Hp]; auto.
    + apply bool_decide_eq_false in E.
      rewrite elem_of_cons, Hspec. split.
      * intros [Hc Hp]. auto.
      * intros [[->|Hc] Hp]; [|auto]. congruence.
Qed.

Lemma children_from_sound mgr target (array res : list nat) :
  children_from mgr target array = Returns res ->
  forall c, c ∈ res ->
    c ∈ array /\ bolt_manager_get_parent mgr c = Returns (Some target).
Proof.
  revert res. induction array as [|q rest IH]; simpl; intros res Hres c Hc.
  - injection Hres as <-. inversion Hc.
  - destruct (bolt_manager_get_parent mgr q) as [r|] eqn:Hq; [|discriminate].
    simpl in Hres.
    destruct (children_from mgr target rest) as [res'|]; [|discriminate].
    simpl in Hres. injection Hres as <-.
    destruct (bool_decide (r = Some target)) eqn:E.
    + apply bool_decide_eq_true in E. subst r.
      apply elem_of_cons in Hc as [->|Hc]; [split; [left | exact Hq]|].
      destruct (IH res' eq_refl c Hc). split; [now right | assumption].
    + destruct (IH res' eq_refl c Hc). split; [now right | assumption].
Qed.

Lemma children_from_complete mgr target (array res : list nat) :
  children_from mgr target array = Returns res ->
  forall c, c ∈ array ->
    bolt_manager_get_parent mgr c = Returns (Some target) -> c ∈ res.
Proof.
  revert res. induction array as [|q rest IH]; simpl; intros res Hres c Hc Hpar.
  - inversion Hc.
  - destruct (bolt_manager_get_parent mgr q) as [r|] eqn:Hq; [|discriminate].
    simpl in Hres.
    destruct (children_from mgr target rest) as [res'|]; [|discriminate].
    simpl in Hres. injection Hres as <-.
    apply elem_of_cons in Hc as [->|Hc].
    + rewrite Hpar in Hq. injection Hq as <-.
      rewrite bool_decide_eq_true_2 by reflexivity. left.
    + specialize (IH res' eq_refl c Hc Hpar).
      destruct (bool_decide (r = Some target)); [now right | exact IH].
Qed.

(** C6.  For devices [p] and [c] of the table, [c] is among the children
    of [p] exactly when the parent of [c] is [p]; and the children query
    returns on every table whose pointers are live and whose syspaths hold
    the prefix. *)
Theorem children_iff_parent mgr p c :
  p ∈ devices mgr -> c ∈ devices mgr ->
  (forall res, bolt_manager_get_children mgr p = Returns res ->
     (c ∈ res <-> bolt_manager_get_parent mgr c = Returns (Some p))) /\
  (live_table mgr -> syspaths_in_bounds mgr ->
     exists res, bolt_manager_get_children mgr p = Returns res).
Proof.
  intros _ Hc. split.
  - intros res Hres. split.
    + intros Hin. exact (proj2 (children_from_sound mgr p _ _ Hres c Hin)).
    + intros Hpar. exact (children_from_complete mgr p _ _ Hres c Hc Hpar).
  - intros Hlive Hbounds.
    destruct (children_from_spec mgr p (devices mgr)) as (res & Hres & _).
    { intros q Hq. now apply table_parent_returns. }
    eauto.
Qed.

(** *** Authorization *)

Lemma auto_authorizable_dec d :
  auto_authorizable d <->
  (bolt_status_is_authorized (dev_status d)
   || negb (bool_decide (dev_policy d = BOLT_POLICY_AUTO))) = false /\
  negb (Nat.ltb 0 (dev_store d)) = false.
Proof.
  unfold auto_authorizable.
  rewrite orb_false_iff, !negb_false_iff, bool_decide_eq_true, Nat.ltb_lt.
  tauto.
Qed.

Lemma maybe_authorize_device_yes mgr dev d :
  objects mgr !! dev = Some d -> auto_authorizable d ->
  maybe_authorize_device mgr dev = Returns (g_idle_add dev mgr).
Proof.
  intros Hd Hauto. unfold maybe_authorize_device.
  rewrite (deref_live _ _ _ Hd). unfold bind.
  apply auto_authorizable_dec in Hauto as [-> ->]. reflexivity.
Qed.

Lemma maybe_authorize_device_no mgr dev d :
  objects mgr !! dev = Some d -> ~ auto_authorizable d ->
  maybe_authorize_device mgr dev = Returns mgr.
Proof.
  intros Hd Hauto. unfold maybe_authorize_device.
  rewrite (deref_live _ _ _ Hd). unfold bind.
  rewrite auto_authorizable_dec in Hauto.
  destruct (bolt_status_is_authorized (dev_status d)
            || negb (bool_decide (dev_policy d = BOLT_POLICY_AUTO)));
    [reflexivity|].
  destruct (negb (Nat.ltb 0 (dev_store d))); [reflexivity|].
  exfalso. apply Hauto. auto.
Qed.

Lemma auto_authorizable_decide d : auto_authorizable d \/ ~ auto_authorizable d.
Proof.
  rewrite auto_authorizable_dec.
  destruct (bolt_status_is_authorized (dev_status d)
            || negb (bool_decide (dev_policy d = BOLT_POLICY_AUTO)));
    destruct (negb (Nat.ltb 0 (dev_store d))); intuition congruence.
Qed.

(** C3.  [maybe_authorize_device] queues an authorization for the device
    if and only if its status is not authorized, its policy is Auto and it
    is stored; in every other case it returns with the manager unchanged. *)
Theorem maybe_authorize_device_iff mgr dev d :
  objects mgr !! dev = Some d ->
  exists mgr',
    maybe_authorize_device mgr dev = Returns mgr' /\
    (idle mgr' = (idle mgr ++ [dev])%list <-> auto_authorizable d) /\
    (auto_authorizable d -> mgr' = g_idle_add dev mgr) /\
    (~ auto_authorizable d -> mgr' = mgr).
Proof.
  intros Hd. destruct (auto_authorizable_decide d) as [Hyes|Hno].
  - exists (g_idle_add dev mgr).
    split; [now apply (maybe_authorize_device_yes mgr dev d)|].
    split; [|tauto]. simpl. tauto.
  - exists mgr.
    split; [now apply (maybe_authorize_device_no mgr dev d)|].
    split; [|tauto]. split; [|tauto].
    intros Heq. apply (f_equal List.length) in Heq.
    rewrite length_app in Heq. simpl in Heq. lia.
Qed.

(** *** Removal from the table *)

Lemma last_removelast_elem (l : list nat) z q :
  last l = Some z -> q ∈ z :: removelast l <-> q ∈ l.
Proof.
  intros Hlast. apply last_Some in Hlast as [l' ->].
  rewrite removelast_last, elem_of_cons, elem_of_app, list_elem_of_singleton.
  tauto.
Qed.

Lemma remove_fast_elem data (array : list nat) q :
  q ∈ g_ptr_array_remove_fast data array -> q ∈ array.
Proof.
  induction array as [|p rest IH]; simpl; [auto|].
  destruct (Nat.eqb p data).
  - destruct (last rest) as [z|] eqn:El.
    + intros Hq. right. now apply (last_removelast_elem rest z q El).
    + intros Hq. inversion Hq.
  - rewrite !elem_of_cons. intros [->|Hq]; auto.
Qed.

Lemma remove_fast_keeps data (array : list nat) q :
  q <> data -> q ∈ array -> q ∈ g_ptr_array_remove_fast data array.
Proof.
  intros Hne. induction array as [|p rest IH]; simpl; [auto|].
  destruct (Nat.eqb p data) eqn:E.
  - apply Nat.eqb_eq in E. subst p.
    rewrite elem_of_cons. intros [->|Hq]; [congruence|].
    destruct (last rest) as [z|] eqn:El.
    + now apply (last_removelast_elem rest z q El).
    + apply last_None in El. subst rest. inversion Hq.
  - rewrite !elem_of_cons. intros [->|Hq]; auto.
Qed.

(** A device that is in the table once is gone after its removal. *)
Lemma remove_fast_gone data (array : list nat) :
  NoDup array -> data ∉ g_ptr_array_remove_fast data array.
Proof.
  induction 1 as [|p rest Hp Hrest IH]; simpl; [apply not_elem_of_nil|].
  destruct (Nat.eqb p data) eqn:E.
  - apply Nat.eqb_eq in E. subst p.
    destruct (last rest) as [z|] eqn:El; [|apply not_elem_of_nil].
    intros Hin. apply (last_removelast_elem rest z data El) in Hin.
    now apply Hp.
  - apply Nat.eqb_neq in E. apply not_elem_of_cons. auto.
Qed.

Lemma device_by_syspath_from_found mgr path (array : list nat) dev :
  device_by_syspath_from mgr path array = Returns (Some dev) ->
  dev ∈ array /\ has_syspath mgr path dev.
Proof.
  induction array as [|p rest IH]; simpl; [discriminate|].
  unfold deref. destruct (objects mgr !! p) as [d|] eqn:Hd; simpl; [|discriminate].
  assert (Hrest : device_by_syspath_from mgr path rest = Returns (Some dev) ->
            dev ∈ p :: rest /\ has_syspath mgr path dev).
  { intros H. destruct (IH H). split; [now right | assumption]. }
  destruct (dev_syspath d) as [have|] eqn:Ehave; [|exact Hrest].
  destruct (String.eqb have path) eqn:Eeq; [|exact Hrest].
  apply String.eqb_eq in Eeq. subst have.
  intros [= <-]. split; [left | exists d; auto].
Qed.

(** *** The uevent handlers *)

Section Events.

Variable bolt_status_from_udev : Sysfs.udev_device -> BoltStatus.
Variable export_path : BoltDevice -> option string.

Local Abbreviation handle_uevent :=
  (handle_uevent_udev bolt_status_from_udev export_path).

Lemma detached_spec mgr dev d :
  objects mgr !! dev = Some d ->
  handle_udev_device_detached mgr dev
  = Returns (set_object dev (bolt_device_disconnected d) mgr).
Proof.
  intros Hd. unfold handle_udev_device_detached.
  now rewrite (deref_live _ _ _ Hd).
Qed.

Lemma removed_spec mgr dev d :
  objects mgr !! dev = Some d ->
  hanlde_udev_device_removed mgr dev
  = Returns
      (let mgr1 := set_devices (g_ptr_array_remove_fast dev (devices mgr)) mgr in
       match dev_object_path d with
       | None => mgr1
       | Some opath =>
           set_object dev (bolt_device_unexport d) (emit (DeviceRemoved opath) mgr1)
       end).
Proof.
  intros Hd. unfold hanlde_udev_device_removed.
  rewrite (deref_live _ _ _ Hd). simpl. now destruct (dev_object_path d).
Qed.

(** What a remove event does once the device at its syspath is known. *)
Lemma remove_event_run mgr device syspath r :
  Sysfs.udev_action device = Some "remove" ->
  Sysfs.udev_syspath device = Some syspath ->
  bolt_manager_get_device_by_syspath mgr syspath = Returns r ->
  handle_uevent mgr (Some device)
  = if is_domain_name (Sysfs.udev_sysname device) then Returns mgr
    else match r with
         | None => Returns mgr
         | Some dev =>
             match objects mgr !! dev with
             | Some d =>
                 if Nat.ltb 0 (dev_store d)
                 then handle_udev_device_detached mgr dev
                 else hanlde_udev_device_removed mgr dev
             | None => Undefined
             end
         end.
Proof.
  intros Hact Hpath Hr. unfold handle_uevent_udev.
  rewrite Hact, Hpath. simpl.
  destruct (is_domain_name (Sysfs.udev_sysname device)); [reflexivity|].
  rewrite Hr. simpl. destruct r as [dev|]; [|reflexivity].
  unfold deref. now destruct (objects mgr !! dev).
Qed.

(** C2, as amended.  A remove event for the domain controller or for a
    syspath that matches no device changes nothing.  When the syspath
    matches a stored device, the device stays in the table, becomes
    Disconnected, keeps its object path, and no signal is emitted.  When it
    matches an unstored device, the device is removed from the table; if
    it has an object path, DeviceRemoved(path) is emitted and the device is
    unexported, and if it has none, no signal is emitted. *)
Theorem remove_event mgr device syspath :
  live_table mgr -> NoDup (devices mgr) ->
  Sysfs.udev_action device = Some "remove" ->
  Sysfs.udev_syspath device = Some syspath ->
  exists mgr' r,
    handle_uevent mgr (Some device) = Returns mgr' /\
    first_with_syspath mgr syspath r /\
    (is_domain_name (Sysfs.udev_sysname device) = true \/ r = None ->
       mgr' = mgr) /\
    (is_domain_name (Sysfs.udev_sysname device) = false ->
     forall dev, r = Some dev ->
     exists d, objects mgr !! dev = Some d /\
       ((0 < dev_store d)%nat ->
          devices mgr' = devices mgr /\ dev ∈ devices mgr' /\
          objects mgr' !! dev = Some (bolt_device_disconnected d) /\
          dev_status (bolt_device_disconnected d) = BOLT_STATUS_DISCONNECTED /\
          dev_object_path (bolt_device_disconnected d) = dev_object_path d /\
          signals mgr' = signals mgr) /\
       (dev_store d = O ->
          devices mgr' = g_ptr_array_remove_fast dev (devices mgr) /\
          (dev ∉ devices mgr') /\
          (forall q, q <> dev -> q ∈ devices mgr -> q ∈ devices mgr') /\
          (forall opath, dev_object_path d = Some opath ->
             signals mgr' = (signals mgr ++ [DeviceRemoved opath])%list /\
             objects mgr' !! dev = Some (bolt_device_unexport d) /\
             dev_object_path (bolt_device_unexport d) = None) /\
          (dev_object_path d = None ->
             signals mgr' = signals mgr /\ objects mgr' = objects mgr))).
Proof.
  intros Hlive Hnodup Hact Hpath.
  destruct (get_device_by_syspath_first mgr syspath Hlive) as (r & Hr & Hfirst).
  rewrite (remove_event_run mgr device syspath r Hact Hpath Hr).
  destruct (is_domain_name (Sysfs.udev_sysname device)) eqn:Edom.
  { exists mgr, r. repeat split; auto. discriminate. }
  destruct r as [dev|].
  2:{ exists mgr, None. repeat split; auto. discriminate. }
  destruct (device_by_syspath_from_found mgr syspath _ dev Hr) as [Hin [d [Hd Hsys]]].
  rewrite Hd.
  destruct (Nat.ltb 0 (dev_store d)) eqn:Estore.
  - apply Nat.ltb_lt in Estore. rewrite (detached_spec mgr dev d Hd).
    eexists. exists (Some dev). split; [reflexivity|]. split; [exact Hfirst|].
    split; [intros [?|?]; discriminate|].
    intros _ dev' [= <-]. exists d. split; [exact Hd|]. split.
    + intros _. simpl. rewrite lookup_insert_eq. repeat split; auto.
    + intros H0. lia.
  - apply Nat.ltb_ge in Estore. rewrite (removed_spec mgr dev d Hd).
    eexists. exists (Some dev). split; [reflexivity|]. split; [exact Hfirst|].
    split; [intros [?|?]; discriminate|].
    intros _ dev' [= <-]. exists d. split; [exact Hd|]. split; [lia|].
    intros _. destruct (dev_object_path d) as [opath|] eqn:Eo; simpl.
    + split; [reflexivity|]. split; [now apply remove_fast_gone|].
      split; [intros q Hq Hqin; now apply remove_fast_keeps|].
      split; [|discriminate].
      intros opath' [= <-]. rewrite lookup_insert_eq. auto.
    + split; [reflexivity|]. split; [now apply remove_fast_gone|].
      split; [intros q Hq Hqin; now apply remove_fast_keeps|].
      split; [discriminate | auto].
Qed.

(** *** The attached and the changed path *)

Lemma get_parent_live mgr c r :
  bolt_manager_get_parent mgr c = Returns r -> is_Some (objects mgr !! c).
Proof.
  unfold bolt_manager_get_parent, deref.
  destruct (objects mgr !! c); [eauto | discriminate].
Qed.




(** *** Startup *)

Lemma load_devices_heap store (ids : list string) : forall mgr,
  (next_object mgr <= next_object (load_devices store ids mgr))%nat /\
  forall p, (p < next_object mgr)%nat ->
    objects (load_devices store ids mgr) !! p = objects mgr !! p.
Proof.
  induction ids as [|uid rest IH]; intros mgr; simpl; [auto|].
  destruct (bolt_store_get_device store uid) as [d|e].
  - match goal with |- context [load_devices store rest ?m] =>
      destruct (IH m) as [Hnext Hkeep] end.
    simpl in *. split; [lia|].
    intros p Hp. rewrite Hkeep by lia. apply lookup_insert_ne. lia.
  - match goal with |- context [load_devices store rest ?m] =>
      destruct (IH m) as [Hnext Hkeep] end.
    simpl in *. auto.
Qed.

(** The load loop: every uid that fails to load leaves one warning and no
    record; every other uid gets a fresh object at the end of the table. *)
Lemma load_devices_spec store (ids : list string) : forall mgr,
  log (load_devices store ids mgr)
  = (log mgr ++ map (fun uid => Warning "failed to load from store" (Some uid))
                  (failed_uids store ids))%list /\
  exists new,
    devices (load_devices store ids mgr) = (devices mgr ++ new)%list /\
    Forall2 (fun p d => objects (load_devices store ids mgr) !! p = Some d)
      new (loaded_records store ids) /\
    Forall (fun p => (next_object mgr <= p)%nat) new /\
    idle (load_devices store ids mgr) = idle mgr /\
    signals (load_devices store ids mgr) = signals mgr.
Proof.
  induction ids as [|uid rest IH]; intros mgr; simpl.
  - rewrite app_nil_r. split; [reflexivity|].
    exists []. rewrite app_nil_r. repeat split; constructor.
  - destruct (bolt_store_get_device store uid) as [d|e].
    + match goal with |- context [load_devices store rest ?m] =>
        destruct (IH m) as (Hlog & new & Hdev & Hobj & Hfresh & Hidle & Hsig);
        destruct (load_devices_heap store rest m) as [_ Hkeep] end.
      simpl in *. split; [exact Hlog|].
      exists (next_object mgr :: new).
      rewrite Hdev, <- app_assoc. repeat split; auto.
      * constructor; [|exact Hobj].
        rewrite Hkeep by lia. apply lookup_insert_eq.
      * constructor; [lia|].
        eapply Forall_impl; [exact Hfresh|]. simpl. intros; lia.
    + match goal with |- context [load_devices store rest ?m] =>
        destruct (IH m) as (Hlog & new & Hdev & Hobj & Hfresh & Hidle & Hsig) end.
      simpl in *. split.
      * rewrite Hlog, <- app_assoc. reflexivity.
      * exists new. repeat split; auto.
Qed.

(** C4.  At startup a failure to list the uids of the store makes the
    initialization fail.  A record that fails to load leaves a warning and
    is skipped: the load goes on with the remaining uids, and the
    initialization does not fail on its account. *)
Theorem initialize_store_failures env store mgr :
  (forall err, bolt_store_list_uids store = inr err ->
     exists e, bolt_manager_initialize bolt_status_from_udev export_path env store mgr
               = Returns (FALSE e, mgr)) /\
  (forall ids,
     udev_created env = true ->
     setup_monitor (kernel_monitor env) = TRUE ->
     setup_monitor (udev_monitor env) = TRUE ->
     bolt_store_list_uids store = inl ids ->
     let mgr1 := load_devices store ids mgr in
     log mgr1
     = (log mgr ++ map (fun uid => Warning "failed to load from store" (Some uid))
                     (failed_uids store ids))%list /\
     (exists new,
        devices mgr1 = (devices mgr ++ new)%list /\
        Forall2 (fun p d => objects mgr1 !! p = Some d)
          new (loaded_records store ids)) /\
     bolt_manager_initialize bolt_status_from_udev export_path env store mgr
     = bind (enumerate_devices bolt_status_from_udev export_path
               (enumerated env) mgr1)
         (fun mgr2 => Returns (TRUE, mgr2)) /\
     (forall res mgr2,
        bolt_manager_initialize bolt_status_from_udev export_path env store mgr
        = Returns (res, mgr2) -> res = TRUE)).
Proof.
  split.
  - intros err Herr. unfold bolt_manager_initialize.
    destruct (negb (udev_created env)); [eauto|].
    destruct (setup_monitor (kernel_monitor env)); [|eauto].
    destruct (setup_monitor (udev_monitor env)); [|eauto].
    rewrite Herr. eauto.
  - intros ids Hudev Hk Hu Hids mgr1.
    destruct (load_devices_spec store ids mgr)
      as (Hlog & new & Hdev & Hobj & _ & _ & _).
    assert (Hrun : bolt_manager_initialize bolt_status_from_udev export_path
                     env store mgr
                   = bind (enumerate_devices bolt_status_from_udev export_path
                             (enumerated env) mgr1)
                       (fun mgr2 => Returns (TRUE, mgr2))).
    { unfold bolt_manager_initialize. rewrite Hudev, Hk, Hu, Hids. reflexivity. }
    split; [exact Hlog|]. split; [eauto|]. split; [exact Hrun|].
    intros res mgr2. rewrite Hrun.
    destruct (enumerate_devices _ _ _ _); simpl; [|discriminate].
    now intros [= <- _].
Qed.

End Events.

(** *** The table invariant *)

Lemma inv_frame mgr mgr' :
  devices mgr' = devices mgr -> objects mgr' = objects mgr ->
  next_object mgr' = next_object mgr ->
  table_inv mgr -> table_inv mgr'.
Proof.
  unfold table_inv, live_table, syspaths_in_bounds.
  intros -> -> ->. exact id.
Qed.

Lemma inv_set_object mgr p d :
  (forall path, dev_syspath d = Some path -> (4 <= String.length path)%nat) ->
  table_inv mgr -> table_inv (set_object p d mgr).
Proof.
  intros Hd (Hnodup & Hlive & Hbounds & Hnext).
  unfold table_inv, live_table, syspaths_in_bounds in *. simpl.
  split; [exact Hnodup|]. split; [|split; [|exact Hnext]].
  - eapply Forall_impl; [exact Hlive|]. simpl. intros q Hq.
    destruct (decide (p = q)) as [->|Hne].
    + rewrite lookup_insert_eq. eauto.
    + now rewrite lookup_insert_ne.
  - eapply Forall_impl; [exact Hbounds|]. simpl. intros q Hq d' path.
    destruct (decide (p = q)) as [->|Hne].
    + rewrite lookup_insert_eq. intros [= <-]. apply Hd.
    + rewrite lookup_insert_ne by exact Hne. apply Hq.
Qed.

Lemma inv_new_object mgr d :
  (forall path, dev_syspath d = Some path -> (4 <= String.length path)%nat) ->
  table_inv mgr ->
  table_inv (set_devices (devices mgr ++ [next_object mgr]) (new_object d mgr).2).
Proof.
  intros Hd (Hnodup & Hlive & Hbounds & Hnext).
  unfold table_inv, live_table, syspaths_in_bounds in *. simpl.
  assert (Hold : forall q, q ∈ devices mgr -> next_object mgr <> q).
  { intros q Hq. rewrite Forall_forall in Hnext. specialize (Hnext q Hq). lia. }
  repeat split.
  - apply NoDup_app. split; [exact Hnodup|]. split; [|apply NoDup_singleton].
    intros q Hq Hq'. apply list_elem_of_singleton in Hq'. subst q.
    now apply (Hold _ Hq).
  - apply Forall_app. split.
    + apply Forall_forall. intros q Hq.
      rewrite lookup_insert_ne by now apply Hold.
      rewrite Forall_forall in Hlive. now apply Hlive.
    + constructor; [|constructor]. rewrite lookup_insert_eq. eauto.
  - apply Forall_app. split.
    + apply Forall_forall. intros q Hq d' path.
      rewrite lookup_insert_ne by now apply Hold.
      rewrite Forall_forall in Hbounds. now apply Hbounds.
    + constructor; [|constructor]. intros d' path.
      rewrite lookup_insert_eq. intros [= <-]. apply Hd.
  - apply Forall_app. split.
    + eapply Forall_impl; [exact Hnext|]. simpl. intros; lia.
    + constructor; [lia | constructor].
Qed.

Lemma remove_fast_nodup data (array : list nat) :
  NoDup array -> NoDup (g_ptr_array_remove_fast data array).
Proof.
  induction 1 as [|p rest Hp Hrest IH]; simpl; [constructor|].
  destruct (Nat.eqb p data).
  - destruct (last rest) as [z|] eqn:El; [|constructor].
    apply last_Some in El as [l' ->]. rewrite removelast_last.
    now rewrite (Permutation_cons_append l' z).
  - apply NoDup_cons_2; [|exact IH].
    intros Hin. apply Hp. now apply (remove_fast_elem data).
Qed.

Lemma inv_remove_fast mgr dev :
  table_inv mgr ->
  table_inv (set_devices (g_ptr_array_remove_fast dev (devices mgr)) mgr).
Proof.
  intros (Hnodup & Hlive & Hbounds & Hnext).
  unfold table_inv, live_table, syspaths_in_bounds in *. simpl.
  split; [now apply remove_fast_nodup|].
  repeat split; apply Forall_forall; intros q Hq;
    apply remove_fast_elem in Hq;
    [rewrite Forall_forall in Hlive; now apply Hlive
    |rewrite Forall_forall in Hbounds; now apply Hbounds
    |rewrite Forall_forall in Hnext; now apply Hnext].
Qed.

Lemma device_by_uid_from_returns mgr uid (array : list nat) :
  Forall (fun p => is_Some (objects mgr !! p)) array ->
  exists r, device_by_uid_from mgr uid array = Returns r /\
    forall dev, r = Some dev -> dev ∈ array /\ is_Some (objects mgr !! dev).
Proof.
  induction 1 as [|p rest [d Hd] Hrest IH]; simpl.
  - exists None. split; [reflexivity | discriminate].
  - rewrite (deref_live _ _ _ Hd). simpl.
    destruct (String.eqb (dev_uid d) uid).
    + exists (Some p). split; [reflexivity|].
      intros dev [= <-]. split; [left | eauto].
    + destruct IH as (r & Hr & Hfound). exists r. split; [exact Hr|].
      intros dev Hdev. destruct (Hfound dev Hdev). split; [now right | assumption].
Qed.

Lemma get_parent_some_live mgr dev p :
  bolt_manager_get_parent mgr dev = Returns (Some p) ->
  is_Some (objects mgr !! p).
Proof.
  unfold bolt_manager_get_parent, deref.
  destruct (objects mgr !! dev) as [d|]; unfold bind; [|discriminate].
  destruct (dev_syspath d) as [path|]; [|discriminate].
  destruct (Nat.ltb (String.length path) 4); [discriminate|].
  destruct (strrchr (skip 4 path) "/") as [pos|]; [|discriminate].
  destruct (Nat.ltb pos 2); [discriminate|].
  intros Hfound. apply device_by_syspath_from_found in Hfound as [_ (pd & Hpd & _)].
  eauto.
Qed.

Lemma maybe_authorize_device_inv mgr dev :
  is_Some (objects mgr !! dev) -> table_inv mgr ->
  exists mgr', maybe_authorize_device mgr dev = Returns mgr' /\ table_inv mgr'.
Proof.
  intros [d Hd] Hinv.
  destruct (auto_authorizable_decide d) as [Hyes|Hno].
  - rewrite (maybe_authorize_device_yes mgr dev d Hd Hyes).
    eexists. split; [reflexivity|]. now apply (inv_frame mgr).
  - rewrite (maybe_authorize_device_no mgr dev d Hd Hno). eauto.
Qed.

Lemma authorize_children_inv (children : list nat) : forall mgr,
  Forall (fun c => is_Some (objects mgr !! c)) children -> table_inv mgr ->
  exists mgr', authorize_children mgr children = Returns mgr' /\ table_inv mgr'.
Proof.
  induction children as [|q rest IH]; intros mgr Hlive Hinv; simpl; [eauto|].
  inversion Hlive as [|? ? [qd Hqd] Hrest]; subst.
  destruct (auto_authorizable_decide qd) as [Hyes|Hno].
  - rewrite (maybe_authorize_device_yes mgr q qd Hqd Hyes). simpl.
    apply IH; [exact Hrest | now apply (inv_frame mgr)].
  - rewrite (maybe_authorize_device_no mgr q qd Hqd Hno). simpl.
    now apply IH.
Qed.

Section Invariant.

Variable bolt_status_from_udev : Sysfs.udev_device -> BoltStatus.
Variable export_path : BoltDevice -> option string.

Lemma attached_inv mgr dev udev :
  is_Some (objects mgr !! dev) -> event_in_bounds udev -> table_inv mgr ->
  exists mgr',
    handle_udev_device_attached bolt_status_from_udev mgr dev udev = Returns mgr' /\
    table_inv mgr'.
Proof.
  intros [d Hd] Hev Hinv. unfold handle_udev_device_attached.
  rewrite (deref_live _ _ _ Hd). simpl.
  set (d1 := bolt_device_connected bolt_status_from_udev d udev).
  set (mgr1 := set_object dev d1 mgr).
  assert (Hinv1 : table_inv mgr1) by (apply inv_set_object; [exact Hev | exact Hinv]).
  assert (Hd1 : objects mgr1 !! dev = Some d1) by apply lookup_insert_eq.
  destruct (negb (bool_decide (bolt_status_from_udev udev = BOLT_STATUS_CONNECTED)));
    [eauto|].
  destruct (get_parent_returns mgr1 dev d1) as [r Hr];
    [apply Hinv1 | exact Hd1 | exact Hev|].
  rewrite Hr. simpl. destruct r as [p|].
  - destruct (get_parent_some_live _ _ _ Hr) as [pd Hpd].
    rewrite (deref_live _ _ _ Hpd). simpl.
    destruct (negb (bolt_status_is_authorized (dev_status pd))); [eauto|].
    apply maybe_authorize_device_inv; [eauto | exact Hinv1].
  - apply maybe_authorize_device_inv; [simpl; eauto|].
    now apply (inv_frame mgr1).
Qed.

Lemma changed_inv mgr dev udev :
  is_Some (objects mgr !! dev) -> event_in_bounds udev -> table_inv mgr ->
  exists mgr',
    handle_udev_device_changed bolt_status_from_udev mgr dev udev = Returns mgr' /\
    table_inv mgr'.
Proof.
  intros [d Hd] Hev Hinv. unfold handle_udev_device_changed.
  rewrite (deref_live _ _ _ Hd). simpl.
  set (d1 := bolt_device_update_from_udev bolt_status_from_udev d udev).
  set (mgr1 := set_object dev d1 mgr).
  assert (Hinv1 : table_inv mgr1) by (apply inv_set_object; [exact Hev | exact Hinv]).
  destruct (negb (bolt_status_is_authorized (bolt_status_from_udev udev))); [eauto|].
  destruct Hinv1 as (Hnodup & Hlive & Hbounds & Hnext).
  destruct (children_from_spec mgr1 dev (devices mgr1)) as (res & Hres & Hspec).
  { intros q Hq. now apply table_parent_returns. }
  unfold bolt_manager_get_children. rewrite Hres. simpl.
  apply authorize_children_inv; [|repeat split; assumption].
  apply Forall_forall. intros c Hc. apply Hspec in Hc as [_ Hpar].
  exact (get_parent_live _ _ _ Hpar).
Qed.

Lemma added_inv mgr udev :
  event_in_bounds udev -> table_inv mgr ->
  exists mgr',
    handle_udev_device_added bolt_status_from_udev export_path mgr udev
    = Returns mgr' /\ table_inv mgr'.
Proof.
  intros Hev Hinv. unfold handle_udev_device_added, bolt_device_new_for_udev.
  destruct (Sysfs.udev_sysattrs udev "unique_id") as [uid|code].
  2:{ eexists. split; [reflexivity|]. now apply (inv_frame mgr). }
  set (d := {| dev_uid := uid; dev_syspath := Sysfs.udev_syspath udev;
               dev_status := bolt_status_from_udev udev;
               dev_policy := BOLT_POLICY_DEFAULT; dev_store := 0%nat;
               dev_object_path := None |}).
  assert (Hinv2 := inv_new_object mgr d Hev Hinv).
  simpl. destruct (negb (bus mgr)); [eauto|].
  eexists. split; [reflexivity|].
  eapply inv_frame; [| | |apply (inv_set_object _ (next_object mgr)
                                  (with_object_path (export_path d) d) Hev Hinv2)];
    destruct (export_path d); reflexivity.
Qed.

(** On a table that satisfies the invariant every uevent from a node with
    an in-bounds syspath is handled to the end, and the invariant holds
    again afterwards. *)
Lemma handle_uevent_udev_inv mgr device :
  (forall udev, device = Some udev -> event_in_bounds udev) ->
  table_inv mgr ->
  exists mgr',
    handle_uevent_udev bolt_status_from_udev export_path mgr device = Returns mgr' /\
    table_inv mgr'.
Proof.
  intros Hev Hinv. unfold handle_uevent_udev.
  destruct device as [udev|]; [|eauto]. specialize (Hev udev eq_refl).
  destruct (Sysfs.udev_action udev) as [action|]; [|eauto].
  assert (Hlive : live_table mgr) by apply Hinv.
  destruct (String.eqb action "add" || String.eqb action "change").
  - destruct (Sysfs.udev_sysattrs udev "unique_id") as [uid|code]; [|eauto].
    destruct (device_by_uid_from_returns mgr uid (devices mgr) Hlive)
      as (r & Hr & Hfound).
    unfold bolt_manager_get_device_by_uid. rewrite Hr. simpl.
    destruct r as [dev|]; [|now apply added_inv].
    destruct (Hfound dev eq_refl) as [_ [d Hd]].
    rewrite (deref_live _ _ _ Hd). simpl.
    destruct (negb (bolt_device_is_connected d));
      [apply attached_inv | apply changed_inv]; eauto.
  - destruct (String.eqb action "remove"); [|eauto].
    destruct (Sysfs.udev_syspath udev) as [syspath|].
    2:{ eexists. split; [reflexivity|]. now apply (inv_frame mgr). }
    destruct (is_domain_name (Sysfs.udev_sysname udev)); [eauto|].
    destruct (get_device_by_syspath_first mgr syspath Hlive) as (r & Hr & _).
    rewrite Hr. simpl. destruct r as [dev|]; [|eauto].
    destruct (device_by_syspath_from_found mgr syspath _ dev Hr)
      as [_ (d & Hd & _)].
    rewrite (deref_live _ _ _ Hd). simpl.
    destruct (Nat.ltb 0 (dev_store d)).
    + rewrite (detached_spec mgr dev d Hd). eexists. split; [reflexivity|].
      apply inv_set_object; [discriminate | exact Hinv].
    + rewrite (removed_spec mgr dev d Hd). eexists. split; [reflexivity|].
      simpl. assert (Hinv1 := inv_remove_fast mgr dev Hinv).
      destruct (dev_object_path d) as [opath|]; [|exact Hinv1].
      apply inv_set_object.
      * intros path Hpath. destruct Hinv as (_ & _ & Hbounds & _).
        destruct (decide (dev ∈ devices mgr)) as [Hin|Hout].
        -- unfold syspaths_in_bounds in Hbounds. rewrite Forall_forall in Hbounds.
           exact (Hbounds dev Hin d path Hd Hpath).
        -- exfalso. apply Hout.
           now destruct (device_by_syspath_from_found mgr syspath _ dev Hr).
      * now apply (inv_frame (set_devices
                     (g_ptr_array_remove_fast dev (devices mgr)) mgr)).
Qed.

Lemma bolt_manager_init_inv : table_inv bolt_manager_init.
Proof. repeat split; constructor. Qed.

Lemma load_devices_inv store (ids : list string) : forall mgr,
  (forall uid d, bolt_store_get_device store uid = inl d ->
     forall path, dev_syspath d = Some path -> (4 <= String.length path)%nat) ->
  table_inv mgr -> table_inv (load_devices store ids mgr).
Proof.
  induction ids as [|uid rest IH]; intros mgr Hstore Hinv; simpl; [exact Hinv|].
  destruct (bolt_store_get_device store uid) as [d|e] eqn:E.
  - apply IH; [exact Hstore|]. apply (inv_new_object mgr d (Hstore uid d E) Hinv).
  - apply IH; [exact Hstore|]. now apply (inv_frame mgr).
Qed.

Lemma enumerate_devices_inv (nodes : list (option Sysfs.udev_device)) :
  forall mgr mgr',
  Forall (fun node => forall udev, node = Some udev -> event_in_bounds udev) nodes ->
  table_inv mgr ->
  enumerate_devices bolt_status_from_udev export_path nodes mgr = Returns mgr' ->
  table_inv mgr'.
Proof.
  induction nodes as [|node rest IH]; intros mgr mgr' Hev Hinv; simpl.
  - now intros [= <-].
  - apply Forall_cons in Hev as [Hnode Hrest].
    destruct node as [udevice|]; [|now apply IH].
    specialize (Hnode udevice eq_refl).
    destruct (Sysfs.udev_sysattrs udevice "unique_id") as [uid|]; [|discriminate].
    assert (Hlive : live_table mgr) by apply Hinv.
    destruct (device_by_uid_from_returns mgr uid (devices mgr) Hlive)
      as (r & Hr & Hfound).
    unfold bolt_manager_get_device_by_uid. rewrite Hr. simpl.
    destruct r as [dev|].
    + destruct (attached_inv mgr dev udevice) as (mgr1 & Hrun & Hinv1);
        [apply (Hfound dev eq_refl) | exact Hnode | exact Hinv|].
      rewrite Hrun. simpl. now apply IH.
    + destruct (added_inv mgr udevice Hnode Hinv) as (mgr1 & Hrun & Hinv1).
      rewrite Hrun. simpl. now apply IH.
Qed.

(** The table that startup leaves behind satisfies the invariant. *)
Lemma bolt_manager_initialize_inv env store res mgr' :
  (forall uid d, bolt_store_get_device store uid = inl d ->
     forall path, dev_syspath d = Some path -> (4 <= String.length path)%nat) ->
  Forall (fun node => forall udev, node = Some udev -> event_in_bounds udev)
    (enumerated env) ->
  bolt_manager_initialize bolt_status_from_udev export_path env store
    bolt_manager_init = Returns (res, mgr') ->
  table_inv mgr'.
Proof.
  intros Hstore Hev. unfold bolt_manager_initialize.
  destruct (negb (udev_created env));
    [intros [= _ <-]; apply bolt_manager_init_inv|].
  destruct (setup_monitor (kernel_monitor env));
    [|intros [= _ <-]; apply bolt_manager_init_inv].
  destruct (setup_monitor (udev_monitor env));
    [|intros [= _ <-]; apply bolt_manager_init_inv].
  destruct (bolt_store_list_uids store) as [ids|e];
    [|intros [= _ <-]; apply bolt_manager_init_inv].
  destruct (enumerate_devices _ _ _ _) as [mgr2|] eqn:E; simpl; [|discriminate].
  intros [= _ <-].
  apply (enumerate_devices_inv _ _ _ Hev (load_devices_inv store ids _ Hstore
                                            bolt_manager_init_inv) E).
Qed.

End Invariant.

(** *** The statements on the dock and the disk *)

Ltac live := repeat (constructor; [eexists; reflexivity|]); constructor.
Ltac in_bounds :=
  repeat (constructor;
          [intros ? ? Hobj Hpath; vm_compute in Hobj;
           injection Hobj as <-; vm_compute in Hpath;
           first [discriminate | injection Hpath as <-; vm_compute; lia]|]);
  constructor.

(** The store is loaded: the record that does not load leaves a warning,
    the other two are in the table, Disconnected. *)
Example loaded_table :
  devices loaded = [0; 1]%nat /\
  objects loaded !! O = Some (stored_record "dock" BOLT_POLICY_AUTO) /\
  objects loaded !! 1%nat = Some (stored_record "disk" BOLT_POLICY_AUTO) /\
  log loaded = [Warning "failed to load from store" (Some "broken")].
Proof. repeat split. Qed.

(** The dock shows authorized: the disk behind it is queued after it. *)
Example dock_authorized_queues_disk :
  idle disk_attached = [O] /\
  idle (after (sample_uevent disk_attached (dock_event "change" "1")))
  = [0; 1]%nat.
Proof. split; reflexivity. Qed.

(** A syspath right below the mount point has no parent. *)
Example parent_of_top_level :
  bolt_manager_get_parent
    (set_object 0 (with_status_syspath BOLT_STATUS_CONNECTED (Some "/sys/devices")
                     (stored_record "dock" BOLT_POLICY_AUTO)) loaded) 0
  = Returns None.
Proof. reflexivity. Qed.

(** A syspath shorter than the prefix: the search starts past its end. *)
Example parent_of_short_syspath :
  bolt_manager_get_parent
    (set_object 0 (with_status_syspath BOLT_STATUS_CONNECTED (Some "/sy")
                     (stored_record "dock" BOLT_POLICY_AUTO)) loaded) 0
  = Undefined.
Proof. reflexivity. Qed.

Lemma disk_attached_live : live_table disk_attached.
Proof. live. Qed.

Lemma disk_attached_nodup : NoDup (devices disk_attached).
Proof.
  change (NoDup [0%nat; 1%nat]).
  apply NoDup_cons_2.
  - intros H. apply list_elem_of_singleton in H. discriminate.
  - apply NoDup_cons_2; [apply not_elem_of_nil | apply NoDup_nil_2].
Qed.

Lemma disk_attached_in_bounds : syspaths_in_bounds disk_attached.
Proof. in_bounds. Qed.



Lemma remove_event_witness :
  exists mgr',
    sample_uevent disk_attached (dock_event "remove" "0") = Returns mgr' /\
    devices mgr' = devices disk_attached /\
    (exists d, objects mgr' !! O = Some d /\
               dev_status d = BOLT_STATUS_DISCONNECTED) /\
    signals mgr' = signals disk_attached.
Proof.
  destruct (remove_event sample_status_from_udev sample_export_path
              disk_attached (dock_event "remove" "0") dock_path)
    as (mgr' & r & Hrun & Hfirst & _ & Hsome).
  - exact disk_attached_live.
  - exact disk_attached_nodup.
  - reflexivity.
  - reflexivity.
  - exists mgr'. split; [exact Hrun|].
    assert (Hr : r = Some O).
    { destruct r as [q|].
      - destruct Hfirst as (before & after' & Hdev & (d & Hd & Hp) & Hbefore).
        destruct before as [|b before].
        + injection Hdev as Hq _. now subst q.
        + exfalso. injection Hdev as Hb Hrest. subst b.
          apply Forall_cons in Hbefore as [Hb _]. apply Hb.
          eexists. split; reflexivity.
      - exfalso. apply Forall_cons in Hfirst as [Hb _]. apply Hb.
        eexists. split; reflexivity. }
    destruct (Hsome eq_refl O Hr) as (d & Hd & Hstored & _).
    vm_compute in Hd. injection Hd as <-.
    destruct Hstored as (Hdev & _ & Hobj & Hst & _ & Hsig); [simpl; lia|].
    split; [exact Hdev|]. split; [eauto | exact Hsig].
Defined.

(** C2 as stated fails: the camera was added while the manager had no bus
    connection, so it has no object path; when it is unplugged it leaves
    the table and no DeviceRemoved is emitted. *)
Lemma remove_unexported_emits_nothing :
  devices camera_added = [O] /\
  (exists d, objects camera_added !! O = Some d /\
             dev_store d = O /\ dev_object_path d = None /\
             dev_syspath d = Sysfs.udev_syspath (camera_event "remove")) /\
  exists mgr',
    sample_uevent camera_added (camera_event "remove") = Returns mgr' /\
    devices mgr' = [] /\
    signals mgr' = signals camera_added /\ signals mgr' = [].
Proof.
  split; [reflexivity|]. split.
  - eexists. split; [reflexivity|]. auto.
  - eexists. split; [reflexivity|]. auto.
Qed.

Lemma maybe_authorize_device_iff_witness :
  exists mgr',
    maybe_authorize_device disk_attached 1 = Returns mgr' /\
    idle mgr' = (idle disk_attached ++ [1%nat])%list.
Proof.
  destruct (maybe_authorize_device_iff disk_attached 1
              (with_status_syspath BOLT_STATUS_CONNECTED (Some disk_path)
                 (stored_record "disk" BOLT_POLICY_AUTO)) eq_refl)
    as (mgr' & Hrun & Hiff & _).
  exists mgr'. split; [exact Hrun|].
  apply Hiff. repeat split. simpl. lia.
Defined.

Lemma initialize_store_failures_witness :
  log loaded = [Warning "failed to load from store" (Some "broken")] /\
  devices loaded = [0; 1]%nat /\
  exists mgr',
    bolt_manager_initialize sample_status_from_udev sample_export_path
      sample_env sample_store bolt_manager_init = Returns (TRUE, mgr').
Proof.
  destruct (proj2 (initialize_store_failures sample_status_from_udev
                     sample_export_path sample_env sample_store
                     bolt_manager_init)
              ["dock"; "broken"; "disk"] eq_refl eq_refl eq_refl eq_refl)
    as (Hlog & _ & Hrun & _).
  split; [exact Hlog|]. split; [reflexivity|].
  rewrite Hrun. eexists. reflexivity.
Defined.

Lemma bolt_manager_get_parent_spec_witness :
  exists r,
    bolt_manager_get_parent disk_attached 1 = Returns r /\
    first_with_syspath disk_attached dock_path r.
Proof.
  apply (proj2 (bolt_manager_get_parent_spec disk_attached 1
                  (with_status_syspath BOLT_STATUS_CONNECTED (Some disk_path)
                     (stored_record "disk" BOLT_POLICY_AUTO))
                  disk_path disk_attached_live eq_refl eq_refl
                  ltac:(vm_compute; lia))
           dock_path "0-301" eq_refl eq_refl).
  vm_compute. lia.
Defined.

(** C5 as stated fails: stripping the prefix and the trailing segment
    from the syspath of the disk leaves ["/devices/domain0/0-0/0-1"], which
    is the syspath of no device; the code looks up the cut path with the
    prefix on it and returns the dock. *)
Lemma parent_lookup_keeps_prefix :
  let remainder := "/devices/domain0/0-0/0-1" in
  skip 4 disk_path = remainder ++ "/0-301" /\
  bolt_manager_get_parent disk_attached 1 = Returns (Some O) /\
  has_syspath disk_attached ("/sys" ++ remainder) 0 /\
  ~ has_syspath disk_attached remainder 0 /\
  spec_parent_of disk_attached 1 = Returns None.
Proof.
  intros remainder. split; [reflexivity|]. split; [reflexivity|].
  split; [eexists; split; reflexivity|]. split; [|reflexivity].
  intros (d & Hd & Hpath). vm_compute in Hd. injection Hd as <-.
  discriminate.
Qed.

Lemma children_iff_parent_witness :
  (forall res, bolt_manager_get_children disk_attached 0 = Returns res ->
     (1%nat ∈ res <-> bolt_manager_get_parent disk_attached 1 = Returns (Some O))) /\
  exists res, bolt_manager_get_children disk_attached 0 = Returns res.
Proof.
  destruct (children_iff_parent disk_attached 0 1) as [Hiff Hret].
  - left.
  - right. left.
  - split; [exact Hiff|].
    exact (Hret disk_attached_live disk_attached_in_bounds).
Defined.

End ManagerProps.

(* ===================================================================== *)
(** ** Properties of classification, identity and the NHI table *)
(* ===================================================================== *)

Module SysfsNodesProps.
Import Sysfs SysfsNodes.

(** *** The NHI table *)

Lemma nhi_scan_in pci_id (table : list (Z * bool)) stable :
  NoDup (map fst table) ->
  nhi_scan pci_id table = Some stable <-> In (pci_id, stable) table.
Proof.
  induction table as [|[id b] rest IH]; simpl; intros Hnd.
  - split; [discriminate | tauto].
  - apply NoDup_cons in Hnd as [Hid Hrest]. specialize (IH Hrest).
    destruct (pci_id =? id) eqn:E.
    + apply Z.eqb_eq in E. subst id. split.
      * intros [= <-]. now left.
      * intros [[= <-]|Hin]; [reflexivity|].
        exfalso. apply Hid. apply list_elem_of_In.
        apply (in_map fst) in Hin. exact Hin.
    + apply Z.eqb_neq in E. rewrite IH. split; [now right|].
      intros [[= <- _]|Hin]; [congruence | exact Hin].
Qed.

Lemma nhi_scan_none pci_id (table : list (Z * bool)) :
  nhi_scan pci_id table = None <-> ~ In pci_id (map fst table).
Proof.
  induction table as [|[id b] rest IH]; simpl; [tauto|].
  destruct (pci_id =? id) eqn:E.
  - apply Z.eqb_eq in E. split; [discriminate | intros H; exfalso; auto].
  - apply Z.eqb_neq in E. rewrite IH. split; [|tauto].
    intros H [Heq|Hin]; [congruence | auto].
Qed.

Lemma nhi_table_ids_distinct : NoDup (map fst nhi_table).
Proof.
  repeat (apply NoDup_cons_2;
          [let H := fresh in intros H; rewrite list_elem_of_In in H; simpl in H;
           repeat (destruct H as [H|H]; [discriminate|]); exact H|]).
  apply NoDup_nil_2.
Qed.

(** X1.  [bolt_nhi_uuid_is_stable] succeeds with [stable] exactly when the
    pair of the id and [stable] is an entry of the table (no id is listed
    twice, so the order of the entries does not matter), and fails with
    [G_IO_ERROR_NOT_FOUND], writing nothing, exactly when the id is not
    listed. *)
Theorem bolt_nhi_uuid_is_stable_spec pci_id :
  (forall stable,
     bolt_nhi_uuid_is_stable pci_id = (TRUE, Some stable) <->
     In (pci_id, stable) nhi_table) /\
  (bolt_nhi_uuid_is_stable pci_id = (FALSE G_IO_ERROR_NOT_FOUND, None) <->
   ~ In pci_id (map fst nhi_table)).
Proof.
  unfold bolt_nhi_uuid_is_stable. split.
  - intros stable. rewrite <- (nhi_scan_in _ _ _ nhi_table_ids_distinct).
    destruct (nhi_scan pci_id nhi_table); split; congruence.
  - rewrite <- nhi_scan_none.
    destruct (nhi_scan pci_id nhi_table); split; congruence.
Qed.

(** *** The domain above a node *)

Lemma ancestors_parent udev parent :
  udev_parent udev = Some parent -> ancestors udev = parent :: ancestors parent.
Proof. intros H. destruct udev. simpl in *. now rewrite H. Qed.

Lemma ancestors_root udev : udev_parent udev = None -> ancestors udev = [].
Proof. intros H. destruct udev. simpl in *. now rewrite H. Qed.

Lemma domain_for_device_from_step host :
  domain_for_device_from host
  = match udev_parent host with
    | None => None
    | Some parent =>
        if is_domain parent then Some (parent, host)
        else domain_for_device_from parent
    end.
Proof. destruct host. reflexivity. Qed.

Lemma domain_for_device_chain (chain : list udev_device) : forall udev,
  ancestors udev = chain ->
  match domain_for_device_from udev with
  | None => Forall (fun a => is_domain a = false) chain
  | Some (domain, host) =>
      exists below above,
        udev :: chain = (below ++ host :: domain :: above)%list /\
        is_domain domain = true /\
        udev_parent host = Some domain /\
        Forall (fun a => is_domain a = false) (tail (below ++ [host]))
  end.
Proof.
  induction chain as [|parent chain IH]; intros udev Hanc;
    rewrite domain_for_device_from_step.
  - destruct (udev_parent udev) as [p|] eqn:Hp; [|constructor].
    rewrite (ancestors_parent _ _ Hp) in Hanc. discriminate.
  - destruct (udev_parent udev) as [p|] eqn:Hp.
    2:{ rewrite (ancestors_root _ Hp) in Hanc. discriminate. }
    rewrite (ancestors_parent _ _ Hp) in Hanc. injection Hanc as -> Hanc.
    destruct (is_domain parent) eqn:Edom.
    + exists [], chain. simpl. repeat split; auto.
    + specialize (IH parent Hanc).
      destruct (domain_for_device_from parent) as [[domain host]|].
      * destruct IH as (below & above & Hchain & Hdom & Hpar & Hbelow).
        exists (udev :: below), above. rewrite Hchain. simpl.
        repeat split; auto.
        destruct below as [|b below]; simpl in *.
        -- injection Hchain as <- _. constructor; [exact Edom | constructor].
        -- injection Hchain as <- _. constructor; [exact Edom | exact Hbelow].
      * constructor; assumption.
Qed.

(** X2.  [bolt_sysfs_domain_for_device] returns the nearest domain among
    the ancestors of the node, together with the node right below that
    domain (the host); the node itself is never tested.  It returns NULL
    exactly when no ancestor is a domain. *)
Theorem bolt_sysfs_domain_for_device_nearest udev :
  match bolt_sysfs_domain_for_device udev with
  | None => Forall (fun a => is_domain a = false) (ancestors udev)
  | Some (domain, host) =>
      exists below above,
        udev :: ancestors udev = (below ++ host :: domain :: above)%list /\
        is_domain domain = true /\
        udev_parent host = Some domain /\
        Forall (fun a => is_domain a = false) (tail (below ++ [host]))
  end.
Proof. exact (domain_for_device_chain (ancestors udev) udev eq_refl). Qed.

Example domain_of_sample_dock :
  exists domain host,
    bolt_sysfs_domain_for_device sample_dock = Some (domain, host) /\
    udev_sysattrs domain "security" = inl "secure" /\
    udev_sysattrs host "unique_id" = inl "host".
Proof. eexists. eexists. split; [reflexivity|]. split; reflexivity. Qed.

Example domain_of_sample_domain :
  bolt_sysfs_domain_for_device sample_domain = None.
Proof. reflexivity. Qed.

(** *** Security *)

(** X3.  A node that is not a domain reports the security level of the
    nearest domain above it, and a node with no domain above it reports
    Unknown with a UdevError, whatever the reading of the level string. *)
Theorem bolt_sysfs_security_for_device_of_domain
  (from_string : option string -> BoltSecurity * option GError) udev :
  is_domain udev = false ->
  match bolt_sysfs_domain_for_device udev with
  | Some (domain, _) =>
      bolt_sysfs_security_for_device from_string udev
      = bolt_sysfs_security_for_device from_string domain
  | None =>
      bolt_sysfs_security_for_device from_string udev
      = (BOLT_SECURITY_UNKNOWN, Some UdevError)
  end.
Proof.
  intros Hnot.
  pose proof (domain_for_device_chain (ancestors udev) udev eq_refl) as Hnear.
  fold (bolt_sysfs_domain_for_device udev) in Hnear.
  destruct (bolt_sysfs_domain_for_device udev) as [[domain host]|] eqn:Efor.
  - destruct Hnear as (_ & _ & _ & Hdom & _).
    unfold bolt_sysfs_security_for_device. now rewrite Hnot, Efor, Hdom.
  - unfold bolt_sysfs_security_for_device. now rewrite Hnot, Efor.
Qed.

Lemma bolt_sysfs_security_for_device_of_domain_witness :
  bolt_sysfs_security_for_device sample_security sample_dock
  = bolt_sysfs_security_for_device sample_security sample_domain /\
  bolt_sysfs_security_for_device sample_security sample_dock
  = (BOLT_SECURITY_SECURE, None).
Proof.
  split; [|reflexivity].
  exact (bolt_sysfs_security_for_device_of_domain sample_security sample_dock
           eq_refl).
Defined.

(** *** Identity *)

Lemma read_sysattr_name_fails udev attr e :
  read_sysattr_name udev attr = inr e <->
  (exists c1 c2, udev_sysattrs udev (attr ++ "_name") = inr c1 /\
                 udev_sysattrs udev attr = inr c2) /\ e = UdevError.
Proof.
  unfold read_sysattr_name, sysfs_get_sysattr_value.
  destruct (udev_sysattrs udev (attr ++ "_name")) as [v|c1].
  - split; [discriminate|]. intros [(c1 & c2 & H & _) _]. discriminate.
  - destruct (udev_sysattrs udev attr) as [v|c2].
    + split; [discriminate|]. intros [(? & ? & _ & H) _]. discriminate.
    + split.
      * intros [= <-]. split; [eauto | reflexivity].
      * intros [_ ->]. reflexivity.
Qed.

Lemma read_sysattr_name_prefers udev attr v :
  udev_sysattrs udev (attr ++ "_name") = inl v ->
  read_sysattr_name udev attr = inl v.
Proof. intros H. unfold read_sysattr_name. now rewrite H. Qed.

(** X4.  [bolt_sysfs_device_ident] fails exactly when [vendor] or [device]
    is readable in neither of its two forms, and then the error is a
    UdevError; when it succeeds, the identity names the node itself, and a
    readable [vendor_name] or [device_name] wins over the plain attribute,
    whatever that holds. *)
Theorem bolt_sysfs_device_ident_spec udev :
  (forall e, bolt_sysfs_device_ident udev = inr e <->
     ((exists c1 c2, udev_sysattrs udev "vendor_name" = inr c1 /\
                     udev_sysattrs udev "vendor" = inr c2) \/
      (exists c1 c2, udev_sysattrs udev "device_name" = inr c1 /\
                     udev_sysattrs udev "device" = inr c2)) /\
     e = UdevError) /\
  (forall id, bolt_sysfs_device_ident udev = inl id ->
     (forall v, udev_sysattrs udev "vendor_name" = inl v -> id_vendor id = v) /\
     (forall v, udev_sysattrs udev "device_name" = inl v -> id_name id = v)).
Proof.
  unfold bolt_sysfs_device_ident. split.
  - intros e.
    destruct (read_sysattr_name udev "vendor") as [vendor|ev] eqn:Ev.
    + destruct (read_sysattr_name udev "device") as [name|en] eqn:En.
      * split; [discriminate|]. intros [[H|H] ->].
        -- assert (Hf : read_sysattr_name udev "vendor" = inr UdevError)
             by (apply read_sysattr_name_fails; auto).
           congruence.
        -- assert (Hf : read_sysattr_name udev "device" = inr UdevError)
             by (apply read_sysattr_name_fails; auto).
           congruence.
      * apply read_sysattr_name_fails in En as [Hn ->]. split.
        -- intros [= <-]. auto.
        -- intros [_ ->]. reflexivity.
    + apply read_sysattr_name_fails in Ev as [Hv ->]. split.
      * intros [= <-]. auto.
      * intros [_ ->]. reflexivity.
  - intros id.
    destruct (read_sysattr_name udev "vendor") as [vendor|ev] eqn:Ev;
      [|discriminate].
    destruct (read_sysattr_name udev "device") as [name|en] eqn:En;
      [|discriminate].
    intros [= <-]. simpl. split; intros v Hv.
    + rewrite (read_sysattr_name_prefers udev "vendor" v Hv) in Ev. congruence.
    + rewrite (read_sysattr_name_prefers udev "device" v Hv) in En. congruence.
Qed.

Example ident_of_sample_dock :
  exists id, bolt_sysfs_device_ident sample_dock = inl id /\
             id_vendor id = "ACME" /\ id_name id = "0x2".
Proof. eexists. split; [reflexivity|]. split; reflexivity. Qed.

Lemma nat_of_ascii_eq a b : nat_of_ascii a = nat_of_ascii b -> a = b.
Proof.
  intros H. rewrite <- (ascii_nat_embedding a), <- (ascii_nat_embedding b).
  now rewrite H.
Qed.

(** [g_ascii_strcasecmp] is 0 on two C strings exactly when they agree
    after lowering. *)
Lemma g_ascii_strcasecmp_zero (s1 : string) : forall s2,
  Glib.contains_char "000" s1 = false ->
  Glib.contains_char "000" s2 = false ->
  g_ascii_strcasecmp s1 s2 = 0 <-> ascii_lower s1 = ascii_lower s2.
Proof.
  induction s1 as [|a r1 IH]; intros [|b r2] H1 H2; simpl in *.
  - tauto.
  - apply orb_false_iff in H2 as [Hb _]. split; [|discriminate].
    intros H. exfalso. apply Ascii.eqb_neq in Hb. apply Hb.
    assert (H0 : nat_of_ascii b = 0%nat) by lia.
    exact (nat_of_ascii_eq b "000" H0).
  - apply orb_false_iff in H1 as [Ha _]. split; [|discriminate].
    intros H. exfalso. apply Ascii.eqb_neq in Ha. apply Ha.
    assert (H0 : nat_of_ascii a = 0%nat) by lia.
    exact (nat_of_ascii_eq a "000" H0).
  - apply orb_false_iff in H1 as [_ H1]. apply orb_false_iff in H2 as [_ H2].
    destruct (Ascii.eqb (g_ascii_tolower a) (g_ascii_tolower b)) eqn:E.
    + apply Ascii.eqb_eq in E. rewrite E, (IH r2 H1 H2).
      split; [intros ->; reflexivity | intros [= ->]; reflexivity].
    + apply Ascii.eqb_neq in E. split.
      * intros H. exfalso. apply E, nat_of_ascii_eq. lia.
      * intros [= Hc _]. congruence.
Qed.

(** X5.  For a host without an identity of its own, [bolt_sysfs_host_ident]
    falls back to the dmi/id node: a [sys_vendor] that reads "lenovo" in
    any letter case gives the vendor "Lenovo" and the name from
    [product_version]; any other vendor is reported as it stands, with the
    name from [product_name].  A missing attribute makes it fail with a
    UdevError. *)
Theorem bolt_sysfs_host_ident_fallback dmi dev e vendor :
  bolt_sysfs_device_ident dev = inr e ->
  udev_sysattrs dmi "sys_vendor" = inl vendor ->
  Glib.contains_char "000" vendor = false ->
  (ascii_lower vendor = "lenovo" ->
     bolt_sysfs_host_ident (inl dmi) dev
     = match udev_sysattrs dmi "product_version" with
       | inl name => inl {| id_udev := dmi; id_name := name; id_vendor := "Lenovo" |}
       | inr _ => inr UdevError
       end) /\
  (ascii_lower vendor <> "lenovo" ->
     bolt_sysfs_host_ident (inl dmi) dev
     = match udev_sysattrs dmi "product_name" with
       | inl name => inl {| id_udev := dmi; id_name := name; id_vendor := vendor |}
       | inr _ => inr UdevError
       end).
Proof.
  intros Hdev Hvendor Hc.
  assert (Hcmp : g_ascii_strcasecmp vendor "lenovo" = 0 <->
                 ascii_lower vendor = "lenovo").
  { now rewrite (g_ascii_strcasecmp_zero vendor "lenovo" Hc eq_refl). }
  unfold bolt_sysfs_host_ident, sysfs_get_sysattr_value,
    BOLT_SYSFS_DMI_SYS_VENDOR, BOLT_SYSFS_DMI_PRODUCT_VERSION,
    BOLT_SYSFS_DMI_PRODUCT_NAME.
  rewrite Hdev, Hvendor. split; intros Hl.
  - apply Hcmp in Hl. rewrite Hl. simpl.
    now destruct (udev_sysattrs dmi "product_version").
  - destruct (g_ascii_strcasecmp vendor "lenovo" =? 0) eqn:E.
    + apply Z.eqb_eq in E. tauto.
    + now destruct (udev_sysattrs dmi "product_name").
Qed.

Lemma bolt_sysfs_host_ident_fallback_witness :
  bolt_sysfs_host_ident (inl sample_dmi) sample_host
  = inl {| id_udev := sample_dmi; id_name := "ThinkPad X1 Carbon 6th";
           id_vendor := "Lenovo" |}.
Proof.
  exact (proj1 (bolt_sysfs_host_ident_fallback sample_dmi sample_host
                  UdevError "LENOVO" eq_refl eq_refl eq_refl) eq_refl).
Defined.

End SysfsNodesProps.

(* ===================================================================== *)
(** ** More properties of the sysfs reader *)
(* ===================================================================== *)

Module SysfsReaderProps.
Import Sysfs SysfsNodes.

(** *** Times *)

Lemma get_time_nonneg udev st e :
  0 <= fst (bolt_sysfs_device_get_time udev st e).
Proof.
  unfold bolt_sysfs_device_get_time, Sysfs.bind, lstat.
  destruct (udev_syspath udev) as [path|]; simpl; [|lia].
  destruct (udev_lstat udev) as [sb|code]; simpl; [|lia].
  destruct (_ <? 0) eqn:E; simpl; [lia | now apply Z.ltb_ge in E].
Qed.

(** X6.  [bolt_sysfs_device_get_time] never returns a negative time: it is
    0 when the node has no syspath or [lstat] fails, and otherwise the
    selected time of the node, with a negative time raised to 0. *)
Theorem bolt_sysfs_device_get_time_range udev st e :
  0 <= fst (bolt_sysfs_device_get_time udev st e) /\
  (forall path sb,
     udev_syspath udev = Some path -> udev_lstat udev = inl sb ->
     fst (bolt_sysfs_device_get_time udev st e)
     = Z.max 0 (match st with
                | BOLT_ST_CTIME => st_ctim sb
                | BOLT_ST_ATIME => st_atim sb
                | BOLT_ST_MTIME => st_mtim sb
                end)) /\
  (udev_syspath udev = None \/ (exists code, udev_lstat udev = inr code) ->
     fst (bolt_sysfs_device_get_time udev st e) = 0).
Proof.
  unfold bolt_sysfs_device_get_time, Sysfs.bind, lstat.
  destruct (udev_syspath udev) as [path|]; simpl.
  - destruct (udev_lstat udev) as [sb|code]; simpl.
    + set (ms := match st with
                 | BOLT_ST_CTIME => st_ctim sb
                 | BOLT_ST_ATIME => st_atim sb
                 | BOLT_ST_MTIME => st_mtim sb
                 end).
      destruct (ms <? 0) eqn:E; simpl.
      * apply Z.ltb_lt in E. split; [lia|]. split.
        -- intros path' sb' _ [= <-]. fold ms. lia.
        -- intros [H|[code H]]; discriminate.
      * apply Z.ltb_ge in E. split; [lia|]. split.
        -- intros path' sb' _ [= <-]. fold ms. lia.
        -- intros [H|[code H]]; discriminate.
    + split; [lia|]. split; [|reflexivity]. intros ? ? _ H. discriminate.
  - split; [lia|]. split; [|reflexivity]. intros ? ? H. discriminate.
Qed.

Section Reader.

Variable parse : string -> Errno (option Z).

(** *** Link speed *)

Lemma link_speed_item_range udev name e :
  0 <= fst (link_speed_item parse udev name e) /\
  (forall code, udev_sysattrs udev name = inr code ->
     fst (link_speed_item parse udev name e) = 0).
Proof.
  unfold link_speed_item, Sysfs.bind.
  destruct (sysfs_get_sysattr_value_as_int parse udev name e) as [res e1] eqn:E.
  simpl. split.
  - destruct (0 <? res) eqn:Er; [apply Z.ltb_lt in Er; lia | lia].
  - intros code Hc. rewrite (SysfsProps.as_int_missing parse _ _ _ _ Hc) in E.
    injection E as <- _. reflexivity.
Qed.

(** X7.  [bolt_sysfs_read_link_speed] never stores a negative number: each
    of the four fields is at least 0, and it is 0 when its attribute is
    absent. *)
Theorem bolt_sysfs_read_link_speed_range udev e :
  let speed := fst (bolt_sysfs_read_link_speed parse udev e) in
  (0 <= rx_lanes speed /\ 0 <= rx_speed speed /\
   0 <= tx_lanes speed /\ 0 <= tx_speed speed) /\
  (forall code, udev_sysattrs udev "rx_lanes" = inr code -> rx_lanes speed = 0) /\
  (forall code, udev_sysattrs udev "rx_speed" = inr code -> rx_speed speed = 0) /\
  (forall code, udev_sysattrs udev "tx_lanes" = inr code -> tx_lanes speed = 0) /\
  (forall code, udev_sysattrs udev "tx_speed" = inr code -> tx_speed speed = 0).
Proof.
  unfold bolt_sysfs_read_link_speed, Sysfs.bind.
  pose proof (link_speed_item_range udev "rx_lanes" e) as H1.
  destruct (link_speed_item parse udev "rx_lanes" e) as [rl e1].
  pose proof (link_speed_item_range udev "rx_speed" e1) as H2.
  destruct (link_speed_item parse udev "rx_speed" e1) as [rs e2].
  pose proof (link_speed_item_range udev "tx_lanes" e2) as H3.
  destruct (link_speed_item parse udev "tx_lanes" e2) as [tl e3].
  pose proof (link_speed_item_range udev "tx_speed" e3) as H4.
  destruct (link_speed_item parse udev "tx_speed" e3) as [ts e4].
  simpl in *. intuition.
Qed.

(** *** The info snapshot *)

(** X8.  [bolt_sysfs_info_for_device] succeeds exactly when the value read
    for [authorized] is not negative.  A successful snapshot has a
    generation of at least 0 and a ctime of at least -1, and says whether
    it is full; one that is not full carries no parent, no syspath and no
    generation, whatever the node holds, and its link speed is what the
    caller's struct held on entry: the function does not write it.  A
    failed call leaves the fields reset, and [boot] and the link speed as
    the caller's struct held them. *)
Theorem bolt_sysfs_info_for_device_shape udev want_full info0 e :
  let res := (bolt_sysfs_info_for_device parse udev want_full info0 e).1.1 in
  let info := (bolt_sysfs_info_for_device parse udev want_full info0 e).1.2 in
  (res = TRUE <-> 0 <= authorized info) /\
  (res = TRUE ->
     0 <= generation info /\ -1 <= ctim info /\ full info = want_full /\
     (want_full = false ->
        parent info = None /\ syspath info = None /\ generation info = 0 /\
        linkspeed info = linkspeed info0) /\
     (want_full = true -> syspath info = udev_syspath udev)) /\
  (res <> TRUE ->
     keysize info = -1 /\ ctim info = -1 /\ full info = false /\
     parent info = None /\ generation info = 0 /\ syspath info = None /\
     boot info = boot info0 /\ linkspeed info = linkspeed info0).
Proof.
  unfold bolt_sysfs_info_for_device, Sysfs.bind.
  destruct (sysfs_get_sysattr_value_as_int parse udev "authorized" e)
    as [auth ea].
  destruct (auth <? 0) eqn:Ea.
  - apply Z.ltb_lt in Ea. simpl. split; [|split; [discriminate|]].
    + split; [discriminate | lia].
    + intros _. repeat split.
  - apply Z.ltb_ge in Ea.
    destruct (sysfs_get_sysattr_size udev "key" ea) as [ks ek].
    destruct (sysfs_get_sysattr_value_as_int parse udev "boot" ek) as [bt eb].
    destruct want_full; simpl.
    + pose proof (get_time_nonneg udev BOLT_ST_CTIME eb) as Hct.
      destruct (bolt_sysfs_device_get_time udev BOLT_ST_CTIME eb) as [ct ec].
      destruct (match udev_parent udev with
                | Some p => udev_device_get_sysattr_value p "unique_id"
                | None => ret None
                end ec) as [par ep].
      destruct (sysfs_get_sysattr_value_as_int parse udev "generation" ep)
        as [gen eg].
      destruct (bolt_sysfs_read_link_speed parse udev eg) as [ls el].
      simpl in *. split; [tauto|]. split; [|intros H; now destruct H].
      intros _. repeat split; try discriminate; try lia.
      destruct (0 <? gen) eqn:Eg; [apply Z.ltb_lt in Eg; lia | lia].
    + split; [tauto|]. split; [|intros H; now destruct H].
      intros _. repeat split; try discriminate; lia.
Qed.

(** *** The IOMMU flag *)

Variable iommu_attr : string.

(** X9.  [bolt_sysfs_read_iommu] does not treat a missing attribute as an
    error: when the attribute does not exist (ENOENT) it succeeds and
    reports the flag off.  A value that parses reports the flag on exactly
    when it is positive, and a read that fails with any other error number
    makes the function fail without writing the flag. *)
Theorem bolt_sysfs_read_iommu_cases udev e :
  (udev_sysattrs udev iommu_attr = inr ENOENT ->
     fst (bolt_sysfs_read_iommu parse iommu_attr udev e) = (TRUE, Some false)) /\
  (forall s v, udev_sysattrs udev iommu_attr = inl s ->
     fst (parse s e) = Some v -> 0 <= v ->
     fst (bolt_sysfs_read_iommu parse iommu_attr udev e) = (TRUE, Some (0 <? v))) /\
  (forall code, udev_sysattrs udev iommu_attr = inr code -> code <> ENOENT ->
     fst (bolt_sysfs_read_iommu parse iommu_attr udev e)
     = (FALSE (InGIOError (Z.pos code)), None)).
Proof.
  unfold bolt_sysfs_read_iommu, Sysfs.bind. split; [|split].
  - intros H. rewrite (SysfsProps.as_int_missing parse _ _ _ _ H). reflexivity.
  - intros s v Hs Hv Hpos.
    rewrite (SysfsProps.as_int_parsed parse _ _ _ _ _ Hs Hv).
    destruct (v <? 0) eqn:E; [apply Z.ltb_lt in E; lia | reflexivity].
  - intros code H Hne. rewrite (SysfsProps.as_int_missing parse _ _ _ _ H).
    assert (E : (Z.neg code =? - Z.pos ENOENT) = false).
    { apply Z.eqb_neq. intros Heq. apply Hne.
      unfold ENOENT in *. injection Heq as ->. reflexivity. }
    rewrite E. reflexivity.
Qed.

End Reader.

(** A snapshot that is not full, taken into a struct that was used before:
    the link speed of the earlier snapshot is still in it. *)
Example short_snapshot_keeps_link_speed :
  let info := (bolt_sysfs_info_for_device sample_parse_as_int
                 (node_with [("authorized", "1")]) false stale_info 0).1.2 in
  linkspeed info = linkspeed stale_info /\ parent info = None /\
  keysize info = -2 /\ boot info = -2.
Proof. vm_compute. repeat split. Qed.

(** A failed snapshot leaves [boot] as the caller had it. *)
Example failed_snapshot_keeps_boot :
  let r := bolt_sysfs_info_for_device sample_parse_as_int (node_with []) true
             stale_info 0 in
  r.1.1 = FALSE (InGIOError 2) /\ boot r.1.2 = boot stale_info /\
  keysize r.1.2 = -1 /\ authorized r.1.2 = -2.
Proof. vm_compute. repeat split. Qed.

End SysfsReaderProps.

(* ===================================================================== *)
(** ** More properties of the boot ACL *)
(* ===================================================================== *)

Module BootAclProps.
Import Glib Sysfs.

Lemma split_tokens_length delim (s : string) : forall n,
  0 <= n ->
  (1 <= List.length (split_tokens delim n s))%nat /\
  Z.of_nat (List.length (split_tokens delim n s)) <= n + 1.
Proof.
  induction s as [|a s IH]; intros n Hn; simpl; [lia|].
  destruct (Ascii.eqb a delim).
  - destruct (n <=? 0) eqn:E; simpl; [lia|].
    apply Z.leb_gt in E. destruct (IH (n - 1)); lia.
  - destruct (IH n Hn) as [H1 H2].
    destruct (split_tokens delim n s); simpl in *; lia.
Qed.

Lemma g_strjoinv_cons_char sep a tok (toks : list string) :
  g_strjoinv sep (String a tok :: toks) = String a (g_strjoinv sep (tok :: toks)).
Proof. destruct toks; reflexivity. Qed.

(** Joining the tokens of a string with the delimiter gives the string
    back, however many cuts are allowed. *)
Lemma g_strjoinv_split_tokens delim (s : string) : forall n,
  g_strjoinv (String delim "") (split_tokens delim n s) = s.
Proof.
  induction s as [|a s IH]; intros n; simpl; [reflexivity|].
  destruct (Ascii.eqb a delim) eqn:E.
  - apply Ascii.eqb_eq in E. subst a.
    destruct (n <=? 0); [reflexivity|].
    specialize (IH (n - 1)).
    destruct (split_tokens delim (n - 1) s) as [|tok toks] eqn:Es.
    + exfalso. exact (GlibFacts.split_tokens_not_nil _ _ _ Es).
    + change (g_strjoinv (String delim "") ("" :: tok :: toks))
        with ("" ++ String delim "" ++ g_strjoinv (String delim "") (tok :: toks)).
      rewrite IH. reflexivity.
  - specialize (IH n).
    destruct (split_tokens delim n s) as [|tok toks] eqn:Es.
    + exfalso. exact (GlibFacts.split_tokens_not_nil _ _ _ Es).
    + rewrite g_strjoinv_cons_char, IH. reflexivity.
Qed.

Lemma g_strjoinv_strsplit (s : string) max_tokens :
  g_strjoinv "," (g_strsplit s "," max_tokens) = s.
Proof.
  unfold g_strsplit. destruct s as [|a s]; [reflexivity|].
  apply g_strjoinv_split_tokens.
Qed.

Lemma read_boot_acl_joins udev e acl :
  fst (bolt_sysfs_read_boot_acl udev e) = (TRUE, Some acl) ->
  udev_sysattrs udev "boot_acl" = inl (g_strjoinv "," acl).
Proof.
  destruct (udev_sysattrs udev "boot_acl") as [v|code] eqn:E.
  - rewrite (SysfsProps.read_boot_acl_value _ _ _ E).
    destruct (bolt_strv_isempty _); [discriminate|].
    intros [= <-]. now rewrite g_strjoinv_strsplit.
  - rewrite (SysfsProps.read_boot_acl_error _ _ _ E).
    destruct (Pos.eqb code ENOENT); discriminate.
Qed.

(** X10.  A list that the boot-ACL read returns has between 1 and 1024
    entries, and joined with commas it is the value of the attribute,
    character for character. *)
Theorem bolt_sysfs_read_boot_acl_bounds udev e acl :
  fst (bolt_sysfs_read_boot_acl udev e) = (TRUE, Some acl) ->
  (1 <= List.length acl <= 1024)%nat /\
  udev_sysattrs udev "boot_acl" = inl (g_strjoinv "," acl).
Proof.
  destruct (udev_sysattrs udev "boot_acl") as [v|code] eqn:E.
  - rewrite (SysfsProps.read_boot_acl_value _ _ _ E).
    destruct (bolt_strv_isempty (Some (g_strsplit v "," 1024))) eqn:Ei;
      [discriminate|].
    intros [= <-]. rewrite g_strjoinv_strsplit. split; [|reflexivity].
    unfold g_strsplit in *. destruct v as [|a v]; [discriminate|].
    change (if 1024 <? 1 then 2147483647 else 1024) with 1024.
    destruct (split_tokens_length "," (String a v) (1024 - 1)); lia.
  - rewrite (SysfsProps.read_boot_acl_error _ _ _ E).
    destruct (Pos.eqb code ENOENT); discriminate.
Qed.

Lemma bolt_sysfs_read_boot_acl_bounds_witness :
  (1 <= List.length ["a"; ""; "b"] <= 1024)%nat /\
  udev_sysattrs (node_with [("boot_acl", "a,,b")]) "boot_acl"
  = inl (g_strjoinv "," ["a"; ""; "b"]).
Proof.
  exact (bolt_sysfs_read_boot_acl_bounds (node_with [("boot_acl", "a,,b")]) 0
           ["a"; ""; "b"] eq_refl).
Defined.

(** X11.  Writing back the list that the boot-ACL read returned for a node
    succeeds and leaves every attribute file as it was: the value written
    is the value that was read. *)
Theorem bolt_sysfs_read_then_write_boot_acl fs device e acl :
  fst (bolt_sysfs_read_boot_acl (udev_device_new_from_syspath fs device) e)
  = (TRUE, Some acl) ->
  bolt_sysfs_write_boot_acl fs device acl = (TRUE, fs).
Proof.
  intros Hread.
  apply read_boot_acl_joins in Hread as Hval.
  simpl in Hval.
  unfold bolt_sysfs_write_boot_acl, bolt_file_write_all.
  destruct (fs !! g_build_filename device "boot_acl") as [v|] eqn:E;
    [|discriminate].
  injection Hval as ->. f_equal. now apply insert_id.
Qed.

Lemma bolt_sysfs_read_then_write_boot_acl_witness :
  let fs : gmap string string :=
    {[ g_build_filename domain0 "boot_acl" := "a,,b" ]} in
  bolt_sysfs_write_boot_acl fs domain0 ["a"; ""; "b"] = (TRUE, fs).
Proof.
  intros fs.
  exact (bolt_sysfs_read_then_write_boot_acl fs domain0 0 ["a"; ""; "b"] eq_refl).
Defined.

End BootAclProps.

(* ===================================================================== *)
(** ** More properties of the manager: topology *)
(* ===================================================================== *)

Module TopologyProps.
Import Glib Manager ManagerProps.

Lemma strrchr_bound s c i : strrchr s c = Some i -> (i < String.length s)%nat.
Proof.
  revert i. induction s as [|a s IH]; simpl; intros i; [discriminate|].
  destruct (strrchr s c) as [j|].
  - intros [= <-]. specialize (IH j eq_refl). lia.
  - destruct (Ascii.eqb a c); [intros [= <-]; lia | discriminate].
Qed.

Lemma substring_length n (s : string) :
  (n <= String.length s)%nat -> String.length (String.substring 0 n s) = n.
Proof.
  revert s. induction n as [|n IH]; intros s Hn.
  - destruct s; reflexivity.
  - destruct s as [|a s]; simpl in *; [lia|]. rewrite IH; [reflexivity | lia].
Qed.

Lemma substring_is_prefix n (s : string) :
  String.prefix (String.substring 0 n s) s = true.
Proof.
  revert s. induction n as [|n IH]; intros s.
  - destruct s; reflexivity.
  - destruct s as [|a s]; simpl; [reflexivity|].
    destruct (ascii_dec a a); [apply IH | congruence].
Qed.

Lemma get_parent_found_at_cut mgr dev p :
  bolt_manager_get_parent mgr dev = Returns (Some p) ->
  exists d path pos,
    objects mgr !! dev = Some d /\ dev_syspath d = Some path /\
    (4 + pos < String.length path)%nat /\
    has_syspath mgr (String.substring 0 (4 + pos) path) p.
Proof.
  unfold bolt_manager_get_parent, deref.
  destruct (objects mgr !! dev) as [d|] eqn:Hd; unfold bind; [|discriminate].
  destruct (dev_syspath d) as [path|] eqn:Hpath; [|discriminate].
  destruct (Nat.ltb (String.length path) 4) eqn:E4; [discriminate|].
  apply Nat.ltb_ge in E4.
  destruct (strrchr (skip 4 path) "/") as [pos|] eqn:Epos; [|discriminate].
  destruct (Nat.ltb pos 2); [discriminate|].
  intros Hfound.
  apply device_by_syspath_from_found in Hfound as [_ Hp].
  apply strrchr_bound in Epos. rewrite skip_length in Epos.
  exists d, path, pos. repeat split; [exact Hpath | lia | exact Hp].
Qed.

Lemma get_parent_not_self mgr dev :
  bolt_manager_get_parent mgr dev <> Returns (Some dev).
Proof.
  intros H.
  destruct (get_parent_found_at_cut _ _ _ H)
    as (d & path & pos & Hd & Hpath & Hlt & d' & Hd' & Hpath').
  rewrite Hd in Hd'. injection Hd' as <-.
  rewrite Hpath in Hpath'. injection Hpath' as Heq.
  assert (Hlen : String.length (String.substring 0 (4 + pos) path) = (4 + pos)%nat)
    by (apply substring_length; lia).
  rewrite <- Heq in Hlen at 1. lia.
Qed.

(** X12.  The parent that [bolt_manager_get_parent] returns sits at a
    syspath that is a proper prefix of the syspath of the device: the
    parent's path is strictly shorter, so no device is its own parent and
    a chain of parents cannot loop. *)
Theorem bolt_manager_get_parent_shorter mgr dev p :
  bolt_manager_get_parent mgr dev = Returns (Some p) ->
  exists path ppath,
    has_syspath mgr path dev /\ has_syspath mgr ppath p /\
    String.prefix ppath path = true /\
    (String.length ppath < String.length path)%nat /\
    p <> dev.
Proof.
  unfold bolt_manager_get_parent, deref.
  destruct (objects mgr !! dev) as [d|] eqn:Hd; unfold bind; [|discriminate].
  destruct (dev_syspath d) as [path|] eqn:Hpath; [|discriminate].
  destruct (Nat.ltb (String.length path) 4) eqn:E4; [discriminate|].
  apply Nat.ltb_ge in E4.
  destruct (strrchr (skip 4 path) "/") as [pos|] eqn:Epos; [|discriminate].
  destruct (Nat.ltb pos 2); [discriminate|].
  intros Hfound.
  apply device_by_syspath_from_found in Hfound as [_ Hp].
  apply strrchr_bound in Epos. rewrite skip_length in Epos.
  assert (Hlen : String.length (String.substring 0 (4 + pos) path) = (4 + pos)%nat)
    by (apply substring_length; lia).
  exists path, (String.substring 0 (4 + pos) path).
  split; [exists d; auto|]. split; [exact Hp|].
  split; [apply substring_is_prefix|]. split; [lia|].
  intros ->. destruct Hp as (d' & Hd' & Hpath').
  rewrite Hd in Hd'. injection Hd' as <-.
  rewrite Hpath in Hpath'. injection Hpath' as Heq.
  rewrite <- Heq in Hlen at 1. lia.
Qed.

Lemma bolt_manager_get_parent_shorter_witness :
  exists path ppath,
    has_syspath disk_attached path 1 /\ has_syspath disk_attached ppath 0 /\
    String.prefix ppath path = true /\
    (String.length ppath < String.length path)%nat /\
    O <> 1%nat.
Proof.
  exact (bolt_manager_get_parent_shorter disk_attached 1 0 eq_refl).
Defined.

Lemma children_from_sublist mgr target (array : list nat) : forall res,
  children_from mgr target array = Returns res -> sublist res array.
Proof.
  induction array as [|q rest IH]; simpl; intros res.
  - intros [= <-]. constructor.
  - destruct (bolt_manager_get_parent mgr q) as [r|]; [|discriminate]. simpl.
    destruct (children_from mgr target rest) as [res'|]; [|discriminate].
    simpl. intros [= <-]. specialize (IH res' eq_refl).
    destruct (bool_decide (r = Some target)).
    + now apply sublist_skip.
    + now apply sublist_cons.
Qed.

(** X13.  The children that [bolt_manager_get_children] returns are
    devices of the table, in table order; the device asked about is never
    among its own children, and on a table without repeated pointers no
    child is listed twice. *)
Theorem bolt_manager_get_children_sublist mgr target res :
  bolt_manager_get_children mgr target = Returns res ->
  sublist res (devices mgr) /\
  (target ∉ res) /\
  (NoDup (devices mgr) -> NoDup res).
Proof.
  intros Hres. pose proof (children_from_sublist _ _ _ _ Hres) as Hsub.
  split; [exact Hsub|]. split.
  - intros Hin. destruct (children_from_sound _ _ _ _ Hres target Hin) as [_ Hpar].
    exact (get_parent_not_self _ _ Hpar).
  - intros Hnd. eapply sublist_NoDup; eauto.
Qed.

Lemma bolt_manager_get_children_sublist_witness :
  sublist [1%nat] (devices disk_attached) /\
  (O ∉ [1%nat]) /\
  (NoDup (devices disk_attached) -> NoDup [1%nat]).
Proof.
  exact (bolt_manager_get_children_sublist disk_attached 0 [1%nat] eq_refl).
Defined.

End TopologyProps.

(* ===================================================================== *)
(** ** More properties of the manager: startup and the export on the bus *)
(* ===================================================================== *)

Module BusProps.
Import Glib Manager ManagerBus ManagerProps.

Section BusExport.

Variable export_path : BoltDevice -> option string.

(** The export loop over pointers that are all different: every device
    met gets its path, and nothing else changes. *)
Lemma export_devices_spec (array : list nat) : forall mgr,
  NoDup array ->
  Forall (fun p => exists d, objects mgr !! p = Some d /\
                             is_Some (export_path d)) array ->
  exists mgr',
    export_devices export_path mgr array = Returns mgr' /\
    devices mgr' = devices mgr /\ bus mgr' = bus mgr /\
    idle mgr' = idle mgr /\ signals mgr' = signals mgr /\ log mgr' = log mgr /\
    (forall p, p ∈ array ->
       exists d opath,
         objects mgr !! p = Some d /\ export_path d = Some opath /\
         objects mgr' !! p = Some (with_object_path (Some opath) d)) /\
    (forall q, q ∉ array -> objects mgr' !! q = objects mgr !! q).
Proof.
  induction array as [|p rest IH]; intros mgr Hnd Hall; simpl.
  - exists mgr. repeat split; auto. intros p Hp. inversion Hp.
  - apply NoDup_cons in Hnd as [Hp Hnd].
    apply Forall_cons in Hall as [(d & Hd & [opath Ho]) Hall].
    rewrite (deref_live _ _ _ Hd). simpl. rewrite Ho.
    set (mgr1 := set_object p (with_object_path (Some opath) d) mgr).
    destruct (IH mgr1 Hnd) as (mgr' & Hrun & Hdev & Hbus & Hidle & Hsig & Hlog
                               & Hin & Hout).
    { apply Forall_forall. intros q Hq. rewrite Forall_forall in Hall.
      destruct (Hall q Hq) as (dq & Hdq & Hoq). exists dq. split; [|exact Hoq].
      simpl. rewrite lookup_insert_ne; [exact Hdq|]. intros ->. now apply Hp. }
    exists mgr'. split; [exact Hrun|]. repeat split; auto.
    + intros q Hq. apply elem_of_cons in Hq as [->|Hq].
      * exists d, opath. repeat split; auto.
        rewrite (Hout p Hp). simpl. apply lookup_insert_eq.
      * destruct (Hin q Hq) as (dq & oq & Hdq & Hoq & Hq').
        exists dq, oq. repeat split; auto.
        simpl in Hdq. rewrite lookup_insert_ne in Hdq; [exact Hdq|].
        intros ->. now apply Hp.
    + intros q Hq. apply not_elem_of_cons in Hq as [Hne Hq].
      rewrite (Hout q Hq). simpl. now rewrite lookup_insert_ne.
Qed.

(** The loop stops for good at the first device whose export fails. *)
Lemma export_devices_failure (array : list nat) : forall mgr p d,
  NoDup array ->
  Forall (fun q => is_Some (objects mgr !! q)) array ->
  p ∈ array -> objects mgr !! p = Some d -> export_path d = None ->
  export_devices export_path mgr array = Undefined.
Proof.
  induction array as [|q rest IH]; intros mgr p d Hnd Hlive Hp Hd Ho; simpl.
  - inversion Hp.
  - apply NoDup_cons in Hnd as [Hq Hnd].
    apply Forall_cons in Hlive as [[dq Hdq] Hlive].
    rewrite (deref_live _ _ _ Hdq). simpl.
    apply elem_of_cons in Hp as [->|Hp].
    + rewrite Hd in Hdq. injection Hdq as <-. now rewrite Ho.
    + destruct (export_path dq) as [opath|]; [|reflexivity].
      apply (IH _ p d Hnd); auto.
      * eapply Forall_impl; [exact Hlive|]. simpl. intros r [dr Hr].
        destruct (decide (q = r)) as [->|Hne].
        -- rewrite lookup_insert_eq. eauto.
        -- rewrite lookup_insert_ne by exact Hne. eauto.
      * simpl. rewrite lookup_insert_ne; [exact Hd|]. intros ->. now apply Hq.
Qed.

(** X14.  [bolt_manager_export] on a table of live, distinct devices: if
    the manager object itself cannot be exported, it fails and changes
    nothing.  Otherwise, when every device of the table exports, it
    succeeds, the manager is on the bus and every device of the table has
    its object path, signals and idle queue untouched; and when the export
    of some device fails, the warning dereferences the error that was
    never set, and the call does not return. *)
Theorem bolt_manager_export_spec mgr :
  live_table mgr -> NoDup (devices mgr) ->
  (forall e, bolt_manager_export export_path (FALSE e) mgr
             = Returns (FALSE e, mgr)) /\
  ((forall p d, p ∈ devices mgr -> objects mgr !! p = Some d ->
      is_Some (export_path d)) ->
   exists mgr',
     bolt_manager_export export_path TRUE mgr = Returns (TRUE, mgr') /\
     bus mgr' = true /\ devices mgr' = devices mgr /\
     signals mgr' = signals mgr /\ idle mgr' = idle mgr /\
     forall p, p ∈ devices mgr ->
       exists d opath,
         objects mgr !! p = Some d /\ export_path d = Some opath /\
         objects mgr' !! p = Some (with_object_path (Some opath) d)) /\
  ((exists p d, p ∈ devices mgr /\ objects mgr !! p = Some d /\
                export_path d = None) ->
   bolt_manager_export export_path TRUE mgr = Undefined).
Proof.
  intros Hlive Hnd. split; [reflexivity|]. split.
  - intros Hall.
    destruct (export_devices_spec (devices mgr) (set_bus true mgr) Hnd)
      as (mgr' & Hrun & Hdev & Hbus & Hidle & Hsig & _ & Hin & _).
    { apply Forall_forall. intros p Hp. unfold live_table in Hlive.
      rewrite Forall_forall in Hlive. destruct (Hlive p Hp) as [d Hd].
      exists d. split; [exact Hd | exact (Hall p d Hp Hd)]. }
    exists mgr'. unfold bolt_manager_export. rewrite Hrun.
    repeat split; auto.
  - intros (p & d & Hp & Hd & Ho). unfold bolt_manager_export.
    now rewrite (export_devices_failure (devices mgr) (set_bus true mgr) p d).
Qed.

End BusExport.

Lemma table_inv_disk_attached : table_inv disk_attached.
Proof.
  split; [exact disk_attached_nodup|]. split; [exact disk_attached_live|].
  split; [exact disk_attached_in_bounds|].
  repeat constructor.
Qed.

Lemma bolt_manager_export_spec_witness :
  exists mgr',
    bolt_manager_export sample_export_path TRUE disk_attached
    = Returns (TRUE, mgr') /\
    bus mgr' = true /\
    (exists d, objects mgr' !! O = Some d /\
        dev_object_path d = Some "/org/freedesktop/Bolt/devices/dock").
Proof.
  destruct (bolt_manager_export_spec sample_export_path disk_attached
              disk_attached_live disk_attached_nodup)
    as (_ & Hok & _).
  destruct Hok as (mgr' & Hrun & Hbus & _ & _ & _ & Hin).
  { intros p d _ _. eexists. reflexivity. }
  exists mgr'. split; [exact Hrun|]. split; [exact Hbus|].
  destruct (Hin O) as (d & opath & Hd & Ho & Hd'); [left|].
  vm_compute in Hd. injection Hd as <-. injection Ho as <-.
  eexists. split; [exact Hd' | reflexivity].
Defined.

(** *** Startup failures *)

Section Startup.

Variable bolt_status_from_udev : Sysfs.udev_device -> BoltStatus.
Variable export_path : BoltDevice -> option string.

Lemma setup_monitor_error env e :
  setup_monitor env = FALSE e -> e = UdevError.
Proof.
  unfold setup_monitor.
  repeat match goal with |- context [if ?c then _ else _] => destruct c end;
    first [discriminate | intros [= <-]; reflexivity].
Qed.

(** X15.  When [bolt_manager_initialize] fails it has changed nothing:
    no record was loaded and no node enumerated.  The error is a UdevError
    when udev or one of the two monitors could not be set up, in which
    case the store was not consulted, and otherwise it is the error of the
    store listing. *)
Theorem bolt_manager_initialize_failure env store mgr :
  (setup_ok env = false ->
     bolt_manager_initialize bolt_status_from_udev export_path env store mgr
     = Returns (FALSE UdevError, mgr)) /\
  (forall e mgr',
     bolt_manager_initialize bolt_status_from_udev export_path env store mgr
     = Returns (FALSE e, mgr') ->
     mgr' = mgr /\
     ((setup_ok env = false /\ e = UdevError) \/
      (setup_ok env = true /\ bolt_store_list_uids store = inr e))).
Proof.
  unfold bolt_manager_initialize, setup_ok.
  destruct (udev_created env); simpl.
  2:{ split; [reflexivity|]. intros e mgr' [= <- <-]. auto. }
  destruct (setup_monitor (kernel_monitor env)) as [|ek] eqn:Ek; simpl.
  2:{ apply setup_monitor_error in Ek. subst ek.
      split; [reflexivity|]. intros e mgr' [= <- <-]. auto. }
  destruct (setup_monitor (udev_monitor env)) as [|eu] eqn:Eu; simpl.
  2:{ apply setup_monitor_error in Eu. subst eu.
      split; [reflexivity|]. intros e mgr' [= <- <-]. auto. }
  split; [discriminate|]. intros e mgr'.
  destruct (bolt_store_list_uids store) as [ids|es].
  - destruct (enumerate_devices _ _ _ _); simpl; discriminate.
  - intros [= <- <-]. auto.
Qed.

End Startup.

End BusProps.

(* ===================================================================== *)
(** ** More properties of the manager: the uevent handlers *)
(* ===================================================================== *)

Module HandlerProps.
Import Glib Manager ManagerBus ManagerProps.

(** *** What the authorization steps leave alone *)

Lemma maybe_authorize_device_frame mgr dev mgr' :
  maybe_authorize_device mgr dev = Returns mgr' ->
  same_table mgr mgr' /\
  (idle mgr' = idle mgr \/
   (idle mgr' = (idle mgr ++ [dev])%list /\
    exists d, objects mgr !! dev = Some d /\ auto_authorizable d)).
Proof.
  unfold maybe_authorize_device, deref.
  destruct (objects mgr !! dev) as [d|] eqn:Hd; simpl; [|discriminate].
  destruct (auto_authorizable_decide d) as [Hyes|Hno].
  - pose proof (maybe_authorize_device_yes mgr dev d Hd Hyes) as Hrun.
    unfold maybe_authorize_device in Hrun. rewrite (deref_live _ _ _ Hd) in Hrun.
    simpl in Hrun. rewrite Hrun. intros [= <-].
    split; [repeat split|]. right. split; [reflexivity | eauto].
  - pose proof (maybe_authorize_device_no mgr dev d Hd Hno) as Hrun.
    unfold maybe_authorize_device in Hrun. rewrite (deref_live _ _ _ Hd) in Hrun.
    simpl in Hrun. rewrite Hrun. intros [= <-].
    split; [repeat split | now left].
Qed.

Lemma authorize_children_frame (children : list nat) : forall mgr mgr',
  authorize_children mgr children = Returns mgr' ->
  same_table mgr mgr' /\
  exists new,
    idle mgr' = (idle mgr ++ new)%list /\
    forall c, c ∈ new ->
      exists d, objects mgr !! c = Some d /\ auto_authorizable d.
Proof.
  induction children as [|q rest IH]; intros mgr mgr'; simpl.
  - intros [= <-]. split; [repeat split|]. exists []. rewrite app_nil_r.
    split; [reflexivity|]. intros c Hc. inversion Hc.
  - destruct (maybe_authorize_device mgr q) as [mgr1|] eqn:Hq; [|discriminate].
    simpl. intros Hrest.
    apply maybe_authorize_device_frame in Hq
      as [(Ho1 & Hd1 & Hn1 & Hs1 & Hb1) Hidle1].
    apply IH in Hrest as [(Ho & Hd & Hn & Hs & Hb) (new & Hidle & Hnew)].
    split; [repeat split; congruence|].
    destruct Hidle1 as [Hsame|[Hadd Hauto]].
    + exists new. rewrite Hidle, Hsame. split; [reflexivity|].
      intros c Hc. rewrite <- Ho1. now apply Hnew.
    + exists (q :: new). rewrite Hidle, Hadd, <- app_assoc.
      split; [reflexivity|].
      intros c Hc. apply elem_of_cons in Hc as [->|Hc]; [exact Hauto|].
      rewrite <- Ho1. now apply Hnew.
Qed.

Lemma queued_ok_refl mgr mgr' :
  idle mgr' = idle mgr -> queued_ok mgr mgr'.
Proof.
  intros H. exists []. rewrite app_nil_r. split; [exact H|].
  intros c Hc. inversion Hc.
Qed.

(** *** Scans of a table whose objects did not change *)

Lemma device_by_uid_from_frame mgr mgr' uid (array : list nat) :
  (forall p, p ∈ array -> objects mgr' !! p = objects mgr !! p) ->
  device_by_uid_from mgr' uid array = device_by_uid_from mgr uid array.
Proof.
  induction array as [|p rest IH]; intros Hsame; simpl; [reflexivity|].
  unfold deref. rewrite (Hsame p) by left.
  rewrite IH; [reflexivity|]. intros q Hq. apply Hsame. now right.
Qed.

Lemma device_by_syspath_from_frame mgr mgr' path (array : list nat) :
  (forall p, p ∈ array -> objects mgr' !! p = objects mgr !! p) ->
  device_by_syspath_from mgr' path array = device_by_syspath_from mgr path array.
Proof.
  induction array as [|p rest IH]; intros Hsame; simpl; [reflexivity|].
  unfold deref. rewrite (Hsame p) by left.
  rewrite IH; [reflexivity|]. intros q Hq. apply Hsame. now right.
Qed.

Lemma device_by_uid_from_app mgr uid (array rest : list nat) :
  device_by_uid_from mgr uid array = Returns None ->
  device_by_uid_from mgr uid (array ++ rest) = device_by_uid_from mgr uid rest.
Proof.
  induction array as [|p array IH]; simpl; [reflexivity|].
  destruct (deref mgr p) as [d|]; simpl; [|discriminate].
  destruct (String.eqb (dev_uid d) uid); [discriminate | exact IH].
Qed.

Lemma device_by_syspath_from_app mgr path (array rest : list nat) :
  device_by_syspath_from mgr path array = Returns None ->
  device_by_syspath_from mgr path (array ++ rest)
  = device_by_syspath_from mgr path rest.
Proof.
  induction array as [|p array IH]; simpl; [reflexivity|].
  destruct (deref mgr p) as [d|]; simpl; [|discriminate].
  destruct (dev_syspath d) as [have|]; [|exact IH].
  destruct (String.eqb have path); [discriminate | exact IH].
Qed.

Lemma device_by_uid_from_none mgr uid (array : list nat) :
  device_by_uid_from mgr uid array = Returns None ->
  forall p, p ∈ array -> uid_at mgr p <> Some uid.
Proof.
  induction array as [|q rest IH]; simpl; intros Hnone p Hp; [inversion Hp|].
  unfold deref, uid_at in *.
  destruct (objects mgr !! q) as [d|] eqn:Hq; simpl in Hnone; [|discriminate].
  destruct (String.eqb (dev_uid d) uid) eqn:E; [discriminate|].
  apply elem_of_cons in Hp as [->|Hp]; [|now apply IH].
  rewrite Hq. apply String.eqb_neq in E. congruence.
Qed.

Lemma remove_fast_last data (array : list nat) :
  data ∉ array -> g_ptr_array_remove_fast data (array ++ [data]) = array.
Proof.
  induction array as [|p rest IH]; intros Hout; simpl.
  - now rewrite Nat.eqb_refl.
  - apply not_elem_of_cons in Hout as [Hne Hout].
    destruct (Nat.eqb p data) eqn:E; [apply Nat.eqb_eq in E; congruence|].
    now rewrite IH.
Qed.

Section Handlers.

Variable bolt_status_from_udev : Sysfs.udev_device -> BoltStatus.
Variable export_path : BoltDevice -> option string.

Local Abbreviation handle_uevent :=
  (handle_uevent_udev bolt_status_from_udev export_path).

(** What the added path leaves behind for a record [d]. *)
Lemma added_run mgr udev d :
  bolt_device_new_for_udev bolt_status_from_udev udev = inl d ->
  exists mgr',
    handle_udev_device_added bolt_status_from_udev export_path mgr udev
    = Returns mgr' /\
    devices mgr' = (devices mgr ++ [next_object mgr])%list /\
    next_object mgr' = S (next_object mgr) /\
    idle mgr' = idle mgr /\ bus mgr' = bus mgr /\
    objects mgr'
    = <[next_object mgr :=
          if bus mgr then with_object_path (export_path d) d else d]>
        (objects mgr) /\
    signals mgr'
    = (signals mgr ++ if bus mgr then [DeviceAdded (export_path d)] else [])%list.
Proof.
  intros Hnew. unfold handle_udev_device_added. rewrite Hnew. simpl.
  destruct (bus mgr); simpl.
  - eexists. split; [reflexivity|].
    destruct (export_path d); simpl; repeat split; apply insert_insert_eq.
  - eexists. split; [reflexivity|]. simpl. repeat split.
    now rewrite app_nil_r.
Qed.

(** X16.  The added path on a table of live, allocated devices in which
    no device has the uid of the new record: the record becomes the last
    device of the table and the lookup by its uid finds it; nothing is
    queued for authorization.  With a bus connection the record carries
    the object path of its export and one DeviceAdded with that path is
    emitted, also when the export failed and the path is NULL; without a
    connection nothing is emitted.  When the record cannot be created the
    only effect is a warning. *)
Theorem handle_udev_device_added_spec mgr udev :
  live_table mgr ->
  Forall (fun p => (p < next_object mgr)%nat) (devices mgr) ->
  (forall e, bolt_device_new_for_udev bolt_status_from_udev udev = inr e ->
     handle_udev_device_added bolt_status_from_udev export_path mgr udev
     = Returns (g_warning "Could not create device for udev" None mgr)) /\
  (forall d,
     bolt_device_new_for_udev bolt_status_from_udev udev = inl d ->
     bolt_manager_get_device_by_uid mgr (dev_uid d) = Returns None ->
     exists mgr',
       handle_udev_device_added bolt_status_from_udev export_path mgr udev
       = Returns mgr' /\
       devices mgr' = (devices mgr ++ [next_object mgr])%list /\
       bolt_manager_get_device_by_uid mgr' (dev_uid d)
       = Returns (Some (next_object mgr)) /\
       idle mgr' = idle mgr /\
       (bus mgr = false ->
          objects mgr' !! next_object mgr = Some d /\
          signals mgr' = signals mgr) /\
       (bus mgr = true ->
          objects mgr' !! next_object mgr
          = Some (with_object_path (export_path d) d) /\
          signals mgr' = (signals mgr ++ [DeviceAdded (export_path d)])%list)).
Proof.
  intros Hlive Hnext. split.
  - intros e He. unfold handle_udev_device_added. now rewrite He.
  - intros d Hnew Hnone.
    destruct (added_run mgr udev d Hnew)
      as (mgr' & Hrun & Hdev & _ & Hidle & _ & Hobj & Hsig).
    exists mgr'. split; [exact Hrun|]. split; [exact Hdev|].
    assert (Hold : forall p, p ∈ devices mgr ->
              objects mgr' !! p = objects mgr !! p).
    { intros p Hp. rewrite Hobj. apply lookup_insert_ne.
      rewrite Forall_forall in Hnext. specialize (Hnext p Hp). lia. }
    split; [|split; [exact Hidle|]].
    + unfold bolt_manager_get_device_by_uid in *. rewrite Hdev.
      rewrite device_by_uid_from_app
        by (rewrite (device_by_uid_from_frame mgr mgr'); auto).
      simpl. unfold deref. rewrite Hobj, lookup_insert_eq. simpl.
      assert (Huid : dev_uid (if bus mgr then with_object_path (export_path d) d
                              else d) = dev_uid d) by now destruct (bus mgr).
      now rewrite Huid, String.eqb_refl.
    + rewrite Hobj, Hsig, lookup_insert_eq.
      split; intros ->; split; auto using app_nil_r.
Qed.

(** The attached path: the record is refreshed, the table stays, and at
    most the device itself is queued. *)
Lemma attached_frame mgr dev d udev mgr' :
  objects mgr !! dev = Some d ->
  handle_udev_device_attached bolt_status_from_udev mgr dev udev = Returns mgr' ->
  same_table (set_object dev (bolt_device_connected bolt_status_from_udev d udev) mgr)
    mgr' /\
  queued_ok mgr mgr'.
Proof.
  intros Hd. unfold handle_udev_device_attached.
  rewrite (deref_live _ _ _ Hd). simpl.
  set (mgr1 := set_object dev (bolt_device_connected bolt_status_from_udev d udev) mgr).
  assert (Hauth : forall m, same_table mgr1 m -> idle m = idle mgr ->
            forall m', maybe_authorize_device m dev = Returns m' ->
            same_table mgr1 m' /\ queued_ok mgr m').
  { intros m (Ho & Hdv & Hn & Hs & Hb) Hi m' Hrun.
    apply maybe_authorize_device_frame in Hrun
      as [(Ho' & Hd' & Hn' & Hs' & Hb') Hidle].
    split; [repeat split; congruence|].
    destruct Hidle as [Hsame|[Hadd (dd & Hdd & Hauto)]].
    - apply queued_ok_refl. congruence.
    - exists [dev]. split; [congruence|].
      intros c Hc. apply list_elem_of_singleton in Hc. subst c.
      exists dd. split; [congruence | exact Hauto]. }
  destruct (negb (bool_decide (bolt_status_from_udev udev = BOLT_STATUS_CONNECTED))).
  { intros [= <-]. split; [repeat split | now apply queued_ok_refl]. }
  destruct (bolt_manager_get_parent mgr1 dev) as [[p|]|]; simpl; [| |discriminate].
  - destruct (deref mgr1 p) as [pd|]; simpl; [|discriminate].
    destruct (negb (bolt_status_is_authorized (dev_status pd))).
    + intros [= <-]. split; [repeat split | now apply queued_ok_refl].
    + apply Hauth; [repeat split | reflexivity].
  - apply Hauth; [repeat split | reflexivity].
Qed.

(** The changed path: the record is refreshed, the table stays, and only
    children that meet the conditions are queued. *)
Lemma changed_frame mgr dev d udev mgr' :
  objects mgr !! dev = Some d ->
  handle_udev_device_changed bolt_status_from_udev mgr dev udev = Returns mgr' ->
  same_table (set_object dev (bolt_device_update_from_udev bolt_status_from_udev d udev) mgr)
    mgr' /\
  queued_ok mgr mgr'.
Proof.
  intros Hd. unfold handle_udev_device_changed.
  rewrite (deref_live _ _ _ Hd). simpl.
  set (mgr1 := set_object dev (bolt_device_update_from_udev bolt_status_from_udev d udev) mgr).
  destruct (negb (bolt_status_is_authorized (bolt_status_from_udev udev))).
  { intros [= <-]. split; [repeat split | now apply queued_ok_refl]. }
  destruct (bolt_manager_get_children mgr1 dev) as [children|]; simpl;
    [|discriminate].
  intros Hrun. apply authorize_children_frame in Hrun
    as [(Ho & Hdv & Hn & Hs & Hb) (new & Hidle & Hnew)].
  split; [repeat split; assumption|].
  exists new. split; [exact Hidle|].
  intros c Hc. rewrite Ho. now apply Hnew.
Qed.

Lemma added_idle mgr udev mgr' :
  handle_udev_device_added bolt_status_from_udev export_path mgr udev
  = Returns mgr' ->
  idle mgr' = idle mgr.
Proof.
  unfold handle_udev_device_added.
  destruct (bolt_device_new_for_udev bolt_status_from_udev udev) as [d|e];
    [|now intros [= <-]].
  simpl. destruct (negb (bus mgr)); [now intros [= <-]|].
  intros [= <-]. now destruct (export_path d).
Qed.

(** X17.  Whatever a uevent does, the idle queue only grows at its end,
    and every device that the event queued for authorization is, in the
    resulting state, not authorized, of policy Auto and stored: no event
    queues an authorization for a device of another policy, for an
    unstored device or for one that is already authorized. *)
Theorem handle_uevent_udev_queues_auto_only mgr device mgr' :
  handle_uevent mgr device = Returns mgr' ->
  exists new,
    idle mgr' = (idle mgr ++ new)%list /\
    forall c, c ∈ new ->
      exists d, objects mgr' !! c = Some d /\
        bolt_status_is_authorized (dev_status d) = false /\
        dev_policy d = BOLT_POLICY_AUTO /\ (0 < dev_store d)%nat.
Proof.
  intros Hrun. change (queued_ok mgr mgr').
  unfold handle_uevent_udev in Hrun.
  destruct device as [udev|]; [|injection Hrun as <-; now apply queued_ok_refl].
  destruct (Sysfs.udev_action udev) as [action|];
    [|injection Hrun as <-; now apply queued_ok_refl].
  destruct (String.eqb action "add" || String.eqb action "change").
  - destruct (Sysfs.udev_sysattrs udev "unique_id") as [uid|];
      [|injection Hrun as <-; now apply queued_ok_refl].
    destruct (bolt_manager_get_device_by_uid mgr uid) as [[dev|]|];
      simpl in Hrun; [| |discriminate].
    + unfold deref in Hrun.
      destruct (objects mgr !! dev) as [d|] eqn:Hd; simpl in Hrun; [|discriminate].
      destruct (negb (bolt_device_is_connected d)).
      * exact (proj2 (attached_frame mgr dev d udev mgr' Hd Hrun)).
      * exact (proj2 (changed_frame mgr dev d udev mgr' Hd Hrun)).
    + apply queued_ok_refl. exact (added_idle _ _ _ Hrun).
  - destruct (String.eqb action "remove");
      [|injection Hrun as <-; now apply queued_ok_refl].
    destruct (Sysfs.udev_syspath udev) as [syspath|];
      [|injection Hrun as <-; now apply queued_ok_refl].
    destruct (is_domain_name (Sysfs.udev_sysname udev));
      [injection Hrun as <-; now apply queued_ok_refl|].
    destruct (bolt_manager_get_device_by_syspath mgr syspath) as [[dev|]|];
      simpl in Hrun; [| |discriminate].
    2:{ injection Hrun as <-. now apply queued_ok_refl. }
    unfold deref in Hrun.
    destruct (objects mgr !! dev) as [d|] eqn:Hd; simpl in Hrun; [|discriminate].
    destruct (Nat.ltb 0 (dev_store d)).
    + rewrite (detached_spec mgr dev d Hd) in Hrun. injection Hrun as <-.
      now apply queued_ok_refl.
    + rewrite (removed_spec mgr dev d Hd) in Hrun. injection Hrun as <-.
      apply queued_ok_refl. simpl. now destruct (dev_object_path d).
Qed.

(** *** An unknown device comes and goes *)

(** X18.  On a table that satisfies the invariant, the add event of a node
    with an unknown uid at a syspath that no device holds, followed by the
    remove event for that syspath, leaves the table and the idle queue as
    they were.  On the bus the two events emit DeviceAdded and DeviceRemoved
    with the same path, in this order; if the export failed, DeviceAdded
    with a NULL path and nothing for the removal; and without a bus
    connection nothing at all. *)
Theorem add_then_remove_restores_table mgr add_ev remove_ev path uid d :
  table_inv mgr ->
  Sysfs.udev_action add_ev = Some "add" ->
  Sysfs.udev_sysattrs add_ev "unique_id" = inl uid ->
  Sysfs.udev_syspath add_ev = Some path ->
  bolt_device_new_for_udev bolt_status_from_udev add_ev = inl d ->
  Sysfs.udev_action remove_ev = Some "remove" ->
  Sysfs.udev_syspath remove_ev = Some path ->
  is_domain_name (Sysfs.udev_sysname remove_ev) = false ->
  bolt_manager_get_device_by_uid mgr uid = Returns None ->
  bolt_manager_get_device_by_syspath mgr path = Returns None ->
  exists mgr1 mgr2,
    handle_uevent mgr (Some add_ev) = Returns mgr1 /\
    handle_uevent mgr1 (Some remove_ev) = Returns mgr2 /\
    devices mgr2 = devices mgr /\ idle mgr2 = idle mgr /\
    signals mgr2
    = (signals mgr ++
       if bus mgr then
         match export_path d with
         | Some opath => [DeviceAdded (Some opath); DeviceRemoved opath]
         | None => [DeviceAdded None]
         end
       else [])%list.
Proof.
  intros (Hnd & Hlive & _ & Hnext) Hadd Huid Hpath Hnew Hrem Hrpath Hdom
    Hnouid Hnopath.
  assert (Hd : d = {| dev_uid := uid; dev_syspath := Some path;
                      dev_status := bolt_status_from_udev add_ev;
                      dev_policy := BOLT_POLICY_DEFAULT; dev_store := 0%nat;
                      dev_object_path := None |}).
  { unfold bolt_device_new_for_udev in Hnew. rewrite Huid, Hpath in Hnew.
    now injection Hnew as <-. }
  destruct (added_run mgr add_ev d Hnew)
    as (mgr1 & Hrun1 & Hdev1 & _ & Hidle1 & _ & Hobj1 & Hsig1).
  set (n := next_object mgr) in *.
  set (d1 := if bus mgr then with_object_path (export_path d) d else d) in *.
  assert (Hfresh : n ∉ devices mgr).
  { intros Hin. rewrite Forall_forall in Hnext. specialize (Hnext n Hin).
    unfold n in Hnext. lia. }
  assert (Hold : forall p, p ∈ devices mgr ->
            objects mgr1 !! p = objects mgr !! p).
  { intros p Hp. rewrite Hobj1. apply lookup_insert_ne. intros <-. auto. }
  assert (Hn : objects mgr1 !! n = Some d1)
    by (rewrite Hobj1; apply lookup_insert_eq).
  assert (Hd1 : dev_syspath d1 = Some path /\ dev_store d1 = 0%nat /\
                dev_object_path d1 = if bus mgr then export_path d else None).
  { unfold d1. rewrite Hd. destruct (bus mgr); simpl; auto. }
  destruct Hd1 as (Hsys1 & Hstore1 & Hopath1).
  exists mgr1. eexists. split.
  { unfold handle_uevent_udev. rewrite Hadd, Huid. simpl. rewrite Hnouid.
    simpl. exact Hrun1. }
  assert (Hfind : bolt_manager_get_device_by_syspath mgr1 path
                  = Returns (Some n)).
  { unfold bolt_manager_get_device_by_syspath in *. rewrite Hdev1.
    rewrite device_by_syspath_from_app
      by (rewrite (device_by_syspath_from_frame mgr mgr1); auto).
    simpl. unfold deref. rewrite Hn. simpl. rewrite Hsys1.
    now rewrite String.eqb_refl. }
  rewrite (remove_event_run bolt_status_from_udev export_path mgr1 remove_ev
             path (Some n) Hrem Hrpath Hfind).
  rewrite Hdom, Hn, Hstore1. simpl.
  rewrite (removed_spec mgr1 n d1 Hn). split; [reflexivity|].
  rewrite Hopath1, Hdev1, (remove_fast_last n (devices mgr) Hfresh).
  destruct (bus mgr); simpl.
  - destruct (export_path d) as [opath|]; simpl.
    + rewrite Hsig1, <- app_assoc. auto.
    + rewrite Hsig1. auto.
  - rewrite Hsig1. auto.
Qed.

(** *** Uids *)

Lemma uids_unique_frame mgr mgr' :
  devices mgr' = devices mgr ->
  (forall p, uid_at mgr' p = uid_at mgr p) ->
  uids_unique mgr -> uids_unique mgr'.
Proof.
  unfold uids_unique. intros -> Hsame Hu.
  rewrite (map_ext _ _ Hsame). exact Hu.
Qed.

Lemma uid_at_set_object mgr p d d' q :
  objects mgr !! p = Some d -> dev_uid d' = dev_uid d ->
  uid_at (set_object p d' mgr) q = uid_at mgr q.
Proof.
  intros Hd Huid. unfold uid_at. simpl.
  destruct (decide (p = q)) as [->|Hne].
  - rewrite lookup_insert_eq, Hd. now rewrite Huid.
  - now rewrite lookup_insert_ne.
Qed.

Lemma nodup_map_remove_fast {A} (f : nat -> A) data (array : list nat) :
  NoDup (map f array) -> NoDup (map f (g_ptr_array_remove_fast data array)).
Proof.
  induction array as [|p rest IH]; simpl; intros Hnd; [constructor|].
  apply NoDup_cons in Hnd as [Hp Hnd].
  destruct (Nat.eqb p data).
  - destruct (last rest) as [z|] eqn:El; [|constructor].
    apply last_Some in El as [l' ->]. rewrite removelast_last.
    rewrite map_app in Hnd. simpl in *.
    now rewrite (Permutation_cons_append (map f l') (f z)).
  - simpl. apply NoDup_cons_2; [|now apply IH].
    intros Hin. apply Hp. rewrite list_elem_of_In, in_map_iff in *.
    destruct Hin as (q & Hq & Hin). exists q. split; [exact Hq|].
    apply list_elem_of_In. apply (remove_fast_elem data).
    now apply list_elem_of_In.
Qed.

(** X19.  No uevent makes two records of the table share a uid: on a
    table that satisfies the invariant and has no uid twice, the table
    after any uevent has no uid twice either.  A record is only added
    after the lookup by its uid has found none. *)
Theorem handle_uevent_udev_keeps_uids_unique mgr device mgr' :
  table_inv mgr -> uids_unique mgr ->
  handle_uevent mgr device = Returns mgr' ->
  uids_unique mgr'.
Proof.
  intros (Hnd & Hlive & _ & Hnext) Hu Hrun.
  assert (Hkeep : forall dev d d1 m,
            objects mgr !! dev = Some d -> dev_uid d1 = dev_uid d ->
            same_table (set_object dev d1 mgr) m -> uids_unique m).
  { intros dev d d1 m Hd Huid (Ho & Hdv & _). apply (uids_unique_frame mgr).
    - exact Hdv.
    - intros p. unfold uid_at at 1. rewrite Ho.
      exact (uid_at_set_object mgr dev d d1 p Hd Huid).
    - exact Hu. }
  unfold handle_uevent_udev in Hrun.
  destruct device as [udev|]; [|now injection Hrun as <-].
  destruct (Sysfs.udev_action udev) as [action|]; [|now injection Hrun as <-].
  destruct (String.eqb action "add" || String.eqb action "change").
  - destruct (Sysfs.udev_sysattrs udev "unique_id") as [uid|] eqn:Huid;
      [|now injection Hrun as <-].
    destruct (bolt_manager_get_device_by_uid mgr uid) as [[dev|]|] eqn:Hfind;
      simpl in Hrun; [| |discriminate].
    + unfold deref in Hrun.
      destruct (objects mgr !! dev) as [d|] eqn:Hd; simpl in Hrun; [|discriminate].
      destruct (negb (bolt_device_is_connected d)).
      * destruct (attached_frame mgr dev d udev mgr' Hd Hrun) as [Hsame _].
        eapply Hkeep; [exact Hd| |exact Hsame]. reflexivity.
      * destruct (changed_frame mgr dev d udev mgr' Hd Hrun) as [Hsame _].
        eapply Hkeep; [exact Hd| |exact Hsame]. reflexivity.
    + assert (Hnew : bolt_device_new_for_udev bolt_status_from_udev udev
                     = inl {| dev_uid := uid;
                              dev_syspath := Sysfs.udev_syspath udev;
                              dev_status := bolt_status_from_udev udev;
                              dev_policy := BOLT_POLICY_DEFAULT;
                              dev_store := 0%nat; dev_object_path := None |})
        by (unfold bolt_device_new_for_udev; now rewrite Huid).
      destruct (added_run mgr udev _ Hnew)
        as (m & Hrun1 & Hdev1 & _ & _ & _ & Hobj1 & _).
      rewrite Hrun1 in Hrun. injection Hrun as <-.
      unfold uids_unique. rewrite Hdev1, map_app. simpl.
      assert (Hold : forall p, p ∈ devices mgr -> uid_at m p = uid_at mgr p).
      { intros p Hp. unfold uid_at. rewrite Hobj1, lookup_insert_ne; [reflexivity|].
        rewrite Forall_forall in Hnext. specialize (Hnext p Hp). lia. }
      assert (Hmap : map (uid_at m) (devices mgr) = map (uid_at mgr) (devices mgr)).
      { apply map_ext_in. intros p Hp. apply Hold. now apply list_elem_of_In. }
      rewrite Hmap. apply NoDup_app. split; [exact Hu|].
      split; [|apply NoDup_singleton].
      intros u Hin Hin'. apply list_elem_of_singleton in Hin'. subst u.
      rewrite list_elem_of_In, in_map_iff in Hin.
      destruct Hin as (p & Hp & Hin). apply list_elem_of_In in Hin.
      apply (device_by_uid_from_none mgr uid (devices mgr) Hfind p Hin).
      rewrite Hp. unfold uid_at. rewrite Hobj1, lookup_insert_eq.
      now destruct (bus mgr).
  - destruct (String.eqb action "remove"); [|now injection Hrun as <-].
    destruct (Sysfs.udev_syspath udev) as [syspath|].
    2:{ injection Hrun as <-. now apply (uids_unique_frame mgr). }
    destruct (is_domain_name (Sysfs.udev_sysname udev));
      [now injection Hrun as <-|].
    destruct (bolt_manager_get_device_by_syspath mgr syspath) as [[dev|]|];
      simpl in Hrun; [| |discriminate].
    2:{ now injection Hrun as <-. }
    unfold deref in Hrun.
    destruct (objects mgr !! dev) as [d|] eqn:Hd; simpl in Hrun; [|discriminate].
    destruct (Nat.ltb 0 (dev_store d)).
    + rewrite (detached_spec mgr dev d Hd) in Hrun. injection Hrun as <-.
      eapply Hkeep; [exact Hd| |repeat split]. reflexivity.
    + rewrite (removed_spec mgr dev d Hd) in Hrun. injection Hrun as <-.
      assert (Hcut : NoDup (map (uid_at mgr)
                              (g_ptr_array_remove_fast dev (devices mgr))))
        by now apply nodup_map_remove_fast.
      unfold uids_unique.
      destruct (dev_object_path d) as [opath|]; simpl; [|exact Hcut].
      erewrite map_ext; [exact Hcut|].
      intros p.
      exact (uid_at_set_object mgr dev d (bolt_device_unexport d) p Hd eq_refl).
Qed.

(** *** The table invariant *)

(** X20.  Every uevent from a node whose syspath holds the ["/sys"]
    prefix is handled to the end on a table that satisfies the invariant
    (no pointer twice, every pointer live and allocated, every syspath in
    bounds), and the table satisfies the invariant afterwards. *)
Theorem handle_uevent_udev_keeps_table_inv mgr device :
  (forall udev, device = Some udev -> event_in_bounds udev) ->
  table_inv mgr ->
  exists mgr', handle_uevent mgr device = Returns mgr' /\ table_inv mgr'.
Proof. exact (handle_uevent_udev_inv _ _ mgr device). Qed.

Lemma enumerate_devices_returns (nodes : list (option Sysfs.udev_device)) :
  forall mgr,
  Forall (fun node => forall udev, node = Some udev ->
            event_in_bounds udev /\
            exists uid, Sysfs.udev_sysattrs udev "unique_id" = inl uid) nodes ->
  table_inv mgr ->
  exists mgr',
    enumerate_devices bolt_status_from_udev export_path nodes mgr = Returns mgr' /\
    table_inv mgr'.
Proof.
  induction nodes as [|node rest IH]; intros mgr Hev Hinv; simpl; [eauto|].
  apply Forall_cons in Hev as [Hnode Hrest].
  destruct node as [udevice|]; [|now apply IH].
  destruct (Hnode udevice eq_refl) as (Hbounds & uid & Huid). rewrite Huid.
  assert (Hlive : live_table mgr) by apply Hinv.
  destruct (device_by_uid_from_returns mgr uid (devices mgr) Hlive)
    as (r & Hr & Hfound).
  unfold bolt_manager_get_device_by_uid. rewrite Hr. simpl.
  destruct r as [dev|].
  - destruct (attached_inv bolt_status_from_udev mgr dev udevice)
      as (mgr1 & Hrun & Hinv1);
      [apply (Hfound dev eq_refl) | exact Hbounds | exact Hinv|].
    rewrite Hrun. simpl. now apply IH.
  - destruct (added_inv bolt_status_from_udev export_path mgr udevice
                Hbounds Hinv) as (mgr1 & Hrun & Hinv1).
    rewrite Hrun. simpl. now apply IH.
Qed.

(** X21.  [bolt_manager_initialize] runs to its end and the table it leaves
    behind, whether it succeeds or fails, satisfies the invariant, provided
    the records of the store have syspaths that hold the prefix and every
    enumerated node has such a syspath and a [unique_id] attribute (which
    the code asserts). *)
Theorem bolt_manager_initialize_table_inv env store :
  (forall uid d, bolt_store_get_device store uid = inl d ->
     forall path, dev_syspath d = Some path -> (4 <= String.length path)%nat) ->
  Forall (fun node => forall udev, node = Some udev ->
            event_in_bounds udev /\
            exists uid, Sysfs.udev_sysattrs udev "unique_id" = inl uid)
    (enumerated env) ->
  exists res mgr',
    bolt_manager_initialize bolt_status_from_udev export_path env store
      bolt_manager_init = Returns (res, mgr') /\
    table_inv mgr'.
Proof.
  intros Hstore Hev. unfold bolt_manager_initialize.
  destruct (negb (udev_created env));
    [eexists _, _; split; [reflexivity|apply bolt_manager_init_inv]|].
  destruct (setup_monitor (kernel_monitor env));
    [|eexists _, _; split; [reflexivity|apply bolt_manager_init_inv]].
  destruct (setup_monitor (udev_monitor env));
    [|eexists _, _; split; [reflexivity|apply bolt_manager_init_inv]].
  destruct (bolt_store_list_uids store) as [ids|e];
    [|eexists _, _; split; [reflexivity|apply bolt_manager_init_inv]].
  destruct (enumerate_devices_returns (enumerated env)
              (load_devices store ids bolt_manager_init) Hev
              (load_devices_inv store ids _ Hstore bolt_manager_init_inv))
    as (mgr2 & Hrun & Hinv2).
  cbv zeta. rewrite Hrun. simpl. eauto.
Qed.

End Handlers.

Lemma handle_udev_device_added_spec_witness :
  exists mgr',
    handle_udev_device_added sample_status_from_udev sample_export_path on_bus
      (camera_event "add") = Returns mgr' /\
    devices mgr' = [0%nat] /\
    bolt_manager_get_device_by_uid mgr' "camera" = Returns (Some 0%nat) /\
    idle mgr' = [] /\
    signals mgr' = [DeviceAdded (Some "/org/freedesktop/Bolt/devices/camera")].
Proof.
  destruct (proj2 (handle_udev_device_added_spec sample_status_from_udev
                     sample_export_path on_bus (camera_event "add")
                     ltac:(constructor) ltac:(constructor))
              _ eq_refl eq_refl)
    as (mgr' & Hrun & Hdev & Hfind & Hidle & _ & Hbus).
  exists mgr'. split; [exact Hrun|]. split; [exact Hdev|].
  split; [exact Hfind|]. split; [exact Hidle|].
  exact (proj2 (Hbus eq_refl)).
Defined.

Lemma add_then_remove_restores_table_witness :
  exists mgr1 mgr2,
    sample_uevent on_bus (camera_event "add") = Returns mgr1 /\
    sample_uevent mgr1 (camera_event "remove") = Returns mgr2 /\
    devices mgr2 = [] /\ idle mgr2 = [] /\
    signals mgr2
    = [DeviceAdded (Some "/org/freedesktop/Bolt/devices/camera");
       DeviceRemoved "/org/freedesktop/Bolt/devices/camera"].
Proof.
  exact (add_then_remove_restores_table sample_status_from_udev
           sample_export_path on_bus (camera_event "add")
           (camera_event "remove") "/sys/devices/domain0/0-0/0-3" "camera" _
           ltac:(repeat split; constructor)
           eq_refl eq_refl eq_refl eq_refl eq_refl eq_refl eq_refl eq_refl
           eq_refl).
Defined.

Lemma uids_unique_disk_attached : uids_unique disk_attached.
Proof.
  unfold uids_unique.
  change (NoDup [Some "dock"; Some "disk"]).
  apply NoDup_cons_2; [|apply NoDup_singleton].
  intros Hin. apply list_elem_of_singleton in Hin. discriminate.
Qed.

Lemma handle_uevent_udev_keeps_uids_unique_witness :
  uids_unique (after (sample_uevent disk_attached (camera_event "add"))).
Proof.
  exact (handle_uevent_udev_keeps_uids_unique sample_status_from_udev
           sample_export_path disk_attached (Some (camera_event "add")) _
           BusProps.table_inv_disk_attached uids_unique_disk_attached eq_refl).
Defined.

Lemma handle_uevent_udev_keeps_table_inv_witness :
  exists mgr',
    sample_uevent disk_attached (disk_event "remove" "0") = Returns mgr' /\
    table_inv mgr'.
Proof.
  apply (handle_uevent_udev_keeps_table_inv sample_status_from_udev
           sample_export_path disk_attached (Some (disk_event "remove" "0"))).
  - intros udev [= <-] path [= <-]. vm_compute. lia.
  - exact BusProps.table_inv_disk_attached.
Defined.

Lemma bolt_manager_initialize_table_inv_witness :
  exists res mgr',
    bolt_manager_initialize sample_status_from_udev sample_export_path
      sample_env sample_store bolt_manager_init = Returns (res, mgr') /\
    table_inv mgr'.
Proof.
  apply (bolt_manager_initialize_table_inv sample_status_from_udev
           sample_export_path sample_env sample_store).
  - intros uid d. simpl.
    destruct (String.eqb uid "dock");
      [intros [= <-] path Hpath; discriminate|].
    destruct (String.eqb uid "disk");
      [intros [= <-] path Hpath; discriminate|]. discriminate.
  - apply Forall_cons. split; [|apply Forall_nil_2].
    intros udev [= <-]. split.
    + intros path [= <-]. vm_compute. lia.
    + exists "dock". reflexivity.
Defined.

Lemma handle_uevent_udev_queues_auto_only_witness :
  exists new,
    idle (after (sample_uevent disk_attached (dock_event "change" "1")))
    = (idle disk_attached ++ new)%list /\
    forall c, c ∈ new ->
      exists d,
        objects (after (sample_uevent disk_attached (dock_event "change" "1"))) !! c
        = Some d /\
        bolt_status_is_authorized (dev_status d) = false /\
        dev_policy d = BOLT_POLICY_AUTO /\ (0 < dev_store d)%nat.
Proof.
  exact (handle_uevent_udev_queues_auto_only sample_status_from_udev
           sample_export_path disk_attached
           (Some (dock_event "change" "1")) _ eq_refl).
Defined.

End HandlerProps.

(* ===================================================================== *)
(** ** The lookups of the table *)
(* ===================================================================== *)

Module LookupProps.
Import Manager ManagerBus ManagerProps.

Lemma device_by_uid_from_first mgr uid (array : list nat) :
  Forall (fun p => is_Some (objects mgr !! p)) array ->
  exists r, device_by_uid_from mgr uid array = Returns r /\
    match r with
    | Some p =>
        exists before after,
          array = (before ++ p :: after)%list /\
          uid_at mgr p = Some uid /\
          Forall (fun q => uid_at mgr q <> Some uid) before
    | None => Forall (fun q => uid_at mgr q <> Some uid) array
    end.
Proof.
  induction 1 as [|p rest [d Hd] Hrest IH]; simpl.
  - exists None. split; [reflexivity | constructor].
  - rewrite (deref_live _ _ _ Hd). simpl.
    destruct (String.eqb (dev_uid d) uid) eqn:E.
    + apply String.eqb_eq in E. exists (Some p). split; [reflexivity|].
      exists [], rest. split; [reflexivity|]. split; [|constructor].
      unfold uid_at. rewrite Hd. now rewrite E.
    + apply String.eqb_neq in E.
      assert (Hp : uid_at mgr p <> Some uid)
        by (unfold uid_at; rewrite Hd; congruence).
      destruct IH as (r & Hr & Hfirst). exists r. split; [exact Hr|].
      destruct r as [q|].
      * destruct Hfirst as (before & after & -> & Hq & Hbefore).
        exists (p :: before), after. split; [reflexivity|].
        split; [exact Hq | now constructor].
      * now constructor.
Qed.

Lemma nodup_map_inj {A} (f : nat -> A) (l : list nat) x y :
  NoDup (map f l) -> x ∈ l -> y ∈ l -> f x = f y -> x = y.
Proof.
  induction l as [|z l IH]; simpl; intros Hnd Hx Hy Heq; [inversion Hx|].
  apply NoDup_cons in Hnd as [Hz Hnd].
  assert (Hmem : forall w, w ∈ l -> f w ∈ map f l).
  { intros w Hw. apply list_elem_of_In, in_map, list_elem_of_In, Hw. }
  apply elem_of_cons in Hx as [->|Hx]; apply elem_of_cons in Hy as [->|Hy].
  - reflexivity.
  - exfalso. apply Hz. rewrite Heq. now apply Hmem.
  - exfalso. apply Hz. rewrite <- Heq. now apply Hmem.
  - now apply IH.
Qed.

(** X22.  On a table of live devices [bolt_manager_get_device_by_uid]
    always returns.  It returns NULL exactly when no device of the table
    has the uid; otherwise it returns the first device of the table that
    has it, and on a table without repeated uids that is the only one. *)
Theorem bolt_manager_get_device_by_uid_first mgr uid :
  live_table mgr ->
  exists r,
    bolt_manager_get_device_by_uid mgr uid = Returns r /\
    match r with
    | Some p =>
        (exists before after,
           devices mgr = (before ++ p :: after)%list /\
           uid_at mgr p = Some uid /\
           Forall (fun q => uid_at mgr q <> Some uid) before) /\
        (uids_unique mgr ->
           forall q, q ∈ devices mgr -> uid_at mgr q = Some uid -> q = p)
    | None => forall q, q ∈ devices mgr -> uid_at mgr q <> Some uid
    end.
Proof.
  intros Hlive.
  destruct (device_by_uid_from_first mgr uid (devices mgr) Hlive)
    as (r & Hr & Hfirst).
  exists r. split; [exact Hr|]. destruct r as [p|].
  - split; [exact Hfirst|]. intros Hu q Hq Huid.
    destruct Hfirst as (before & after & Hdev & Hp & _).
    apply (nodup_map_inj (uid_at mgr) (devices mgr) q p Hu Hq).
    + rewrite Hdev. apply elem_of_app. right. left.
    + congruence.
  - now apply Forall_forall.
Qed.

Lemma bolt_manager_get_device_by_uid_first_witness :
  exists r,
    bolt_manager_get_device_by_uid disk_attached "disk" = Returns r /\
    match r with
    | Some p =>
        (exists before after,
           devices disk_attached = (before ++ p :: after)%list /\
           uid_at disk_attached p = Some "disk" /\
           Forall (fun q => uid_at disk_attached q <> Some "disk") before) /\
        (uids_unique disk_attached ->
           forall q, q ∈ devices disk_attached ->
                     uid_at disk_attached q = Some "disk" -> q = p)
    | None => forall q, q ∈ devices disk_attached ->
                        uid_at disk_attached q <> Some "disk"
    end.
Proof.
  exact (bolt_manager_get_device_by_uid_first disk_attached "disk"
           disk_attached_live).
Defined.

End LookupProps.
